(** * The authorization pipeline of [pkg/service/auth_context.go]

    A shallow embedding of the per-request auth context and its
    accessors, of the bearer token extraction, of the metadata view and
    of the three-phase pipeline [Evaluate] with its concurrent fan-out
    runners, followed by the properties established for them. *)

From Stdlib Require Import Ascii String.
From stdpp Require Import gmap strings list fin_maps relations.

Local Open Scope string_scope.

(** ** Go values *)

(** [error]: [None] is Go's [nil], an actual error carries its message
    (the file builds its own errors with [fmt.Errorf]). *)
Inductive GoError := Errorf (msg : string).

Definition error := option GoError.

(** [interface{}]: [None] is the [nil] interface value. *)
Definition interface (Obj : Type) := option Obj.

Global Instance GoError_eq_dec : EqDecision GoError.
Proof. solve_decision. Defined.

(** ** [strings.Split] for a non-empty separator

    The parts of [s] between the leftmost, non-overlapping occurrences of
    [sep]; the result always has one part more than there are such
    occurrences.  [skip] counts the characters of an occurrence that are
    still to be passed over. *)

Fixpoint HasPrefix (s prefix : list ascii) {struct prefix} : bool :=
  match prefix, s with
  | [], _ => true
  | _ :: _, [] => false
  | p :: prefix', c :: s' => bool_decide (c = p) && HasPrefix s' prefix'
  end.

Fixpoint Split_scan (sep : list ascii) (skip : nat) (s : list ascii)
  : list (list ascii) :=
  match s with
  | [] => [[]]
  | c :: s' =>
      match skip with
      | S k => Split_scan sep k s'
      | O =>
          if HasPrefix s sep
          then [] :: Split_scan sep (List.length sep - 1) s'
          else match Split_scan sep 0 s' with
               | part :: parts => (c :: part) :: parts
               | [] => [[c]]
               end
      end
  end.

Definition Split (s sep : string) : list string :=
  string_of_list_ascii <$>
    Split_scan (list_ascii_of_string sep) 0 (list_ascii_of_string s).

(** ** The inbound check request

    The part of Envoy's [CheckRequest] that the file reads:
    [Request.Attributes.Request.Http.Headers].  Each nested message is
    held by pointer and may be nil ([None]); the headers map itself may
    be nil too ([None], on which a lookup reports absence). *)

Record AttributeContext_HttpRequest := {
  Method : string;
  Path : string;
  Host : string;
  Headers : option (gmap string string)
}.

Record AttributeContext_Request := {
  Http : option AttributeContext_HttpRequest
}.

Record AttributeContext := { Request_ : option AttributeContext_Request }.

Record CheckRequest := { Attributes : option AttributeContext }.

(** [v, ok := m[k]] on a possibly nil map of strings. *)
Definition map_index (m : option (gmap string string)) (k : string)
  : string * bool :=
  match m with
  | Some m' => match m' !! k with
               | Some v => (v, true)
               | None => ("", false)
               end
  | None => ("", false)
  end.

(** ** Evaluators and the API configuration

    An evaluator is one of the three configuration structs of
    [pkg/config], held by pointer behind the interface
    [common.AuthConfigEvaluator]; the pointer is its identity (the result
    maps are keyed by it). *)

Inductive AuthConfigEvaluator :=
| IdentityConfig (p : positive)
| MetadataConfig (p : positive)
| AuthorizationConfig (p : positive).

Global Instance AuthConfigEvaluator_eq_dec : EqDecision AuthConfigEvaluator.
Proof. solve_decision. Defined.

(** The type assertion of [resp.Evaluator] to a pointer to
    [config.IdentityConfig], and its two siblings, in the comma-ok form:
    a nil pointer ([None]) when the dynamic type is another one. *)

Definition as_IdentityConfig (e : AuthConfigEvaluator) : option positive :=
  match e with IdentityConfig p => Some p | _ => None end.

Definition as_MetadataConfig (e : AuthConfigEvaluator) : option positive :=
  match e with MetadataConfig p => Some p | _ => None end.

Definition as_AuthorizationConfig (e : AuthConfigEvaluator) : option positive :=
  match e with AuthorizationConfig p => Some p | _ => None end.

Record APIConfig := {
  IdentityConfigs : list AuthConfigEvaluator;
  MetadataConfigs : list AuthConfigEvaluator;
  AuthorizationConfigs : list AuthConfigEvaluator
}.

(** ** The auth context, lines 47-71

    [ParentContext] is the state of the caller's context: [true] once it
    is done (cancelled).  [Request] is the pointer that the caller
    passes, nil ([None]) or not. *)

Record AuthContext (Obj : Type) := {
  ParentContext : bool;
  Request : option CheckRequest;
  API : APIConfig;
  Identity : gmap (option positive) (interface Obj);
  Metadata : gmap (option positive) (interface Obj);
  Authorization : gmap (option positive) (interface Obj)
}.

Arguments ParentContext {Obj} _.
Arguments Request {Obj} _.
Arguments API {Obj} _.
Arguments Identity {Obj} _.
Arguments Metadata {Obj} _.
Arguments Authorization {Obj} _.

Definition NewAuthContext {Obj} (parentCtx : bool) (req : option CheckRequest)
    (apiConfig : APIConfig) : AuthContext Obj :=
  {| ParentContext := parentCtx;
     Request := req;
     API := apiConfig;
     Identity := ∅;
     Metadata := ∅;
     Authorization := ∅ |}.

(** The methods of [pkg/config] that the file calls, which are not part
    of it: [Call] of the evaluator interface, which may read the auth
    context it is given, and [GetType] of a metadata configuration, of
    which the caller keeps the type tag and drops the error. *)

Class Evaluators (Obj : Type) := {
  Call : AuthConfigEvaluator → AuthContext Obj → interface Obj * error;
  GetType : option positive → string
}.

Record EvaluationResponse (Obj : Type) := {
  Evaluator : AuthConfigEvaluator;
  Success : bool;
  Object : interface Obj;
  Error : error
}.

Arguments Evaluator {Obj} _.
Arguments Success {Obj} _.
Arguments Object {Obj} _.
Arguments Error {Obj} _.

Definition newEvaluationResponseSuccess {Obj} (evaluator : AuthConfigEvaluator)
    (obj : interface Obj) : EvaluationResponse Obj :=
  {| Evaluator := evaluator; Success := true; Object := obj; Error := None |}.

Definition newEvaluationResponseFailure {Obj} (evaluator : AuthConfigEvaluator)
    (err : error) : EvaluationResponse Obj :=
  {| Evaluator := evaluator; Success := false; Object := None; Error := err |}.

(** ** The metadata view, lines 290-297

    Go ranges over a map in an unspecified order: [GetMetadata_range] is
    the loop over the entries in one order, [GetMetadata] relates the
    auth context to the view of any order. *)

Definition GetMetadata_range {Obj} `{!Evaluators Obj}
    (entries : list (option positive * interface Obj))
  : gmap string (interface Obj) :=
  foldl (λ m entry, <[ GetType entry.1 := entry.2 ]> m) ∅ entries.

Definition GetMetadata {Obj} `{!Evaluators Obj} (authContext : AuthContext Obj)
    (m : gmap string (interface Obj)) : Prop :=
  ∃ entries, entries ≡ₚ map_to_list (Metadata authContext)
             ∧ m = GetMetadata_range entries.

(** ** The bearer token, lines 308-321

    The function returns its two results, or panics ([None]).
    [AuthorizationToken_http] is the selector chain
    [authContext.Request.Attributes.Request.Http] of line 309, which
    dereferences four pointers without a check: [None] is the run-time
    panic of a nil pointer dereference.  [AuthorizationToken_index] is the
    slice the function holds when it reaches the index expression
    [splitToken[1]], if it reaches it; the index expression itself is
    partial ([None]: the run-time panic of an index out of range). *)

Definition malformed : GoError :=
  Errorf "authorization header malformed or not provided".

Definition AuthorizationToken_http {Obj} (authContext : AuthContext Obj)
  : option AttributeContext_HttpRequest :=
  match Request authContext with
  | None => None
  | Some req =>
      match Attributes req with
      | None => None
      | Some attributes =>
          match Request_ attributes with
          | None => None
          | Some request => Http request
          end
      end
  end.

Definition AuthorizationToken_index (http : AttributeContext_HttpRequest)
  : option (list string) :=
  let '(authHeader, authHeaderOK) :=
    map_index (Headers http) "authorization" in
  let splitToken : list string :=
    if authHeaderOK then Split authHeader "Bearer " else [] in
  if negb authHeaderOK || negb (Nat.eqb (List.length splitToken) 2)
  then None
  else Some splitToken.

Definition AuthorizationToken {Obj} (authContext : AuthContext Obj)
  : option (string * error) :=
  match AuthorizationToken_http authContext with
  | None => None
  | Some http =>
      match AuthorizationToken_index http with
      | None => Some ("", Some malformed)
      | Some splitToken =>
          match splitToken !! 1 with
          | Some token => Some (token, None)
          | None => None
          end
      end
  end.

(** A request with all its messages, and the four requests in which
    one pointer of the chain is nil. *)

Definition request_with (headers : option (gmap string string))
  : option CheckRequest :=
  Some {| Attributes := Some {| Request_ := Some {| Http := Some
       {| Method := "GET"; Path := "/"; Host := "echo-api";
          Headers := headers |} |} |} |}.

Definition request_authorization (h : string) : option CheckRequest :=
  request_with (Some {[ "authorization" := h ]}).

Definition request_nil : option CheckRequest := None.

Definition request_nil_Attributes : option CheckRequest :=
  Some {| Attributes := None |}.

Definition request_nil_Request : option CheckRequest :=
  Some {| Attributes := Some {| Request_ := None |} |}.

Definition request_nil_Http : option CheckRequest :=
  Some {| Attributes := Some {| Request_ := Some {| Http := None |} |} |}.

(** An auth context for a request, with no evaluator configured. *)
Definition context_of (req : option CheckRequest) : AuthContext string :=
  NewAuthContext false req
    {| IdentityConfigs := []; MetadataConfigs := [];
       AuthorizationConfigs := [] |}.

(** ** The fan-out runners, lines 73-171

    A phase runs one goroutine per evaluator; the three runners differ
    only in who cancels the context they derive, which
    [evaluateOneAuthConfig] and [evaluateAllAuthConfigs] derive from
    [context.Background()] and which is [context.Background()] itself in
    [evaluateAnyAuthConfig].  The goroutines, the goroutine that waits
    for them and closes the channel, and the loop that ranges over the
    channel are interleaved by a scheduler: a [Choice] names who takes
    the next atomic step. *)

Inductive Runner :=
| evaluateOneAuthConfig
| evaluateAllAuthConfigs
| evaluateAnyAuthConfig.

Inductive Phase := IdentityPhase | MetadataPhase | AuthorizationPhase.

Global Instance Phase_eq_dec : EqDecision Phase.
Proof. solve_decision. Defined.

Definition runner (ph : Phase) : Runner :=
  match ph with
  | IdentityPhase => evaluateOneAuthConfig
  | MetadataPhase => evaluateAnyAuthConfig
  | AuthorizationPhase => evaluateAllAuthConfigs
  end.

Definition configs (ph : Phase) (api : APIConfig) : list AuthConfigEvaluator :=
  match ph with
  | IdentityPhase => IdentityConfigs api
  | MetadataPhase => MetadataConfigs api
  | AuthorizationPhase => AuthorizationConfigs api
  end.

(** Where a goroutine of the [for] loop stands (lines 104-112, 133-140
    and 161-167, with [evaluateAuthConfig], lines 73-87): before the
    [select], in its default branch before [config.Call], after the call
    with its two results, after [evaluateAuthConfig] has returned [err]
    and the response (if any) is sent, and after [waitGroup.Done]. *)

Inductive Goroutine (Obj : Type) :=
| AtSelect
| AtCall
| AtSend (authObj : interface Obj) (err : error)
| AtCancel (err : error)
| Exited.

Arguments AtSelect {Obj}.
Arguments AtCall {Obj}.
Arguments AtSend {Obj} _ _.
Arguments AtCancel {Obj} _.
Arguments Exited {Obj}.

(** The lines written to [authCtxLog], most recent first. *)

Inductive LogEntry (Obj : Type) :=
| LogContextAborted (config : AuthConfigEvaluator)
| LogFailedToEvaluate (config : AuthConfigEvaluator) (err : error)
| LogObject (ph : Phase) (conf : option positive) (authObj : interface Obj)
| LogError (ph : Phase) (conf : option positive) (err : error).

Arguments LogContextAborted {Obj} _.
Arguments LogFailedToEvaluate {Obj} _ _.
Arguments LogObject {Obj} _ _ _.
Arguments LogError {Obj} _ _ _.

(** [cancel()] is called after a nil result in [evaluateOneAuthConfig]
    (line 110), after a failure in [evaluateAllAuthConfigs] (line 138),
    never in [evaluateAnyAuthConfig]. *)

Definition cancels (r : Runner) (err : error) : bool :=
  match r, err with
  | evaluateOneAuthConfig, None => true
  | evaluateAllAuthConfigs, Some _ => true
  | _, _ => false
  end.

(** One atomic step of the goroutine of evaluator [config]: the next
    place, the responses sent on the channel, whether [cancel()] is
    called, and the lines logged. *)

Definition goroutine_step {Obj} `{!Evaluators Obj} (r : Runner)
    (authContext : AuthContext Obj) (done : bool)
    (config : AuthConfigEvaluator) (g : Goroutine Obj)
  : option (Goroutine Obj * list (EvaluationResponse Obj) * bool
            * list (LogEntry Obj)) :=
  match g with
  | AtSelect =>
      if done
      then Some (AtCancel None, [], false, [LogContextAborted config])
      else Some (AtCall, [], false, [])
  | AtCall =>
      let '(authObj, err) := Call config authContext in
      Some (AtSend authObj err, [], false,
            match err with
            | Some _ => [LogFailedToEvaluate config err]
            | None => []
            end)
  | AtSend authObj err =>
      match err with
      | None =>
          Some (AtCancel None, [newEvaluationResponseSuccess config authObj],
                false, [])
      | Some _ =>
          Some (AtCancel err, [newEvaluationResponseFailure config err],
                false, [])
      end
  | AtCancel err => Some (Exited, [], cancels r err, [])
  | Exited => None
  end.

Definition is_Exited {Obj} (g : Goroutine Obj) : bool :=
  match g with Exited => true | _ => false end.

(** ** The pipeline, lines 173-265 *)

(** The three [return] statements of [Evaluate]: the identity error of
    line 253, the authorization error of line 261, [nil] of line 264. *)

Inductive EvaluateReturn :=
| ReturnIdentityError (err : GoError)
| ReturnAuthorizationError (err : GoError)
| ReturnNil.

Inductive Control := Running (ph : Phase) | Returned (r : EvaluateReturn).

Record State (Obj : Type) := {
  authContext : AuthContext Obj;
  control : Control;
  goroutines : list (AuthConfigEvaluator * Goroutine Obj);
  ctxDone : bool;
  respChannel : list (EvaluationResponse Obj);
  closed : bool;
  lastError : error;
  authCtxLog : list (LogEntry Obj)
}.

Arguments authContext {Obj} _.
Arguments control {Obj} _.
Arguments goroutines {Obj} _.
Arguments ctxDone {Obj} _.
Arguments respChannel {Obj} _.
Arguments closed {Obj} _.
Arguments lastError {Obj} _.
Arguments authCtxLog {Obj} _.

(** Entering a phase: a fresh channel and derived context, one goroutine
    spawned per evaluator.  Goroutines of an earlier phase that are still
    running when its loop returns are dropped, with what they would still
    log: their channel is buffered for all of them and is never read
    again. *)

Definition enter {Obj} (ph : Phase) (ac : AuthContext Obj)
    (log : list (LogEntry Obj)) : State Obj :=
  {| authContext := ac;
     control := Running ph;
     goroutines := (λ config, (config, AtSelect)) <$> configs ph (API ac);
     ctxDone := false;
     respChannel := [];
     closed := false;
     lastError := None;
     authCtxLog := log |}.

Definition finish {Obj} (r : EvaluateReturn) (ac : AuthContext Obj)
    (log : list (LogEntry Obj)) : State Obj :=
  {| authContext := ac;
     control := Returned r;
     goroutines := [];
     ctxDone := false;
     respChannel := [];
     closed := true;
     lastError := None;
     authCtxLog := log |}.

(** [Evaluate] after [evaluateIdentityConfigs] has returned [err], and
    after [evaluateAuthorizationConfigs] has. *)

Definition Evaluate_identity_returned {Obj} (err : error)
    (ac : AuthContext Obj) (log : list (LogEntry Obj)) : State Obj :=
  match err with
  | Some e => finish (ReturnIdentityError e) ac log
  | None => enter MetadataPhase ac log
  end.

Definition Evaluate_authorization_returned {Obj} (err : error)
    (ac : AuthContext Obj) (log : list (LogEntry Obj)) : State Obj :=
  match err with
  | Some e => finish (ReturnAuthorizationError e) ac log
  | None => finish ReturnNil ac log
  end.

Definition set_Identity {Obj} (ac : AuthContext Obj)
    (m : gmap (option positive) (interface Obj)) : AuthContext Obj :=
  {| ParentContext := ParentContext ac; Request := Request ac; API := API ac;
     Identity := m; Metadata := Metadata ac;
     Authorization := Authorization ac |}.

Definition set_Metadata {Obj} (ac : AuthContext Obj)
    (m : gmap (option positive) (interface Obj)) : AuthContext Obj :=
  {| ParentContext := ParentContext ac; Request := Request ac; API := API ac;
     Identity := Identity ac; Metadata := m;
     Authorization := Authorization ac |}.

Definition set_Authorization {Obj} (ac : AuthContext Obj)
    (m : gmap (option positive) (interface Obj)) : AuthContext Obj :=
  {| ParentContext := ParentContext ac; Request := Request ac; API := API ac;
     Identity := Identity ac; Metadata := Metadata ac;
     Authorization := m |}.

Definition set_ParentContext {Obj} (ac : AuthContext Obj) (done : bool)
  : AuthContext Obj :=
  {| ParentContext := done; Request := Request ac; API := API ac;
     Identity := Identity ac; Metadata := Metadata ac;
     Authorization := Authorization ac |}.

(** The loop still ranging: the auth context, the rest of the channel,
    [lastError] and the log after one iteration. *)

Definition continue {Obj} (s : State Obj) (ac : AuthContext Obj)
    (rest : list (EvaluationResponse Obj)) (lastErr : error)
    (log : list (LogEntry Obj)) : State Obj :=
  {| authContext := ac;
     control := control s;
     goroutines := goroutines s;
     ctxDone := ctxDone s;
     respChannel := rest;
     closed := closed s;
     lastError := lastErr;
     authCtxLog := log |}.

(** The three loops over the channel.  Each function is one turn of
    [for resp := range respChannel] on what is received: a response and
    the rest of the channel, or [None] when the channel is closed and
    drained and the loop ends. *)

(** [evaluateIdentityConfigs], lines 173-199. *)
Definition evaluateIdentityConfigs {Obj} (s : State Obj)
    (received : option (EvaluationResponse Obj
                        * list (EvaluationResponse Obj))) : State Obj :=
  let ac := authContext s in
  let log := authCtxLog s in
  match received with
  | Some (resp, rest) =>
      let conf := as_IdentityConfig (Evaluator resp) in
      let obj := Object resp in
      if Success resp
      then Evaluate_identity_returned None
             (set_Identity ac (<[conf := obj]> (Identity ac)))
             (LogObject IdentityPhase conf obj :: log)
      else continue s ac rest (Error resp)
             (LogError IdentityPhase conf (Error resp) :: log)
  | None => Evaluate_identity_returned (lastError s) ac log
  end.

(** [evaluateMetadataConfigs], lines 201-221; [Evaluate] goes on to the
    authorization phase when it returns. *)
Definition evaluateMetadataConfigs {Obj} (s : State Obj)
    (received : option (EvaluationResponse Obj
                        * list (EvaluationResponse Obj))) : State Obj :=
  let ac := authContext s in
  let log := authCtxLog s in
  match received with
  | Some (resp, rest) =>
      let conf := as_MetadataConfig (Evaluator resp) in
      let obj := Object resp in
      if Success resp
      then continue s (set_Metadata ac (<[conf := obj]> (Metadata ac))) rest
             (lastError s) (LogObject MetadataPhase conf obj :: log)
      else continue s ac rest (lastError s)
             (LogError MetadataPhase conf (Error resp) :: log)
  | None => enter AuthorizationPhase ac log
  end.

(** [evaluateAuthorizationConfigs], lines 223-247. *)
Definition evaluateAuthorizationConfigs {Obj} (s : State Obj)
    (received : option (EvaluationResponse Obj
                        * list (EvaluationResponse Obj))) : State Obj :=
  let ac := authContext s in
  let log := authCtxLog s in
  match received with
  | Some (resp, rest) =>
      let conf := as_AuthorizationConfig (Evaluator resp) in
      let obj := Object resp in
      if Success resp
      then continue s
             (set_Authorization ac (<[conf := obj]> (Authorization ac))) rest
             (lastError s) (LogObject AuthorizationPhase conf obj :: log)
      else Evaluate_authorization_returned (Error resp) ac
             (LogError AuthorizationPhase conf (Error resp) :: log)
  | None => Evaluate_authorization_returned None ac log
  end.

Arguments evaluateIdentityConfigs {Obj} s !received /.
Arguments evaluateMetadataConfigs {Obj} s !received /.
Arguments evaluateAuthorizationConfigs {Obj} s !received /.

(** The loop of the phase [ph] on a response, and at the end of the
    channel. *)

Definition range_body {Obj} (ph : Phase) (s : State Obj)
    (resp : EvaluationResponse Obj) (rest : list (EvaluationResponse Obj))
  : State Obj :=
  match ph with
  | IdentityPhase => evaluateIdentityConfigs s (Some (resp, rest))
  | MetadataPhase => evaluateMetadataConfigs s (Some (resp, rest))
  | AuthorizationPhase => evaluateAuthorizationConfigs s (Some (resp, rest))
  end.

Definition range_end {Obj} (ph : Phase) (s : State Obj) : State Obj :=
  match ph with
  | IdentityPhase => evaluateIdentityConfigs s None
  | MetadataPhase => evaluateMetadataConfigs s None
  | AuthorizationPhase => evaluateAuthorizationConfigs s None
  end.

Inductive Choice :=
| Go (i : nat)      (* the goroutine of the i-th evaluator *)
| Close             (* waitGroup.Wait() returns, close(respChannel) *)
| Receive           (* the range loop *)
| CancelParent.     (* the caller cancels the parent context *)

(** The state after the [i]-th goroutine has taken the step [r]. *)

Definition after_goroutine {Obj} (s : State Obj) (i : nat)
    (config : AuthConfigEvaluator)
    (r : Goroutine Obj * list (EvaluationResponse Obj) * bool
         * list (LogEntry Obj)) : State Obj :=
  let '(g', sent, cancel, logged) := r in
  {| authContext := authContext s;
     control := control s;
     goroutines := <[i := (config, g')]> (goroutines s);
     ctxDone := ctxDone s || cancel;
     respChannel := respChannel s ++ sent;
     closed := closed s;
     lastError := lastError s;
     authCtxLog := logged ++ authCtxLog s |}.

Definition close_channel {Obj} (s : State Obj) : State Obj :=
  {| authContext := authContext s;
     control := control s;
     goroutines := goroutines s;
     ctxDone := ctxDone s;
     respChannel := respChannel s;
     closed := true;
     lastError := lastError s;
     authCtxLog := authCtxLog s |}.

Definition cancel_parent {Obj} (s : State Obj) : State Obj :=
  {| authContext := set_ParentContext (authContext s) true;
     control := control s;
     goroutines := goroutines s;
     ctxDone := ctxDone s;
     respChannel := respChannel s;
     closed := closed s;
     lastError := lastError s;
     authCtxLog := authCtxLog s |}.

Definition sched_step {Obj} `{!Evaluators Obj} (c : Choice) (s : State Obj)
  : option (State Obj) :=
  match control s with
  | Returned _ => None
  | Running ph =>
      match c with
      | Go i =>
          match goroutines s !! i with
          | Some (config, g) =>
              match goroutine_step (runner ph) (authContext s) (ctxDone s)
                      config g with
              | Some r => Some (after_goroutine s i config r)
              | None => None
              end
          | None => None
          end
      | Close =>
          if negb (closed s) && forallb (λ cg, is_Exited cg.2) (goroutines s)
          then Some (close_channel s)
          else None
      | Receive =>
          match respChannel s with
          | resp :: rest => Some (range_body ph s resp rest)
          | [] => if closed s then Some (range_end ph s) else None
          end
      | CancelParent =>
          if ParentContext (authContext s) then None
          else Some (cancel_parent s)
      end
  end.

Fixpoint run {Obj} `{!Evaluators Obj} (schedule : list Choice) (s : State Obj)
  : option (State Obj) :=
  match schedule with
  | [] => Some s
  | c :: schedule' =>
      match sched_step c s with
      | Some s' => run schedule' s'
      | None => None
      end
  end.

Definition step {Obj} `{!Evaluators Obj} (s s' : State Obj) : Prop :=
  ∃ c, sched_step c s = Some s'.

(** [Evaluate] starts in the identity phase with an empty log; it relates
    the auth context it is called on to what it returns, to the auth
    context it leaves and to the lines logged, for some interleaving. *)

Definition start {Obj} (ac : AuthContext Obj) : State Obj :=
  enter IdentityPhase ac [].

Definition Evaluate {Obj} `{!Evaluators Obj} (ac : AuthContext Obj)
    (r : EvaluateReturn) (ac' : AuthContext Obj) (log : list (LogEntry Obj))
  : Prop :=
  ∃ s, rtc step (start ac) s ∧ control s = Returned r
       ∧ authContext s = ac' ∧ authCtxLog s = log.

(** What the loops of the three phases have logged: the objects recorded
    by the loop of [ph], most recent first, and all the lines of that
    loop. *)

Fixpoint logged_objects {Obj} (ph : Phase) (log : list (LogEntry Obj))
  : list (option positive * interface Obj) :=
  match log with
  | [] => []
  | LogObject ph' conf obj :: log' =>
      if decide (ph' = ph)
      then (conf, obj) :: logged_objects ph log'
      else logged_objects ph log'
  | _ :: log' => logged_objects ph log'
  end.

Definition observed_by {Obj} (ph : Phase) (entry : LogEntry Obj) : bool :=
  match entry with
  | LogObject ph' _ _ | LogError ph' _ _ => bool_decide (ph' = ph)
  | _ => false
  end.

Definition observations {Obj} (ph : Phase) (log : list (LogEntry Obj))
  : list (LogEntry Obj) :=
  filter (λ entry, observed_by ph entry = true) log.

(** The auth contexts of one request: the same inbound request and API
    configuration, whatever the result maps and the parent context. *)

Definition same_request {Obj} (ac0 ac : AuthContext Obj) : Prop :=
  Request ac = Request ac0 ∧ API ac = API ac0.

(** An evaluator succeeds, or fails, on the request of [ac0]: whenever it
    is called on an auth context of that request. *)

Definition succeeds {Obj} `{!Evaluators Obj} (ac0 : AuthContext Obj)
    (config : AuthConfigEvaluator) : Prop :=
  ∀ ac, same_request ac0 ac → (Call config ac).2 = None.

Definition fails {Obj} `{!Evaluators Obj} (ac0 : AuthContext Obj)
    (config : AuthConfigEvaluator) : Prop :=
  ∀ ac, same_request ac0 ac → (Call config ac).2 ≠ None.

(** ** Scenario evaluators

    Evaluators that answer at once, whatever the auth context: those at
    an address below 10 succeed with an object, the others fail. *)

Definition address (config : AuthConfigEvaluator) : positive :=
  match config with
  | IdentityConfig p | MetadataConfig p | AuthorizationConfig p => p
  end.

Definition scenario_Call (config : AuthConfigEvaluator)
    (ac : AuthContext string) : interface string * error :=
  if (address config <? 10)%positive
  then (Some "obj", None)
  else (None, Some (Errorf "denied")).

Definition scenario : Evaluators string :=
  {| Call := scenario_Call; GetType := λ _, "userinfo" |}.

Definition scenario_request : option CheckRequest :=
  request_authorization "Bearer abc".

Definition scenario_context (identity metadata authorization : list positive)
  : AuthContext string :=
  NewAuthContext false scenario_request
    {| IdentityConfigs := IdentityConfig <$> identity;
       MetadataConfigs := MetadataConfig <$> metadata;
       AuthorizationConfigs := AuthorizationConfig <$> authorization |}.

(** A goroutine run from its [select] to its exit takes four steps. *)
Definition whole (i : nat) : list Choice := [Go i; Go i; Go i; Go i].

(** ** Termination measure

    The atomic steps a goroutine still has to take, weighted so that
    sending a response pays for its reception, and the steps the whole
    pipeline still has to take. *)

Definition weight {Obj} (g : Goroutine Obj) : nat :=
  match g with
  | AtSelect => 5
  | AtCall => 4
  | AtSend _ _ => 3
  | AtCancel _ => 1
  | Exited => 0
  end.

Definition weights {Obj} (gs : list (AuthConfigEvaluator * Goroutine Obj))
  : nat :=
  sum_list ((λ cg, weight cg.2) <$> gs).

Definition phase_cost (n : nat) : nat := 5 * n + 3.

Definition later_phases (ph : Phase) (api : APIConfig) : nat :=
  match ph with
  | IdentityPhase =>
      phase_cost (List.length (MetadataConfigs api))
      + phase_cost (List.length (AuthorizationConfigs api))
  | MetadataPhase => phase_cost (List.length (AuthorizationConfigs api))
  | AuthorizationPhase => 0
  end.

Definition measure {Obj} (s : State Obj) : nat :=
  match control s with
  | Returned _ => 0
  | Running ph =>
      1 + weights (goroutines s) + List.length (respChannel s)
      + (if closed s then 0 else 1)
      + later_phases ph (API (authContext s))
      + (if ParentContext (authContext s) then 0 else 1)
  end.

(** ** Vocabulary of the statements *)

(** The header of the request of an auth context under the exact key
    [authorization], if the request has its messages, a headers map and
    that key. *)
Definition authorization_header {Obj} (authContext : AuthContext Obj)
  : option string :=
  match AuthorizationToken_http authContext with
  | Some http =>
      match Headers http with
      | Some m => m !! "authorization"
      | None => None
      end
  | None => None
  end.

(** [h] is [pre], then [sep], then [rest], and [sep] occurs nowhere else
    in [h]. *)
Definition only_occurrence (sep pre rest h : string) : Prop :=
  h = pre +:+ sep +:+ rest ∧ ∀ a b, h = a +:+ sep +:+ b → a = pre.

(** The separator of [AuthorizationToken], as characters. *)
Definition bearer : list ascii := list_ascii_of_string "Bearer ".

(** ** Invariants of the machine *)

(** [e] is an error that [Call] returned for one of the evaluators [l],
    on the request of [ac0]. *)
Definition error_of_call {Obj} `{!Evaluators Obj} (ac0 : AuthContext Obj)
    (l : list AuthConfigEvaluator) (e : GoError) : Prop :=
  ∃ config ac authObj,
    config ∈ l ∧ same_request ac0 ac ∧ Call config ac = (authObj, Some e).

(** A response on the channel was sent for one of the evaluators [l], with
    what its [Call] returned. *)
Definition sent_by_call {Obj} `{!Evaluators Obj} (ac0 : AuthContext Obj)
    (l : list AuthConfigEvaluator) (resp : EvaluationResponse Obj) : Prop :=
  Evaluator resp ∈ l
  ∧ ∃ ac,
      same_request ac0 ac
      ∧ if Success resp
        then Call (Evaluator resp) ac = (Object resp, None)
        else ∃ authObj e, Call (Evaluator resp) ac = (authObj, Some e)
                          ∧ Error resp = Some e.

(** A goroutine about to send holds what its [Call] returned. *)
Definition called {Obj} `{!Evaluators Obj} (ac0 : AuthContext Obj)
    (cg : AuthConfigEvaluator * Goroutine Obj) : Prop :=
  match cg.2 with
  | AtSend authObj err =>
      ∃ ac, same_request ac0 ac ∧ Call cg.1 ac = (authObj, err)
  | _ => True
  end.

Definition well_formed {Obj} `{!Evaluators Obj} (ac0 : AuthContext Obj)
    (s : State Obj) : Prop :=
  same_request ac0 (authContext s)
  ∧ match control s with
    | Running ph =>
        (goroutines s).*1 = configs ph (API ac0)
        ∧ (closed s = true → Forall (λ cg, cg.2 = Exited) (goroutines s))
        ∧ Forall (called ac0) (goroutines s)
        ∧ Forall (sent_by_call ac0 (configs ph (API ac0))) (respChannel s)
        ∧ (∀ e, lastError s = Some e →
                error_of_call ac0 (IdentityConfigs (API ac0)) e)
    | Returned (ReturnIdentityError e) =>
        error_of_call ac0 (IdentityConfigs (API ac0)) e
    | Returned (ReturnAuthorizationError e) =>
        error_of_call ac0 (AuthorizationConfigs (API ac0)) e
    | Returned ReturnNil => True
    end.

(** The goroutine has sent its response, or returned without one. *)
Definition past_send {Obj} (g : Goroutine Obj) : Prop :=
  match g with
  | AtCancel _ | Exited => True
  | _ => False
  end.

(** Every identity evaluator fails: while the identity loop ranges,
    nothing is cancelled, only failures travel, and [lastError] is the
    error of the line it logged last. *)
Definition identity_failing {Obj} (ac0 : AuthContext Obj) (s : State Obj)
  : Prop :=
  Identity (authContext s) = Identity ac0
  ∧ Metadata (authContext s) = Metadata ac0
  ∧ Authorization (authContext s) = Authorization ac0
  ∧ match control s with
    | Running IdentityPhase =>
        ctxDone s = false
        ∧ Forall (λ cg, match cg.2 with
                        | AtSend _ err | AtCancel err => err ≠ None
                        | _ => True
                        end) (goroutines s)
        ∧ Forall (λ resp, Success resp = false) (respChannel s)
        ∧ Forall (λ cg, past_send cg.2 →
                        respChannel s ≠ [] ∨ lastError s ≠ None)
            (goroutines s)
        ∧ match observations IdentityPhase (authCtxLog s) with
          | [] => lastError s = None
          | entry :: _ =>
              ∃ conf, entry = LogError IdentityPhase conf (lastError s)
          end
    | Returned (ReturnIdentityError e) =>
        ∃ conf rest,
          observations IdentityPhase (authCtxLog s)
          = LogError IdentityPhase conf (Some e) :: rest
    | _ => False
    end.

Definition is_LogError {Obj} (entry : LogEntry Obj) : Prop :=
  match entry with LogError _ _ _ => True | _ => False end.

(** A success is waiting on the channel. *)
Definition success_sent {Obj} (s : State Obj) : Prop :=
  Exists (λ resp, Success resp = true) (respChannel s).

(** The identity loop has returned on a success: the success it recorded
    is its last observation, after failures only. *)
Definition identity_first_success {Obj} `{!Evaluators Obj}
    (ac0 : AuthContext Obj) (s : State Obj) : Prop :=
  ∃ config obj earlier,
    config ∈ IdentityConfigs (API ac0)
    ∧ (∃ ac, same_request ac0 ac ∧ Call config ac = (obj, None))
    ∧ Identity (authContext s)
      = <[as_IdentityConfig config := obj]> (Identity ac0)
    ∧ observations IdentityPhase (authCtxLog s)
      = LogObject IdentityPhase (as_IdentityConfig config) obj :: earlier
    ∧ Forall is_LogError earlier.

(** Some identity evaluator succeeds: whoever cancels, or passes the
    place where a succeeding evaluator sends, leaves a success on the
    channel. *)
Definition identity_succeeding {Obj} `{!Evaluators Obj}
    (ac0 : AuthContext Obj) (s : State Obj) : Prop :=
  match control s with
  | Running IdentityPhase =>
      Identity (authContext s) = Identity ac0
      ∧ Forall is_LogError (observations IdentityPhase (authCtxLog s))
      ∧ (ctxDone s = true → success_sent s)
      ∧ Forall (λ cg, match cg.2 with
                      | AtCancel None => success_sent s
                      | AtCancel (Some _) | Exited =>
                          succeeds ac0 cg.1 → success_sent s
                      | _ => True
                      end) (goroutines s)
  | Returned (ReturnIdentityError _) => False
  | _ => identity_first_success ac0 s
  end.

(** A failure is waiting on the channel. *)
Definition failure_sent {Obj} (s : State Obj) : Prop :=
  Exists (λ resp, Success resp = false) (respChannel s).

(** The response of [config] is waiting on the channel. *)
Definition waiting {Obj} (config : AuthConfigEvaluator) (s : State Obj)
  : Prop :=
  Exists (λ resp, Evaluator resp = config) (respChannel s).

Definition authorization_keys (api : APIConfig) : gset (option positive) :=
  list_to_set (as_AuthorizationConfig <$> AuthorizationConfigs api).

(** Every authorization evaluator succeeds: nothing is cancelled, only
    successes travel, and each response sent is waiting or recorded. *)
Definition authorization_succeeding {Obj} (ac0 : AuthContext Obj)
    (s : State Obj) : Prop :=
  match control s with
  | Running AuthorizationPhase =>
      ctxDone s = false
      ∧ Forall (λ cg, match cg.2 with
                      | AtSend _ err | AtCancel err => err = None
                      | _ => True
                      end) (goroutines s)
      ∧ Forall (λ resp, Success resp = true) (respChannel s)
      ∧ Forall (λ cg, past_send cg.2 →
                      waiting cg.1 s
                      ∨ as_AuthorizationConfig cg.1
                        ∈ dom (Authorization (authContext s)))
          (goroutines s)
      ∧ dom (Authorization ac0) ⊆ dom (Authorization (authContext s))
      ∧ dom (Authorization (authContext s))
        ⊆ dom (Authorization ac0) ∪ authorization_keys (API ac0)
  | Running _ => Authorization (authContext s) = Authorization ac0
  | Returned ReturnNil =>
      dom (Authorization (authContext s))
      = dom (Authorization ac0) ∪ authorization_keys (API ac0)
  | Returned (ReturnAuthorizationError _) => False
  | Returned (ReturnIdentityError _) => True
  end.

(** Some authorization evaluator fails: whoever cancels, or passes the
    place where a failing evaluator sends, leaves a failure on the
    channel. *)
Definition authorization_failing {Obj} `{!Evaluators Obj}
    (ac0 : AuthContext Obj) (s : State Obj) : Prop :=
  match control s with
  | Running AuthorizationPhase =>
      (ctxDone s = true → failure_sent s)
      ∧ Forall (λ cg, match cg.2 with
                      | AtCancel (Some _) => failure_sent s
                      | AtCancel None | Exited =>
                          fails ac0 cg.1 → failure_sent s
                      | _ => True
                      end) (goroutines s)
  | Returned ReturnNil => False
  | _ => True
  end.

(** The response of [config], a success, is waiting on the channel. *)
Definition success_waiting {Obj} (config : AuthConfigEvaluator)
    (s : State Obj) : Prop :=
  Exists (λ resp, Evaluator resp = config ∧ Success resp = true)
    (respChannel s).

(** The metadata result map holds the entries it had and one for each
    metadata evaluator that succeeds, and no other. *)
Definition metadata_collected {Obj} `{!Evaluators Obj}
    (ac0 : AuthContext Obj) (s : State Obj) : Prop :=
  ∀ k, k ∈ dom (Metadata (authContext s)) ↔
       k ∈ dom (Metadata ac0)
       ∨ ∃ config, config ∈ MetadataConfigs (API ac0)
                   ∧ succeeds ac0 config ∧ as_MetadataConfig config = k.

(** While the metadata loop ranges nothing is cancelled, and the success
    of each succeeding evaluator past its send is waiting or recorded. *)
Definition metadata_collecting {Obj} `{!Evaluators Obj}
    (ac0 : AuthContext Obj) (s : State Obj) : Prop :=
  match control s with
  | Running IdentityPhase => Metadata (authContext s) = Metadata ac0
  | Running MetadataPhase =>
      ctxDone s = false
      ∧ Forall (λ cg, past_send cg.2 → succeeds ac0 cg.1 →
                      success_waiting cg.1 s
                      ∨ as_MetadataConfig cg.1
                        ∈ dom (Metadata (authContext s)))
          (goroutines s)
      ∧ dom (Metadata ac0) ⊆ dom (Metadata (authContext s))
      ∧ ∀ k, k ∈ dom (Metadata (authContext s)) →
             k ∈ dom (Metadata ac0)
             ∨ ∃ config, config ∈ MetadataConfigs (API ac0)
                         ∧ succeeds ac0 config ∧ as_MetadataConfig config = k
  | Returned (ReturnIdentityError _) => True
  | _ => metadata_collected ac0 s
  end.

(** The line the authorization loop logs for an object it records, and
    the map after a list of objects, most recent first, is recorded. *)
Definition recorded {Obj} (kv : option positive * interface Obj)
  : LogEntry Obj :=
  LogObject AuthorizationPhase kv.1 kv.2.

Definition record_all {Obj} (objs : list (option positive * interface Obj))
    (m : gmap (option positive) (interface Obj))
  : gmap (option positive) (interface Obj) :=
  foldr (λ kv m', <[kv.1 := kv.2]> m') m objs.

(** The authorization result map is what the authorization loop logged
    as recorded; when [Evaluate] returns the authorization error, that
    error is the last line of the loop, after successes only. *)
Definition authorization_logged {Obj} (ac0 : AuthContext Obj) (s : State Obj)
  : Prop :=
  match control s with
  | Returned (ReturnAuthorizationError e) =>
      ∃ conf objs,
        observations AuthorizationPhase (authCtxLog s)
        = LogError AuthorizationPhase conf (Some e) :: (recorded <$> objs)
        ∧ Authorization (authContext s) = record_all objs (Authorization ac0)
  | _ =>
      ∃ objs,
        observations AuthorizationPhase (authCtxLog s) = recorded <$> objs
        ∧ Authorization (authContext s) = record_all objs (Authorization ac0)
  end.

(** No identity evaluator is configured: the identity loop finds the
    channel closed and empty, and records nothing. *)
Definition identity_skipped {Obj} (ac0 : AuthContext Obj) (s : State Obj)
  : Prop :=
  Identity (authContext s) = Identity ac0
  ∧ observations IdentityPhase (authCtxLog s) = []
  ∧ match control s with
    | Running IdentityPhase =>
        goroutines s = [] ∧ respChannel s = [] ∧ lastError s = None
    | Returned (ReturnIdentityError _) => False
    | _ => True
    end.

(** The same state under another state of the parent context, and a
    schedule without the cancellations of the parent context. *)
Definition with_parent {Obj} (done : bool) (s : State Obj) : State Obj :=
  {| authContext := set_ParentContext (authContext s) done;
     control := control s;
     goroutines := goroutines s;
     ctxDone := ctxDone s;
     respChannel := respChannel s;
     closed := closed s;
     lastError := lastError s;
     authCtxLog := authCtxLog s |}.

Fixpoint without_CancelParent (schedule : list Choice) : list Choice :=
  match schedule with
  | [] => []
  | CancelParent :: schedule' => without_CancelParent schedule'
  | c :: schedule' => c :: without_CancelParent schedule'
  end.

(** ** Scenarios

    For each scenario its auth context, with a schedule that runs
    [Evaluate] on it to the end.  [drain n] lets the range loop take [n]
    turns. *)

Definition drain (n : nat) : list Choice := replicate n Receive.

(** Identity [E_ok], no metadata, authorization [E_ok; E_ok]. *)
Definition context_allow : AuthContext string :=
  scenario_context [1%positive] [] [2%positive; 3%positive].

Definition schedule_allow : list Choice :=
  whole 0 ++ [Receive] ++ [Close; Receive]
  ++ whole 0 ++ whole 1 ++ [Close] ++ drain 3.

(** No identity evaluator, no metadata, authorization [E_ok]. *)
Definition context_no_identity : AuthContext string :=
  scenario_context [] [] [2%positive].

Definition schedule_no_identity : list Choice :=
  [Close; Receive] ++ [Close; Receive] ++ whole 0 ++ [Close] ++ drain 2.

(** Identity [E_fail; E_ok], no metadata, authorization [E_ok]: the
    failure is received first. *)
Definition context_second_identity : AuthContext string :=
  scenario_context [11%positive; 1%positive] [] [2%positive].

Definition schedule_second_identity : list Choice :=
  whole 0 ++ whole 1 ++ drain 2 ++ [Close; Receive]
  ++ whole 0 ++ [Close] ++ drain 2.

(** Identity [E_ok], metadata [E_ok; E_fail], authorization [E_ok]. *)
Definition context_metadata : AuthContext string :=
  scenario_context [1%positive] [1%positive; 11%positive] [2%positive].

Definition schedule_metadata : list Choice :=
  whole 0 ++ [Receive] ++ whole 1 ++ whole 0 ++ [Close] ++ drain 3
  ++ whole 0 ++ [Close] ++ drain 2.

(** Identity [E_ok], metadata [E_ok; E_ok; E_fail], authorization
    [E_ok]. *)
Definition context_metadata_mix : AuthContext string :=
  scenario_context [1%positive] [1%positive; 2%positive; 11%positive]
    [2%positive].

Definition schedule_metadata_mix : list Choice :=
  whole 0 ++ [Receive] ++ whole 2 ++ whole 0 ++ whole 1 ++ [Close]
  ++ drain 4 ++ whole 0 ++ [Close] ++ drain 2.

(** Identity [E_ok], authorization [E_ok]; the caller cancels the parent
    context while the identity goroutine is inside its call, and the
    run goes on. *)
Definition context_parent : AuthContext string :=
  scenario_context [1%positive] [] [2%positive].

Definition schedule_until_cancel : list Choice := [Go 0; Go 0; CancelParent].

Definition schedule_after_cancel : list Choice :=
  [Go 0; Go 0; Receive] ++ [Close; Receive] ++ whole 0 ++ [Close] ++ drain 2.

Definition schedule_parent_cancelled : list Choice :=
  schedule_until_cancel ++ schedule_after_cancel.

(** Identity [E_fail; E_fail], metadata [E_ok], authorization [E_ok]. *)
Definition context_identity_fails : AuthContext string :=
  scenario_context [11%positive; 12%positive] [1%positive] [2%positive].

Definition schedule_identity_fails : list Choice :=
  whole 0 ++ whole 1 ++ [Close] ++ drain 3.

(** Identity [E_ok], authorization [E_ok; E_ok; E_fail], the two
    successes received before the failure. *)
Definition context_denied_late : AuthContext string :=
  scenario_context [1%positive] [] [1%positive; 2%positive; 11%positive].

Definition schedule_denied_late : list Choice :=
  whole 0 ++ [Receive] ++ [Close; Receive]
  ++ whole 0 ++ whole 1 ++ whole 2 ++ drain 3.

(** Identity [E_ok], authorization [E_fail; E_ok], the failure received
    first. *)
Definition context_denied_first : AuthContext string :=
  scenario_context [1%positive] [] [11%positive; 1%positive].

Definition schedule_denied_first : list Choice :=
  whole 0 ++ [Receive] ++ [Close; Receive] ++ whole 0 ++ drain 1.

(** An auth context in which two metadata evaluators of the same type
    have both recorded their object. *)
Definition view_context : AuthContext string :=
  set_Metadata (scenario_context [1%positive] [1%positive; 2%positive] [])
    (<[Some 2%positive := Some "resource"]>
       (<[Some 1%positive := Some "userinfo"]> ∅)).

(** The responses a goroutine may still send: one until it has sent its
    response or returned without one. *)
Definition sends_left {Obj} (g : Goroutine Obj) : nat :=
  match g with
  | AtSelect | AtCall | AtSend _ _ => 1
  | AtCancel _ | Exited => 0
  end.

Definition unsent {Obj} (gs : list (AuthConfigEvaluator * Goroutine Obj))
  : nat :=
  sum_list ((λ cg, sends_left cg.2) <$> gs).

(** The capacity [len(configs)] that the three loops give their channel
    (lines 175, 203 and 225) covers the responses waiting and those still
    to be sent. *)
Definition within_capacity {Obj} (s : State Obj) : Prop :=
  match control s with
  | Running ph =>
      (List.length (respChannel s) + unsent (goroutines s)
       ≤ List.length (configs ph (API (authContext s))))%nat
  | Returned _ => True
  end.

(** ** What the loops have observed, and of whom *)

(** [Call] returned no error, or an error, for [config] on an auth
    context of the request of [ac0]. *)
Definition passed_call {Obj} `{!Evaluators Obj} (ac0 : AuthContext Obj)
    (config : AuthConfigEvaluator) : Prop :=
  ∃ acx obj, same_request ac0 acx ∧ Call config acx = (obj, None).

Definition failed_call {Obj} `{!Evaluators Obj} (ac0 : AuthContext Obj)
    (config : AuthConfigEvaluator) : Prop :=
  ∃ acx authObj e, same_request ac0 acx ∧ Call config acx = (authObj, Some e).

(** The type assertion that the loop of a phase applies to
    [resp.Evaluator] (lines 185, 211 and 233). *)
Definition phase_key (ph : Phase) : AuthConfigEvaluator → option positive :=
  match ph with
  | IdentityPhase => as_IdentityConfig
  | MetadataPhase => as_MetadataConfig
  | AuthorizationPhase => as_AuthorizationConfig
  end.

(** The [config] value of the lines that the loop of [ph] has logged,
    most recent first. *)
Definition entry_conf {Obj} (entry : LogEntry Obj)
  : option (option positive) :=
  match entry with
  | LogObject _ conf _ | LogError _ conf _ => Some conf
  | _ => None
  end.

Definition observed_keys {Obj} (ph : Phase) (log : list (LogEntry Obj))
  : list (option positive) :=
  omap entry_conf (observations ph log).

Definition is_LogObject {Obj} (entry : LogEntry Obj) : Prop :=
  match entry with LogObject _ _ _ => True | _ => False end.

Global Instance past_send_dec {Obj} (g : Goroutine Obj)
  : Decision (past_send g).
Proof. destruct g; simpl; apply _. Defined.

(** The evaluators whose goroutine has sent its response, or returned
    without one. *)
Definition senders {Obj} (gs : list (AuthConfigEvaluator * Goroutine Obj))
  : list AuthConfigEvaluator :=
  (filter (λ cg, past_send cg.2) gs).*1.

(** While nothing is cancelled, each goroutine past its send has sent
    one response, which is waiting on the channel or was observed. *)
Definition tally {Obj} (ph : Phase) (s : State Obj) : Prop :=
  observed_keys ph (authCtxLog s)
  ++ ((λ resp, phase_key ph (Evaluator resp)) <$> respChannel s)
  ≡ₚ phase_key ph <$> senders (goroutines s).

(** The identity phase in general.  While its loop ranges the result
    maps are empty, and either a success is on the channel or nothing is
    cancelled and only failures have been sent; a returned identity error
    means that every identity evaluator was called and failed; a later
    phase means that there is no identity evaluator or that the success
    of one was recorded. *)
Definition identity_outcome {Obj} `{!Evaluators Obj} (ac0 : AuthContext Obj)
    (s : State Obj) : Prop :=
  match control s with
  | Running IdentityPhase =>
      Identity (authContext s) = ∅
      ∧ Metadata (authContext s) = ∅
      ∧ Authorization (authContext s) = ∅
      ∧ (success_sent s
         ∨ (ctxDone s = false
            ∧ Forall (λ cg, match cg.2 with
                            | AtCancel None => False
                            | AtCancel (Some _) | Exited =>
                                failed_call ac0 cg.1
                            | _ => True
                            end) (goroutines s)
            ∧ Forall (λ resp, Success resp = false) (respChannel s)
            ∧ Forall is_LogError
                (observations IdentityPhase (authCtxLog s))
            ∧ tally IdentityPhase s
            ∧ (lastError s = None →
               observations IdentityPhase (authCtxLog s) = [])))
  | Returned (ReturnIdentityError e) =>
      Identity (authContext s) = ∅
      ∧ Metadata (authContext s) = ∅
      ∧ Authorization (authContext s) = ∅
      ∧ (∀ config, config ∈ IdentityConfigs (API ac0) →
                   failed_call ac0 config)
      ∧ Forall is_LogError (observations IdentityPhase (authCtxLog s))
      ∧ observed_keys IdentityPhase (authCtxLog s)
        ≡ₚ as_IdentityConfig <$> IdentityConfigs (API ac0)
  | _ =>
      (IdentityConfigs (API ac0) = [] ∧ Identity (authContext s) = ∅)
      ∨ ∃ config acx obj,
          config ∈ IdentityConfigs (API ac0)
          ∧ same_request ac0 acx
          ∧ Call config acx = (obj, None)
          ∧ Identity (authContext s) = {[ as_IdentityConfig config := obj ]}
  end.

(** The authorization phase in general.  While its loop ranges, either
    a failure is on the channel or nothing is cancelled and only
    successes have been sent, each recorded when observed; [nil] is
    returned only when every authorization evaluator was called without
    error and its success recorded. *)
Definition authorization_outcome {Obj} `{!Evaluators Obj}
    (ac0 : AuthContext Obj) (s : State Obj) : Prop :=
  match control s with
  | Running AuthorizationPhase =>
      failure_sent s
      ∨ (ctxDone s = false
         ∧ Forall (λ cg, match cg.2 with
                         | AtCancel (Some _) => False
                         | AtCancel None | Exited => passed_call ac0 cg.1
                         | _ => True
                         end) (goroutines s)
         ∧ Forall (λ resp, Success resp = true) (respChannel s)
         ∧ Forall is_LogObject
             (observations AuthorizationPhase (authCtxLog s))
         ∧ tally AuthorizationPhase s
         ∧ dom (Authorization (authContext s))
           = list_to_set (observed_keys AuthorizationPhase (authCtxLog s)))
  | Running _ | Returned (ReturnIdentityError _) =>
      observations AuthorizationPhase (authCtxLog s) = []
      ∧ Authorization (authContext s) = ∅
  | Returned ReturnNil =>
      (∀ config, config ∈ AuthorizationConfigs (API ac0) →
                 passed_call ac0 config)
      ∧ Forall is_LogObject (observations AuthorizationPhase (authCtxLog s))
      ∧ observed_keys AuthorizationPhase (authCtxLog s)
        ≡ₚ as_AuthorizationConfig <$> AuthorizationConfigs (API ac0)
      ∧ dom (Authorization (authContext s)) = authorization_keys (API ac0)
  | Returned (ReturnAuthorizationError _) => True
  end.

(** The metadata phase in general: nothing is ever cancelled in it, and
    when it is over its loop has observed one response for each
    metadata evaluator. *)
Definition metadata_outcome {Obj} (ac0 : AuthContext Obj) (s : State Obj)
  : Prop :=
  match control s with
  | Running IdentityPhase | Returned (ReturnIdentityError _) =>
      observations MetadataPhase (authCtxLog s) = []
  | Running MetadataPhase => ctxDone s = false ∧ tally MetadataPhase s
  | _ =>
      observed_keys MetadataPhase (authCtxLog s)
      ≡ₚ as_MetadataConfig <$> MetadataConfigs (API ac0)
  end.

(** ** The auth context that an evaluator is called on *)

(** [acx] is an auth context of the request as an evaluator of the phase
    [ph] finds it: with the identity result [identity] and, in the
    authorization phase, the metadata results [metadata]; the maps of
    the phases that have not run are empty. *)
Definition in_context {Obj} (ac0 : AuthContext Obj) (ph : Phase)
    (identity metadata : gmap (option positive) (interface Obj))
    (acx : AuthContext Obj) : Prop :=
  same_request ac0 acx
  ∧ Identity acx = identity
  ∧ match ph with
    | IdentityPhase => Metadata acx = ∅ ∧ Authorization acx = ∅
    | MetadataPhase => Authorization acx = ∅
    | AuthorizationPhase => Metadata acx = metadata
    end.

(** Every entry of the result map [m] is the object that [Call]
    returned without error for one of the evaluators [l], under its
    key, on an auth context that satisfies [P]. *)
Definition from_call {Obj} `{!Evaluators Obj} (l : list AuthConfigEvaluator)
    (key : AuthConfigEvaluator → option positive)
    (P : AuthContext Obj → Prop)
    (m : gmap (option positive) (interface Obj)) : Prop :=
  ∀ k obj, m !! k = Some obj →
    ∃ config acx, config ∈ l ∧ key config = k ∧ P acx
                  ∧ Call config acx = (obj, None).

(** The response holds what [Call] returned on an auth context that
    satisfies [P]. *)
Definition answer_of_call {Obj} `{!Evaluators Obj}
    (P : AuthContext Obj → Prop) (resp : EvaluationResponse Obj) : Prop :=
  ∃ acx authObj,
    P acx ∧ Call (Evaluator resp) acx = (authObj, Error resp)
    ∧ (Success resp = true → authObj = Object resp ∧ Error resp = None).

(** Every call is made on the auth context of its phase, and the three
    result maps hold what such calls returned. *)
Definition results_in_context {Obj} `{!Evaluators Obj}
    (ac0 : AuthContext Obj) (s : State Obj) : Prop :=
  let cur := authContext s in
  from_call (IdentityConfigs (API ac0)) as_IdentityConfig
    (in_context ac0 IdentityPhase ∅ ∅) (Identity cur)
  ∧ from_call (MetadataConfigs (API ac0)) as_MetadataConfig
      (in_context ac0 MetadataPhase (Identity cur) ∅) (Metadata cur)
  ∧ from_call (AuthorizationConfigs (API ac0)) as_AuthorizationConfig
      (in_context ac0 AuthorizationPhase (Identity cur) (Metadata cur))
      (Authorization cur)
  ∧ match control s with
    | Running ph =>
        match ph with
        | IdentityPhase =>
            Identity cur = ∅ ∧ Metadata cur = ∅ ∧ Authorization cur = ∅
        | MetadataPhase => Authorization cur = ∅
        | AuthorizationPhase => True
        end
        ∧ Forall (λ cg, match cg.2 with
                        | AtSend authObj err =>
                            ∃ acx,
                              in_context ac0 ph (Identity cur) (Metadata cur)
                                acx
                              ∧ Call cg.1 acx = (authObj, err)
                        | _ => True
                        end) (goroutines s)
        ∧ Forall (answer_of_call
                    (in_context ac0 ph (Identity cur) (Metadata cur)))
            (respChannel s)
    | Returned (ReturnAuthorizationError e) =>
        ∃ config acx authObj,
          config ∈ AuthorizationConfigs (API ac0)
          ∧ in_context ac0 AuthorizationPhase (Identity cur) (Metadata cur)
              acx
          ∧ Call config acx = (authObj, Some e)
    | Returned _ => True
    end.

(** ** The accessors, lines 267-288

    [GetParentContext], [GetRequest] and [GetAPI] return a field.
    [GetIdentity] ranges over the identity result map, in an unspecified
    order, up to the first value that is not nil: [GetIdentity_range] is
    the loop over the entries in one order, [GetIdentity] relates the
    auth context to what the loop returns for any order. *)

Definition GetParentContext {Obj} (authContext : AuthContext Obj) : bool :=
  ParentContext authContext.

Definition GetRequest {Obj} (authContext : AuthContext Obj)
  : option CheckRequest :=
  Request authContext.

Definition GetAPI {Obj} (authContext : AuthContext Obj) : APIConfig :=
  API authContext.

Fixpoint GetIdentity_range {Obj}
    (entries : list (option positive * interface Obj)) : interface Obj :=
  match entries with
  | [] => None
  | (_, v) :: entries' =>
      match v with
      | Some _ => v
      | None => GetIdentity_range entries'
      end
  end.

Definition GetIdentity {Obj} (authContext : AuthContext Obj)
    (id : interface Obj) : Prop :=
  ∃ entries, entries ≡ₚ map_to_list (Identity authContext)
             ∧ id = GetIdentity_range entries.

(** Evaluators as in [scenario], with a type tag of its own for the
    metadata evaluator at address 1. *)
Definition scenario_typed : Evaluators string :=
  {| Call := scenario_Call;
     GetType := λ conf, match conf with
                        | Some 1%positive => "userinfo"
                        | _ => "resource"
                        end |}.

(** An auth context whose identity result map holds a nil value and one
    that is not nil. *)
Definition identity_context : AuthContext string :=
  set_Identity (scenario_context [1%positive; 2%positive] [] [])
    (<[Some 2%positive := None]>
       (<[Some 1%positive := Some "alice"]> ∅)).

(** Both identity evaluators of [context_identity_fails] have run, and
    the channel is closed. *)
Definition schedule_closed : list Choice := whole 0 ++ whole 1 ++ [Close].

(** ** Calls that do not return

    [config.Call] may block for ever; nothing in the file bounds it, as
    the contexts of the runners derive from [context.Background()].
    [returning config ac] tells whether the call of [config] on the auth
    context [ac] returns.  A goroutine whose call does not return stays
    in it: [sched_step_if returning] is [sched_step] without the step of
    such a call, and [run_if] and [step_if] are the runs and the steps
    that it gives. *)

Definition sched_step_if {Obj} `{!Evaluators Obj}
    (returning : AuthConfigEvaluator → AuthContext Obj → bool)
    (c : Choice) (s : State Obj) : option (State Obj) :=
  match c with
  | Go i =>
      match goroutines s !! i with
      | Some (config, AtCall) =>
          if returning config (authContext s) then sched_step c s else None
      | _ => sched_step c s
      end
  | _ => sched_step c s
  end.

Fixpoint run_if {Obj} `{!Evaluators Obj}
    (returning : AuthConfigEvaluator → AuthContext Obj → bool)
    (schedule : list Choice) (s : State Obj) : option (State Obj) :=
  match schedule with
  | [] => Some s
  | c :: schedule' =>
      match sched_step_if returning c s with
      | Some s' => run_if returning schedule' s'
      | None => None
      end
  end.

Definition step_if {Obj} `{!Evaluators Obj}
    (returning : AuthConfigEvaluator → AuthContext Obj → bool)
    (s s' : State Obj) : Prop :=
  ∃ c, sched_step_if returning c s = Some s'.

(** The call of the metadata evaluator [config] has not returned: the
    pipeline is in the identity phase, or has returned from it with the
    identity error, or is in the metadata phase with the goroutine of
    [config] before the end of its call and the channel open. *)
Definition waiting_for {Obj} (config : AuthConfigEvaluator) (s : State Obj)
  : Prop :=
  match control s with
  | Running IdentityPhase => True
  | Running MetadataPhase =>
      closed s = false
      ∧ ctxDone s = false
      ∧ ∃ i g, goroutines s !! i = Some (config, g)
               ∧ (g = AtSelect ∨ g = AtCall)
  | Returned (ReturnIdentityError _) => True
  | _ => False
  end.

(** Every call returns; every call but those of [config] returns. *)
Definition returning_all {Obj} (config : AuthConfigEvaluator)
    (ac : AuthContext Obj) : bool := true.

Definition returning_but {Obj} (config0 config : AuthConfigEvaluator)
    (ac : AuthContext Obj) : bool :=
  negb (bool_decide (config = config0)).

(** In [context_metadata], the identity phase and the first metadata
    evaluator are through, and the second metadata evaluator is in its
    call. *)
Definition schedule_stalled : list Choice :=
  whole 0 ++ [Receive] ++ whole 0 ++ [Go 1; Receive].

(** * Properties *)

(** The token extractions listed with the specification, and two more. *)

Example token_abc :
  AuthorizationToken (context_of (request_authorization "Bearer abc"))
  = Some ("abc", None).
Proof. vm_compute. reflexivity. Qed.

Example token_lower :
  AuthorizationToken (context_of (request_authorization "bearer abc"))
  = Some ("", Some malformed).
Proof. vm_compute. reflexivity. Qed.

Example token_twice :
  AuthorizationToken (context_of (request_authorization "Bearer aBearer b"))
  = Some ("", Some malformed).
Proof. vm_compute. reflexivity. Qed.

Example token_absent :
  AuthorizationToken (context_of (request_with None))
  = Some ("", Some malformed).
Proof. vm_compute. reflexivity. Qed.

Example token_no_header :
  AuthorizationToken (context_of (request_with (Some ∅)))
  = Some ("", Some malformed).
Proof. vm_compute. reflexivity. Qed.

(** ** [strings.Split] *)

Section Split.

Local Open Scope nat_scope.
Local Open Scope list_scope.

Implicit Types s sep a b : list ascii.

Lemma HasPrefix_spec s sep : HasPrefix s sep = true ↔ ∃ b, s = sep ++ b.
Proof.
  revert s. induction sep as [|p sep IH]; intros s; simpl.
  - split; [eauto|done].
  - destruct s as [|c s].
    + split; [done|]. by intros [b Hb].
    + rewrite andb_true_iff, bool_decide_eq_true, IH. split.
      * intros [-> [b ->]]. eauto.
      * intros [b Hb]. simplify_eq. eauto.
Qed.

Lemma Split_scan_skip sep x b :
  Split_scan sep (List.length x) (x ++ b) = Split_scan sep 0 b.
Proof. induction x as [|c x IH]; simpl; [by destruct b|done]. Qed.

Lemma Split_scan_cons sep s : ∃ part parts, Split_scan sep 0 s = part :: parts.
Proof.
  induction s as [|c s (part & parts & IH)]; simpl; [eauto|].
  destruct (HasPrefix (c :: s) sep); [eauto|]. rewrite IH. eauto.
Qed.

(** No occurrence of the separator: a single part. *)
Lemma Split_scan_none sep s :
  sep ≠ [] → (∀ a b, s ≠ a ++ sep ++ b) → Split_scan sep 0 s = [s].
Proof.
  intros Hsep. induction s as [|c s IH]; intros Hno; simpl; [done|].
  destruct (HasPrefix (c :: s) sep) eqn:Hp.
  - apply HasPrefix_spec in Hp as [b Hb]. by destruct (Hno [] b).
  - rewrite IH; [done|]. intros a b ->. by destruct (Hno (c :: a) b).
Qed.

(** The leftmost occurrence ends the first part. *)
Lemma Split_scan_leftmost sep a b :
  sep ≠ [] →
  (∀ a1 b1, a ++ sep ++ b = a1 ++ sep ++ b1 → List.length a ≤ List.length a1) →
  Split_scan sep 0 (a ++ sep ++ b) = a :: Split_scan sep 0 b.
Proof.
  intros Hsep. induction a as [|c a IH]; intros Hleft.
  - destruct sep as [|p sep]; [done|]. simpl.
    assert (HasPrefix (p :: sep ++ b) (p :: sep) = true) as Hp
      by (apply HasPrefix_spec; eauto).
    simpl in Hp. rewrite Hp, Nat.sub_0_r. f_equal. apply Split_scan_skip.
  - simpl. destruct (HasPrefix (c :: a ++ sep ++ b) sep) eqn:Hp.
    + apply HasPrefix_spec in Hp as [b1 Hb1].
      specialize (Hleft [] b1 Hb1). simpl in Hleft. lia.
    + rewrite IH; [done|]. intros a1 b1 Heq.
      specialize (Hleft (c :: a1) b1). simpl in Hleft.
      rewrite Heq in Hleft. specialize (Hleft eq_refl). lia.
Qed.

(** Any string either has no occurrence of the separator or has a
    leftmost one. *)
Lemma leftmost_occurrence sep s :
  (∀ a b, s ≠ a ++ sep ++ b)
  ∨ ∃ a b, s = a ++ sep ++ b
           ∧ ∀ a1 b1, s = a1 ++ sep ++ b1 → List.length a ≤ List.length a1.
Proof.
  induction s as [|c s IH].
  - destruct sep as [|p sep].
    + right. exists [], []. split; [done|]. intros; simpl; lia.
    + left. intros a b Heq. destruct a; simpl in Heq; discriminate Heq.
  - destruct (HasPrefix (c :: s) sep) eqn:Hp.
    + apply HasPrefix_spec in Hp as [b Hb]. right. exists [], b.
      split; [done|]. intros; simpl; lia.
    + destruct IH as [Hno|(a & b & -> & Hleft)].
      * left. intros [|c' a] b Heq.
        -- assert (HasPrefix (c :: s) sep = true) as Hp'
             by (apply HasPrefix_spec; eauto).
           congruence.
        -- simplify_eq/=. by destruct (Hno a b).
      * right. exists (c :: a), b. split; [done|].
        intros [|c' a1] b1 Heq.
        -- assert (HasPrefix (c :: a ++ sep ++ b) sep = true) as Hp'
             by (apply HasPrefix_spec; eauto).
           congruence.
        -- simplify_eq/=. apply le_n_S, (Hleft a1 b1). done.
Qed.

(** Exactly two parts: the separator occurs, leftmost after [a], and not
    again in the rest [b]. *)
Lemma Split_scan_two sep s a b :
  sep ≠ [] →
  Split_scan sep 0 s = [a; b] ↔
    s = a ++ sep ++ b
    ∧ (∀ a1 b1, s = a1 ++ sep ++ b1 → List.length a ≤ List.length a1)
    ∧ (∀ a1 b1, b ≠ a1 ++ sep ++ b1).
Proof.
  intros Hsep. split.
  - intros Hsplit.
    destruct (leftmost_occurrence sep s) as [Hno|(a' & b' & -> & Hleft)].
    + rewrite Split_scan_none in Hsplit by done. done.
    + rewrite Split_scan_leftmost in Hsplit by done.
      destruct (leftmost_occurrence sep b') as [Hno|(a2 & b2 & -> & Hleft2)].
      * rewrite Split_scan_none in Hsplit by done. by simplify_eq.
      * rewrite Split_scan_leftmost in Hsplit by done.
        destruct (Split_scan_cons sep b2) as (? & ? & Hc).
        rewrite Hc in Hsplit. done.
  - intros (-> & Hleft & Hno).
    rewrite Split_scan_leftmost by done. by rewrite Split_scan_none.
Qed.

(** [Bearer ] cannot overlap itself, so two parts mean a single
    occurrence. *)
Lemma Bearer_no_overlap k k' b rest :
  bearer = k ++ k' → bearer ++ b = k' ++ rest → k = [] ∨ k' = [].
Proof.
  intros Hk Hk'. unfold bearer in *. simpl in *.
  destruct k as [|c k]; [by left|]. right. simplify_eq/=.
  do 6 (destruct k as [|? k]; simplify_eq/=).
  destruct k; by simplify_eq/=.
Qed.

Lemma Split_scan_Bearer s a b :
  Split_scan bearer 0 s = [a; b] ↔
  s = a ++ bearer ++ b ∧ ∀ a1 b1, s = a1 ++ bearer ++ b1 → a1 = a.
Proof.
  rewrite Split_scan_two by done. split.
  - intros (-> & Hleft & Hno). split; [done|]. intros a1 b1 Hab.
    pose proof (Hleft _ _ Hab) as Hle.
    apply app_eq_inv in Hab as [(k & -> & Hk')|(k & -> & Hk')].
    + rewrite length_app in Hle. destruct k; simpl in Hle; [|lia].
      by rewrite app_nil_r.
    + apply app_eq_inv in Hk' as [(k' & Hk & Hk')|(k' & -> & ->)].
      * destruct (Bearer_no_overlap _ _ _ _ Hk Hk') as [->| ->].
        -- by rewrite app_nil_r.
        -- simpl in Hk'. by destruct (Hno [] b1).
      * by destruct (Hno k' b1).
  - intros (-> & Huniq). split; [done|]. split.
    + intros a1 b1 Hab. by rewrite (Huniq _ _ Hab).
    + intros a1 b1 ->.
      specialize (Huniq (a ++ bearer ++ a1) b1).
      rewrite <-!app_assoc in Huniq. specialize (Huniq eq_refl).
      apply (f_equal List.length) in Huniq.
      rewrite !length_app in Huniq. simpl in Huniq. lia.
Qed.

End Split.

(** ** The bearer token *)

Section Strings.

Lemma list_ascii_of_string_app (a b : string) :
  list_ascii_of_string (a +:+ b)
  = (list_ascii_of_string a ++ list_ascii_of_string b)%list.
Proof. induction a as [|c a IH]; simpl; [done|]. by rewrite IH. Qed.

Lemma list_ascii_of_string_inj (a b : string) :
  list_ascii_of_string a = list_ascii_of_string b → a = b.
Proof.
  intros Heq. rewrite <-(string_of_list_ascii_of_string a),
    <-(string_of_list_ascii_of_string b). by rewrite Heq.
Qed.

Lemma Split_two (h sep pre rest : string) :
  Split h sep = [pre; rest] ↔
  Split_scan (list_ascii_of_string sep) 0 (list_ascii_of_string h)
  = [list_ascii_of_string pre; list_ascii_of_string rest].
Proof.
  unfold Split. split.
  - intros Hs.
    destruct (Split_scan _ _ _) as [|p1 [|p2 [|p3 ps]]]; simplify_eq/=.
    by rewrite !list_ascii_of_string_of_list_ascii.
  - intros ->. simpl. by rewrite !string_of_list_ascii_of_string.
Qed.

Lemma Split_Bearer (h pre rest : string) :
  Split h "Bearer " = [pre; rest] ↔ only_occurrence "Bearer " pre rest h.
Proof.
  rewrite Split_two. change (list_ascii_of_string "Bearer ") with bearer.
  rewrite Split_scan_Bearer. unfold only_occurrence. split.
  - intros [Hh Huniq]. split.
    + apply list_ascii_of_string_inj. by rewrite !list_ascii_of_string_app.
    + intros a b ->. apply list_ascii_of_string_inj.
      apply (Huniq _ (list_ascii_of_string b)).
      by rewrite !list_ascii_of_string_app.
  - intros [-> Huniq]. split.
    + by rewrite !list_ascii_of_string_app.
    + intros a1 b1 Hab.
      rewrite <-(Huniq (string_of_list_ascii a1) (string_of_list_ascii b1)).
      * by rewrite list_ascii_of_string_of_list_ascii.
      * apply list_ascii_of_string_inj.
        by rewrite Hab, !list_ascii_of_string_app,
          !list_ascii_of_string_of_list_ascii.
Qed.

Lemma AuthorizationToken_Split {Obj} (authContext : AuthContext Obj) token :
  AuthorizationToken authContext = Some (token, None) ↔
  ∃ h pre, authorization_header authContext = Some h
           ∧ Split h "Bearer " = [pre; token].
Proof.
  unfold AuthorizationToken, authorization_header.
  destruct (AuthorizationToken_http authContext) as [http|];
    [|split; [done|by intros (?&?&?&?)]].
  unfold AuthorizationToken_index, map_index.
  destruct (Headers http) as [m|];
    [|simpl; split; [done|by intros (?&?&?&?)]].
  destruct (m !! "authorization") as [h|];
    [|simpl; split; [done|by intros (?&?&?&?)]].
  simpl. destruct (Split h "Bearer ") as [|p1 [|p2 [|p3 ps]]] eqn:Hs; simpl.
  all: split;
    [intros ?; simplify_eq; eauto
    |intros (?&?&?&Hs'); simplify_eq; rewrite Hs in Hs'; by simplify_eq].
Qed.

Lemma AuthorizationToken_returns {Obj} (authContext : AuthContext Obj) http :
  AuthorizationToken_http authContext = Some http →
  (∃ token, AuthorizationToken authContext = Some (token, None))
  ∨ AuthorizationToken authContext = Some ("", Some malformed).
Proof.
  intros Hhttp. unfold AuthorizationToken. rewrite Hhttp.
  unfold AuthorizationToken_index.
  destruct (map_index _ _) as [authHeader []]; simpl; [|by right].
  destruct (Split authHeader "Bearer ") as [|p1 [|p2 [|p3 ps]]]; simpl;
    eauto.
Qed.

(** C4 (amended): [AuthorizationToken] returns a token without error
    exactly when the request has, under the exact key [authorization],
    a header in which [Bearer ] occurs exactly once; the token is all
    that follows that occurrence, empty or not, and whatever precedes
    the occurrence is ignored.  In every other case of a request that
    has its messages (no headers map, no authorization header, no
    occurrence or more than one) it returns the empty string with the
    error "authorization header malformed or not provided"; on a request
    of which a message is nil it panics. *)
Theorem AuthorizationToken_single_Bearer {Obj} (authContext : AuthContext Obj) :
  (∀ token,
     AuthorizationToken authContext = Some (token, None) ↔
     ∃ h pre, authorization_header authContext = Some h
              ∧ only_occurrence "Bearer " pre token h)
  ∧ match AuthorizationToken_http authContext with
    | Some _ =>
        (∃ token, AuthorizationToken authContext = Some (token, None))
        ∨ AuthorizationToken authContext = Some ("", Some malformed)
    | None => AuthorizationToken authContext = None
    end.
Proof.
  split.
  - intros token. rewrite AuthorizationToken_Split.
    by setoid_rewrite Split_Bearer.
  - destruct (AuthorizationToken_http authContext) as [http|] eqn:Hhttp.
    + by eapply AuthorizationToken_returns.
    + unfold AuthorizationToken. by rewrite Hhttp.
Qed.

(** C9 (amended): [AuthorizationToken] never panics on its index
    expression, and panics exactly on the requests of which a message
    of the chain [Request.Attributes.Request.Http] is nil.  On every
    other request, with or without a headers map or an authorization
    header, it returns either a token without error or the empty string
    with its error; the index expression is reached with a slice of
    exactly two parts only, where the index 1 is in range, and a request
    without authorization header gets the error. *)
Theorem AuthorizationToken_panics_on_nil_only {Obj}
    (authContext : AuthContext Obj) :
  (AuthorizationToken authContext = None ↔
   AuthorizationToken_http authContext = None)
  ∧ match AuthorizationToken_http authContext with
    | Some http =>
        ((∃ token, AuthorizationToken authContext = Some (token, None))
         ∨ AuthorizationToken authContext = Some ("", Some malformed))
        ∧ match AuthorizationToken_index http with
          | Some splitToken =>
              List.length splitToken = 2 ∧ is_Some (splitToken !! 1)
          | None => True
          end
        ∧ match authorization_header authContext with
          | Some _ => True
          | None =>
              AuthorizationToken authContext = Some ("", Some malformed)
          end
    | None => True
    end.
Proof.
  destruct (AuthorizationToken_http authContext) as [http|] eqn:Hhttp.
  - pose proof (AuthorizationToken_returns _ _ Hhttp) as Hret.
    split; [split; [|done]; by destruct Hret as [[token ->]| ->]|].
    split; [done|].
    unfold AuthorizationToken, authorization_header. rewrite Hhttp.
    unfold AuthorizationToken_index, map_index.
    destruct (Headers http) as [m|]; simpl; [|done].
    destruct (m !! "authorization") as [h|]; simpl; [|done].
    destruct (Split h "Bearer ") as [|p1 [|p2 [|p3 ps]]]; simpl; eauto.
  - split; [|done]. unfold AuthorizationToken. by rewrite Hhttp.
Qed.

End Strings.

(** ** The scheduled machine *)

Section Machine.

Context {Obj : Type} {EV : Evaluators Obj}.
Implicit Types (s : State Obj) (ac : AuthContext Obj).

Local Open Scope nat_scope.

Lemma step_inv s s' :
  step s s' →
  ∃ ph, control s = Running ph ∧
    ((∃ i config g r,
        goroutines s !! i = Some (config, g)
        ∧ goroutine_step (runner ph) (authContext s) (ctxDone s) config g
          = Some r
        ∧ s' = after_goroutine s i config r)
     ∨ (closed s = false
        ∧ Forall (λ cg, cg.2 = Exited) (goroutines s)
        ∧ s' = close_channel s)
     ∨ (∃ resp rest,
          respChannel s = resp :: rest ∧ s' = range_body ph s resp rest)
     ∨ (respChannel s = [] ∧ closed s = true ∧ s' = range_end ph s)
     ∨ (ParentContext (authContext s) = false ∧ s' = cancel_parent s)).
Proof.
  intros [c Hc]. unfold sched_step in Hc.
  destruct (control s) as [ph|]; [|done]. exists ph. split; [done|].
  destruct c as [i| | |].
  - destruct (goroutines s !! i) as [[config g]|] eqn:Hi; [|done].
    destruct (goroutine_step _ _ _ _ _) as [r|] eqn:Hr; [|done].
    left. exists i, config, g, r. by simplify_eq.
  - destruct (closed s) eqn:Hcl; [done|]. simpl in Hc.
    destruct (forallb _ _) eqn:Hall; [|done].
    right; left. simplify_eq. split; [done|]. split; [|done].
    apply Is_true_true, forallb_True in Hall.
    eapply Forall_impl; [exact Hall|]. intros [? []]; simpl; done.
  - destruct (respChannel s) as [|resp rest] eqn:Hch.
    + destruct (closed s) eqn:Hcl; [|done]. simplify_eq.
      right; right; right; left. done.
    + simplify_eq. right; right; left. eauto.
  - destruct (ParentContext _) eqn:Hp; [done|]. simplify_eq.
    right; right; right; right. done.
Qed.

Lemma invariant_rtc (I : State Obj → Prop) s0 :
  I s0 → (∀ s s', rtc step s0 s → I s → step s s' → I s') →
  ∀ s, rtc step s0 s → I s.
Proof.
  intros H0 Hstep s Hs. revert s Hs. apply rtc_ind_r; [done|].
  intros s s' Hs Hss' Is. by eapply Hstep.
Qed.

Lemma run_rtc schedule s s' : run schedule s = Some s' → rtc step s s'.
Proof.
  revert s. induction schedule as [|c schedule IH]; intros s Hrun; simpl in *.
  - simplify_eq. done.
  - destruct (sched_step c s) as [s1|] eqn:Hc; [|done].
    eapply rtc_l; [by exists c|]. by apply IH.
Qed.

(** *** Every run ends *)

Lemma weights_insert (gs : list (AuthConfigEvaluator * Goroutine Obj))
    i config g g' :
  gs !! i = Some (config, g) →
  weights (<[i := (config, g')]> gs) + weight g = weights gs + weight g'.
Proof.
  unfold weights. revert i.
  induction gs as [|cg gs IH]; intros [|i] Hi; simplify_eq/=; [lia|].
  specialize (IH _ Hi). lia.
Qed.

Lemma weights_spawn (l : list AuthConfigEvaluator) :
  weights ((λ config, (config, @AtSelect Obj)) <$> l) = 5 * List.length l.
Proof. unfold weights. induction l as [|c l IH]; [done|]. cbn in *. lia. Qed.

Lemma goroutine_step_weight r ac done config g g' sent cancel logged :
  goroutine_step r ac done config g = Some (g', sent, cancel, logged) →
  weight g' + List.length sent < weight g.
Proof.
  destruct g as [| |authObj [e|]|err|]; simpl; intros Hg.
  - destruct done; simplify_eq; simpl; lia.
  - destruct (Call config ac); simplify_eq; simpl; lia.
  - simplify_eq; simpl; lia.
  - simplify_eq; simpl; lia.
  - simplify_eq; simpl; lia.
  - done.
Qed.

Lemma measure_enter ph ac log :
  measure (enter ph ac log)
  = 2 + 5 * List.length (configs ph (API ac)) + later_phases ph (API ac)
    + (if ParentContext ac then 0 else 1).
Proof. unfold measure. simpl. rewrite weights_spawn. lia. Qed.

Lemma measure_finish r ac log : measure (finish r ac log) = 0.
Proof. done. Qed.

Ltac measure_lia :=
  unfold later_phases, phase_cost; simpl;
  repeat match goal with
         | |- context [if ?b then _ else _] => destruct b
         end;
  lia.

Lemma step_measure s s' : step s s' → measure s' < measure s.
Proof.
  intros Hstep. apply step_inv in Hstep as (ph & Hph & Hcases).
  destruct Hcases as
    [(i & config & g & [[[g' sent] cancel] logged] & Hi & Hg & ->)
    |[(Hcl & Hex & ->)
    |[(resp & rest & Hch & ->)
    |[(Hch & Hcl & ->)
    |(Hp & ->)]]]].
  - apply goroutine_step_weight in Hg.
    pose proof (weights_insert _ _ _ _ g' Hi) as Hw.
    unfold measure. simpl. rewrite Hph, length_app. measure_lia.
  - unfold measure. simpl. rewrite Hph, Hcl. measure_lia.
  - unfold measure at 2. rewrite Hph, Hch.
    destruct ph; unfold range_body; simpl; destruct (Success resp); simpl;
      try destruct (Error resp); simpl;
      rewrite ?measure_enter, ?measure_finish;
      unfold measure; simpl; rewrite ?Hph; measure_lia.
  - unfold measure at 2. rewrite Hph, Hch, Hcl.
    destruct ph; unfold range_end; simpl; try destruct (lastError s); simpl;
      rewrite ?measure_enter, ?measure_finish; measure_lia.
  - unfold measure. simpl. rewrite Hph, Hp. measure_lia.
Qed.

Lemma not_all_exited (gs : list (AuthConfigEvaluator * Goroutine Obj)) :
  forallb (λ cg, is_Exited cg.2) gs = false →
  ∃ i config g, gs !! i = Some (config, g) ∧ g ≠ Exited.
Proof.
  induction gs as [|[config g] gs IH]; simpl; [done|].
  destruct (is_Exited g) eqn:Hg; simpl.
  - intros (i & config' & g' & Hi & Hne)%IH. by exists (S i), config', g'.
  - intros _. exists 0, config, g. split; [done|]. by intros ->.
Qed.

Lemma progress s ph : control s = Running ph → ∃ s', step s s'.
Proof.
  intros Hph. destruct (respChannel s) as [|resp rest] eqn:Hch.
  2: { exists (range_body ph s resp rest), Receive.
       unfold sched_step. by rewrite Hph, Hch. }
  destruct (closed s) eqn:Hcl.
  { exists (range_end ph s), Receive. unfold sched_step.
    by rewrite Hph, Hch, Hcl. }
  destruct (forallb (λ cg, is_Exited cg.2) (goroutines s)) eqn:Hall.
  { exists (close_channel s), Close. unfold sched_step.
    by rewrite Hph, Hcl, Hall. }
  apply not_all_exited in Hall as (i & config & g & Hi & Hne).
  assert (∃ r, goroutine_step (runner ph) (authContext s) (ctxDone s)
                 config g = Some r) as [r Hr].
  { destruct g as [| |authObj [e|]|err|]; simpl in *; eauto.
    - destruct (ctxDone s); eauto.
    - destruct (Call config (authContext s)); eauto.
    - done. }
  exists (after_goroutine s i config r), (Go i).
  unfold sched_step. by rewrite Hph, Hi, Hr.
Qed.

(** Every run ends, and it ends with [Evaluate] returned. *)
Lemma terminates s : ∃ s' r, rtc step s s' ∧ control s' = Returned r.
Proof.
  remember (measure s) as n eqn:Hn.
  revert s Hn. induction (lt_wf n) as [n _ IH]. intros s ->.
  destruct (control s) as [ph|r] eqn:Hc.
  - destruct (progress s ph Hc) as [s1 Hs1].
    destruct (IH _ (step_measure _ _ Hs1) s1 eq_refl) as (s' & r & Hrtc & Hr).
    exists s', r. split; [|done]. by eapply rtc_l.
  - exists s, r. done.
Qed.

Lemma Evaluate_total ac : ∃ r ac' log, Evaluate ac r ac' log.
Proof.
  destruct (terminates (start ac)) as (s & r & Hrtc & Hr).
  exists r, (authContext s), (authCtxLog s), s. done.
Qed.

(** *** Well-formed states *)

Lemma same_request_refl ac : same_request ac ac.
Proof. done. Qed.

Lemma well_formed_enter ac0 ph ac log :
  same_request ac0 ac → well_formed ac0 (enter ph ac log).
Proof.
  intros Hsame. split; [done|]. destruct Hsame as [_ Hapi].
  simpl. rewrite Hapi. split_and!.
  - rewrite <-list_fmap_compose. apply list_fmap_id.
  - done.
  - apply Forall_fmap, Forall_true. done.
  - done.
  - done.
Qed.

Lemma goroutines_config s ph ac0 i config g :
  control s = Running ph → well_formed ac0 s →
  goroutines s !! i = Some (config, g) → config ∈ configs ph (API ac0).
Proof.
  intros Hph [_ Hwf] Hi. rewrite Hph in Hwf. destruct Hwf as (<- & _).
  apply list_elem_of_fmap. exists (config, g). split; [done|].
  by eapply list_elem_of_lookup_2.
Qed.

Lemma well_formed_step ac0 s s' :
  well_formed ac0 s → step s s' → well_formed ac0 s'.
Proof.
  intros Hwf Hstep.
  apply step_inv in Hstep as (ph & Hph & Hcases).
  destruct Hcases as
    [(i & config & g & [[[g' sent] cancel] logged] & Hi & Hg & ->)
    |[(Hcl & Hex & ->)
    |[(resp & rest & Hch & ->)
    |[(Hch & Hcl & ->)
    |(Hp & ->)]]]].
  - pose proof (goroutines_config _ _ _ _ _ _ Hph Hwf Hi) as Hin.
    destruct Hwf as [Hsame Hwf]. rewrite Hph in Hwf.
    destruct Hwf as (Hfst & Hclosed & Hcalled & Hchan & Hlast).
    split; [done|]. simpl. rewrite Hph. split_and!.
    + rewrite list_fmap_insert. simpl. rewrite list_insert_id; [done|].
      by rewrite list_lookup_fmap, Hi.
    + intros Hcl. specialize (Hclosed Hcl).
      eapply Forall_lookup_1 in Hclosed; [|done]. simpl in Hclosed.
      subst g. done.
    + apply Forall_insert; [done|].
      eapply Forall_lookup_1 in Hcalled; [|done].
      destruct g as [| |authObj [e|]|err|]; simpl in Hg.
      * destruct (ctxDone s); by simplify_eq.
      * destruct (Call config (authContext s)) eqn:Hcall. simplify_eq.
        unfold called. simpl. eauto.
      * by simplify_eq.
      * by simplify_eq.
      * by simplify_eq.
      * done.
    + apply Forall_app. split; [done|].
      eapply Forall_lookup_1 in Hcalled; [|done].
      destruct g as [| |authObj [e|]|err|]; simpl in Hg.
      * destruct (ctxDone s); by simplify_eq.
      * destruct (Call config (authContext s)) eqn:Hcall. by simplify_eq.
      * simplify_eq. apply Forall_singleton. split; [done|].
        destruct Hcalled as (ac & ? & Hac). exists ac. simpl. eauto.
      * simplify_eq. apply Forall_singleton. split; [done|].
        destruct Hcalled as (ac & ? & Hac). exists ac. done.
      * by simplify_eq.
      * done.
    + done.
  - destruct Hwf as [Hsame Hwf]. rewrite Hph in Hwf.
    destruct Hwf as (Hfst & Hclosed & Hcalled & Hchan & Hlast).
    split; [done|]. simpl. rewrite Hph. done.
  - destruct Hwf as [Hsame Hwf]. rewrite Hph, Hch in Hwf.
    destruct Hwf as (Hfst & Hclosed & Hcalled & Hchan & Hlast).
    apply Forall_cons in Hchan as [[Hin (ac & Hac & Hresp)] Hrest].
    destruct ph; unfold range_body; simpl; destruct (Success resp) eqn:Hok;
      simpl.
    + by apply well_formed_enter.
    + split; [done|]. simpl. rewrite Hph. split_and!; try done.
      intros e He. destruct Hresp as (authObj & e' & Hcall & He').
      exists (Evaluator resp), ac, authObj. split_and!; try done. congruence.
    + split; [done|]. simpl. rewrite Hph. done.
    + split; [done|]. simpl. rewrite Hph. done.
    + split; [done|]. simpl. rewrite Hph. done.
    + destruct Hresp as (authObj & e' & Hcall & He'). rewrite He'.
      split; [done|]. simpl. exists (Evaluator resp), ac, authObj. done.
  - destruct Hwf as [Hsame Hwf]. rewrite Hph in Hwf.
    destruct Hwf as (Hfst & Hclosed & Hcalled & Hchan & Hlast).
    destruct ph; unfold range_end; simpl.
    + destruct (lastError s) as [e|] eqn:He; simpl.
      * split; [done|]. simpl. by apply Hlast.
      * by apply well_formed_enter.
    + by apply well_formed_enter.
    + done.
  - destruct Hwf as [Hsame Hwf]. rewrite Hph in Hwf.
    split; [done|]. simpl. rewrite Hph. done.
Qed.

Lemma well_formed_reachable ac0 s :
  rtc step (start ac0) s → well_formed ac0 s.
Proof.
  apply invariant_rtc.
  - by apply well_formed_enter.
  - intros. by eapply well_formed_step.
Qed.

Ltac step_cases Hstep :=
  apply step_inv in Hstep as
    (ph & Hph &
     [(i & config & g & [[[g' sent] cancel] logged] & Hi & Hg & ->)
     |[(Hcl & Hex & ->)
     |[(resp & rest & Hch & ->)
     |[(Hch & Hcl & ->)
     |(Hp & ->)]]]]).

(** The six places a goroutine can step from. *)
Ltac goroutine_cases g Hg :=
  destruct g as [| |authObj [e|]|err|]; simpl in Hg;
  [try match type of Hg with
       | context [if ?b then _ else _] => destruct b eqn:Hdone
       end
  |destruct (Call _ _) as [authObj err] eqn:Hcall
  | | | | ];
  simplify_eq.

Lemma observations_observed ph (entry : LogEntry Obj) log :
  observed_by ph entry = true →
  observations ph (entry :: log) = entry :: observations ph log.
Proof. intros. unfold observations. by rewrite filter_cons_True. Qed.

Lemma observations_unobserved ph (entry : LogEntry Obj) log :
  observed_by ph entry = false →
  observations ph (entry :: log) = observations ph log.
Proof.
  intros Hno. unfold observations. rewrite filter_cons_False; [done|].
  by rewrite Hno.
Qed.

Lemma reachable_invariant (J : State Obj → Prop) ac0 :
  J (start ac0) →
  (∀ s s', well_formed ac0 s → J s → step s s' → J s') →
  ∀ s, rtc step (start ac0) s → J s.
Proof.
  intros H0 Hstep. apply invariant_rtc; [done|].
  intros s s' Hs. apply Hstep. by apply well_formed_reachable.
Qed.

Lemma goroutine_step_observations r ac done config (g : Goroutine Obj)
    g' sent cancel logged ph log :
  goroutine_step r ac done config g = Some (g', sent, cancel, logged) →
  observations ph (logged ++ log) = observations ph log.
Proof.
  intros Hg. goroutine_cases g Hg; try done.
  destruct err; [|done]. by apply observations_unobserved.
Qed.

Local Arguments observations : simpl never.

(** *** The identity phase when every evaluator fails *)

Lemma identity_failing_step ac0 s s' :
  IdentityConfigs (API ac0) ≠ [] →
  (∀ config, config ∈ IdentityConfigs (API ac0) → fails ac0 config) →
  well_formed ac0 s → identity_failing ac0 s → step s s' →
  identity_failing ac0 s'.
Proof.
  intros Hne Hfail Hwf (HI & HM & HA & Hinv) Hstep. step_cases Hstep.
  all: rewrite Hph in Hinv; destruct ph; try done.
  all: destruct Hinv as (Hnd & Hgs & Hchan & Hpast & Hlog).
  - pose proof (goroutines_config _ _ _ _ _ _ Hph Hwf Hi) as Hin.
    split_and!; try done. simpl. rewrite Hph.
    erewrite goroutine_step_observations by done.
    pose proof (Forall_lookup_1 _ _ _ _ Hgs Hi) as Hg1.
    pose proof (Forall_lookup_1 _ _ _ _ Hpast Hi) as Hg2.
    simpl in Hg1, Hg2. rewrite Hnd in Hg.
    goroutine_cases g Hg; simpl; rewrite ?Hnd, ?app_nil_r; unfold past_send.
    + split_and!; try done; apply Forall_insert; done.
    + split_and!; try done; apply Forall_insert; try done.
      simpl. specialize (Hfail _ Hin (authContext s) (proj1 Hwf)).
      by rewrite Hcall in Hfail.
    + split_and!; try done.
      * apply Forall_insert; done.
      * apply Forall_app. split; [done|]. by apply Forall_singleton.
      * apply Forall_insert.
        -- eapply Forall_impl; [done|]. intros ? _ _. left.
           by destruct (respChannel s).
        -- intros _. left. by destruct (respChannel s).
    + destruct err as [e|]; [|done]. simpl.
      split_and!; try done; apply Forall_insert; done.
  - split_and!; try done. simpl. rewrite Hph. done.
  - destruct Hwf as [Hsame Hwf]. rewrite Hph, Hch in Hwf.
    destruct Hwf as (Hfst & Hclosed & Hcalled & Hwchan & Hlast).
    apply Forall_cons in Hwchan as [[Hin (ac & Hac & Hresp)] _].
    rewrite Hch in Hchan. apply Forall_cons in Hchan as [Hok Hrest].
    unfold range_body. simpl. rewrite Hok in *.
    destruct Hresp as (authObj & e & _ & He).
    split_and!; try done. simpl. rewrite Hph.
    split_and!; try done.
    + eapply Forall_impl; [done|]. intros ? _ _. right. by rewrite He.
    + eauto.
  - unfold range_end. simpl.
    destruct Hwf as [Hsame Hwf]. rewrite Hph in Hwf.
    destruct Hwf as (Hfst & Hclosed & Hcalled & Hwchan & Hlast).
    specialize (Hclosed Hcl).
    destruct (goroutines s) as [|[config g] gs] eqn:Hgs'.
    { simpl in Hfst. by rewrite <-Hfst in Hne. }
    apply Forall_cons in Hclosed as [Hex _]. simpl in Hex. subst g.
    apply Forall_cons in Hpast as [Hp _]. simpl in Hp.
    destruct (Hp I) as [?|Hl]; [done|].
    destruct (lastError s) as [e|] eqn:He; [|done]. simpl.
    split_and!; try done. simpl.
    destruct (observations IdentityPhase (authCtxLog s)) as [|entry rest];
      [done|].
    destruct Hlog as [conf ->]. eauto.
  - split_and!; try done. simpl. rewrite Hph. done.
Qed.

Lemma Forall_spawn (P : AuthConfigEvaluator * Goroutine Obj → Prop) l :
  (∀ config, P (config, AtSelect)) →
  Forall P ((λ config, (config, AtSelect)) <$> l).
Proof. intros HP. apply Forall_fmap, Forall_forall. intros. apply HP. Qed.

Lemma identity_failing_reachable ac0 s :
  IdentityConfigs (API ac0) ≠ [] →
  (∀ config, config ∈ IdentityConfigs (API ac0) → fails ac0 config) →
  rtc step (start ac0) s → identity_failing ac0 s.
Proof.
  intros Hne Hfail. apply reachable_invariant.
  - split_and!; try done. simpl. split_and!; try done.
    + by apply Forall_spawn.
    + apply Forall_spawn. by intros ? [].
  - intros. by eapply identity_failing_step.
Qed.

(** C7: when the list of identity evaluators is not empty and every one
    of them fails, [Evaluate] returns at line 253 with the error of the
    identity failure its loop observed last, and the pipeline stops
    there: no state of any run is in the metadata or the authorization
    phase, and the three result maps are left empty. *)
Theorem Evaluate_identity_all_fail parentCtx req api :
  let ac := NewAuthContext parentCtx req api in
  IdentityConfigs api ≠ [] →
  (∀ config, config ∈ IdentityConfigs api → fails ac config) →
  (∃ r ac' log, Evaluate ac r ac' log)
  ∧ (∀ s, rtc step (start ac) s →
          control s = Running IdentityPhase
          ∨ ∃ e, control s = Returned (ReturnIdentityError e))
  ∧ ∀ r ac' log, Evaluate ac r ac' log →
      ∃ e conf earlier,
        r = ReturnIdentityError e
        ∧ observations IdentityPhase log
          = LogError IdentityPhase conf (Some e) :: earlier
        ∧ Identity ac' = ∅ ∧ Metadata ac' = ∅ ∧ Authorization ac' = ∅.
Proof.
  intros ac Hne Hfail. split; [apply Evaluate_total|]. split.
  - intros s Hs.
    destruct (identity_failing_reachable ac s Hne Hfail Hs)
      as (_ & _ & _ & Hinv).
    destruct (control s) as [[]|[]]; try done; eauto.
  - intros r ac' log (s & Hs & Hr & <- & <-).
    destruct (identity_failing_reachable ac s Hne Hfail Hs)
      as (HI & HM & HA & Hinv).
    rewrite Hr in Hinv. destruct r as [e| |]; try done.
    destruct Hinv as (conf & earlier & Hobs).
    exists e, conf, earlier. done.
Qed.

(** *** The identity phase when an evaluator succeeds *)

Lemma identity_first_success_keep ac0 s s' :
  Identity (authContext s') = Identity (authContext s) →
  observations IdentityPhase (authCtxLog s')
  = observations IdentityPhase (authCtxLog s) →
  identity_first_success ac0 s → identity_first_success ac0 s'.
Proof.
  intros HI Hobs (config & obj & earlier & ? & ? & ? & ? & ?).
  exists config, obj, earlier. rewrite HI, Hobs. done.
Qed.

Lemma success_sent_rest s resp rest :
  respChannel s = resp :: rest → Success resp = false →
  success_sent s → Exists (λ resp, Success resp = true) rest.
Proof.
  unfold success_sent. intros -> Hno [Hok|Hrest]%Exists_cons; [|done].
  congruence.
Qed.

Lemma identity_succeeding_step ac0 s s' :
  (∃ config, config ∈ IdentityConfigs (API ac0) ∧ succeeds ac0 config) →
  well_formed ac0 s → identity_succeeding ac0 s → step s s' →
  identity_succeeding ac0 s'.
Proof.
  intros (config0 & Hin0 & Hok0) Hwf Hinv Hstep. step_cases Hstep.
  all: unfold identity_succeeding in *; rewrite Hph in Hinv.
  - (* a goroutine *)
    destruct ph.
    2,3: simpl; rewrite Hph; eapply identity_first_success_keep; [| |done];
      [done|simpl; by eapply goroutine_step_observations].
    destruct Hinv as (HI & Hobs & Hdn & Hgs).
    destruct Hwf as [Hsame Hwf]. rewrite Hph in Hwf.
    destruct Hwf as (Hfst & Hclosed & Hcalled & Hwchan & Hlast).
    pose proof (Forall_lookup_1 _ _ _ _ Hgs Hi) as Hg1.
    pose proof (Forall_lookup_1 _ _ _ _ Hcalled Hi) as Hg2.
    simpl in Hg1. unfold called in Hg2. simpl in Hg2.
    assert (∀ sent, success_sent s →
              Exists (λ resp : EvaluationResponse Obj, Success resp = true)
                (respChannel s ++ sent)) as Hmono.
    { intros ? ?. apply Exists_app. by left. }
    simpl. rewrite Hph. simpl.
    erewrite goroutine_step_observations by done.
    split; [done|]. split; [done|].
    unfold success_sent in *. simpl.
    goroutine_cases g Hg; simpl in *; rewrite ?app_nil_r, ?orb_false_r.
    + split; [done|]. apply Forall_insert; [done|]. simpl. by apply Hdn.
    + split; [done|]. by apply Forall_insert.
    + split; [done|]. by apply Forall_insert.
    + destruct Hg2 as (acx & Hsame' & Hacx).
      split; [auto|]. apply Forall_insert.
      * eapply Forall_impl; [done|]. intros [? []]; simpl; auto.
        destruct err; auto.
      * simpl. intros Hs. specialize (Hs acx Hsame'). by rewrite Hacx in Hs.
    + assert (Exists (λ resp : EvaluationResponse Obj, Success resp = true)
                (respChannel s
                 ++ [newEvaluationResponseSuccess config authObj]))
        as Hnew.
      { apply Exists_app. right. by apply Exists_cons_hd. }
      split; [done|]. apply Forall_insert; [|done].
      eapply Forall_impl; [done|]. intros [? []]; simpl; auto.
      destruct err; auto.
    + split.
      * destruct err; simpl; rewrite ?orb_false_r, ?orb_true_r; auto.
      * apply Forall_insert; [done|]. simpl. destruct err; auto.
  - (* close *)
    simpl. rewrite Hph. by destruct ph.
  - (* the loop receives *)
    destruct Hwf as [Hsame Hwf]. rewrite Hph, Hch in Hwf.
    destruct Hwf as (Hfst & Hclosed & Hcalled & Hwchan & Hlast).
    apply Forall_cons in Hwchan as [[Hin (acx & Hacx' & Hresp)] _].
    destruct ph; unfold range_body; simpl;
      destruct (Success resp) eqn:Hok; simpl.
    + destruct Hinv as (HI & Hobs & Hdn & Hgs).
      exists (Evaluator resp), (Object resp),
        (observations IdentityPhase (authCtxLog s)).
      simpl. rewrite HI. split_and!; eauto.
    + destruct Hinv as (HI & Hobs & Hdn & Hgs). rewrite Hph. simpl.
      rewrite observations_observed by done.
      assert (success_sent s →
              Exists (λ resp : EvaluationResponse Obj, Success resp = true)
                rest) as Hrest by (by apply (success_sent_rest s resp)).
      unfold success_sent in *. simpl. split_and!; auto.
      { by apply Forall_cons. }
      eapply Forall_impl; [done|]. intros [? []]; simpl; auto.
      destruct err; auto.
    + rewrite Hph. eapply identity_first_success_keep; [| |done]; [done|].
      simpl. by rewrite observations_unobserved.
    + rewrite Hph. eapply identity_first_success_keep; [| |done]; [done|].
      simpl. by rewrite observations_unobserved.
    + rewrite Hph. eapply identity_first_success_keep; [| |done]; [done|].
      simpl. by rewrite observations_unobserved.
    + destruct (Error resp); simpl;
        (eapply identity_first_success_keep; [| |done]; [done|]);
        simpl; by rewrite observations_unobserved.
  - (* the loop ends *)
    destruct ph; unfold range_end; simpl.
    + exfalso. destruct Hinv as (HI & Hobs & Hdn & Hgs).
      destruct Hwf as [Hsame Hwf]. rewrite Hph in Hwf.
      destruct Hwf as (Hfst & Hclosed & Hcalled & Hwchan & Hlast).
      specialize (Hclosed Hcl). simpl in Hfst. rewrite <-Hfst in Hin0.
      apply list_elem_of_fmap in Hin0 as ([config g] & -> & Hin0).
      pose proof (proj1 (Forall_forall _ _) Hclosed _ Hin0) as Hex.
      pose proof (proj1 (Forall_forall _ _) Hgs _ Hin0) as Hsent.
      simpl in Hex, Hsent. subst g. specialize (Hsent Hok0).
      unfold success_sent in Hsent. rewrite Hch in Hsent.
      by apply Exists_nil in Hsent.
    + by eapply identity_first_success_keep.
    + by eapply identity_first_success_keep.
  - (* the parent context is cancelled *)
    simpl. rewrite Hph. destruct ph; try done.
Qed.

Lemma identity_succeeding_reachable ac0 s :
  (∃ config, config ∈ IdentityConfigs (API ac0) ∧ succeeds ac0 config) →
  rtc step (start ac0) s → identity_succeeding ac0 s.
Proof.
  intros Hok. apply reachable_invariant.
  - unfold identity_succeeding. simpl. split_and!; try done.
    by apply Forall_spawn.
  - intros. by eapply identity_succeeding_step.
Qed.

(** C3: when some identity evaluator succeeds, [Evaluate] does not
    return the identity error: the identity loop returns on the first
    success it observes, after failures only, and the identity result
    map then holds exactly one entry, the object of that successful
    call; no later response of the phase is recorded. *)
Theorem Evaluate_identity_first_success parentCtx req api :
  let ac := NewAuthContext parentCtx req api in
  (∃ config, config ∈ IdentityConfigs api ∧ succeeds ac config) →
  (∃ r ac' log, Evaluate ac r ac' log)
  ∧ ∀ r ac' log, Evaluate ac r ac' log →
      (∀ e, r ≠ ReturnIdentityError e)
      ∧ ∃ config obj earlier,
          config ∈ IdentityConfigs api
          ∧ (∃ acx, same_request ac acx ∧ Call config acx = (obj, None))
          ∧ Identity ac' = {[ as_IdentityConfig config := obj ]}
          ∧ observations IdentityPhase log
            = LogObject IdentityPhase (as_IdentityConfig config) obj
              :: earlier
          ∧ Forall is_LogError earlier.
Proof.
  intros ac Hok. split; [apply Evaluate_total|].
  intros r ac' log (s & Hs & Hr & <- & <-).
  pose proof (identity_succeeding_reachable ac s Hok Hs) as Hinv.
  unfold identity_succeeding in Hinv. rewrite Hr in Hinv.
  split; [by intros e ->|].
  destruct r as [e| |]; [done| |];
    destruct Hinv as (config & obj & earlier & ? & ? & HI & ? & ?);
    exists config, obj, earlier; rewrite HI; done.
Qed.

(** *** The authorization phase *)

Lemma authorization_succeeding_enter ac0 ac log :
  API ac = API ac0 → Authorization ac = Authorization ac0 →
  authorization_succeeding ac0 (enter AuthorizationPhase ac log).
Proof.
  intros Hapi HA. unfold authorization_succeeding. simpl. rewrite HA.
  split_and!; try done; try set_solver.
  - by apply Forall_spawn.
  - apply Forall_spawn. by intros ? [].
Qed.

Lemma authorization_succeeding_step ac0 s s' :
  (∀ config, config ∈ AuthorizationConfigs (API ac0) → succeeds ac0 config) →
  well_formed ac0 s → authorization_succeeding ac0 s → step s s' →
  authorization_succeeding ac0 s'.
Proof.
  intros Hok Hwf Hinv Hstep. step_cases Hstep.
  all: unfold authorization_succeeding in *; rewrite Hph in Hinv.
  - (* a goroutine *)
    destruct ph; [by simpl; rewrite Hph..|].
    pose proof (goroutines_config _ _ _ _ _ _ Hph Hwf Hi) as Hin.
    destruct Hinv as (Hnd & Hgs & Hchan & Hpast & Hlow & Hup).
    pose proof (Forall_lookup_1 _ _ _ _ Hgs Hi) as Hg1.
    pose proof (Forall_lookup_1 _ _ _ _ Hpast Hi) as Hg2.
    simpl in Hg1, Hg2. rewrite Hnd in Hg.
    simpl. rewrite Hph. simpl. rewrite Hnd. unfold waiting in *. simpl.
    goroutine_cases g Hg; simpl in *; rewrite ?app_nil_r.
    + split_and!; try done; apply Forall_insert; done.
    + split_and!; try done; apply Forall_insert; try done. simpl.
      specialize (Hok _ Hin (authContext s) (proj1 Hwf)).
      by rewrite Hcall in Hok.
    + split_and!; try done.
      * by apply Forall_insert.
      * apply Forall_app. split; [done|]. by apply Forall_singleton.
      * apply Forall_insert.
        -- eapply Forall_impl; [done|]. intros cg Hcg Hp.
           destruct (Hcg Hp) as [?|?]; [left|by right].
           apply Exists_app. by left.
        -- intros _. left. apply Exists_app. right.
           by apply Exists_cons_hd.
    + split_and!; try done; apply Forall_insert; done.
  - (* close *)
    simpl. rewrite Hph. by destruct ph.
  - (* the loop receives *)
    destruct Hwf as [Hsame Hwf]. rewrite Hph, Hch in Hwf.
    destruct Hwf as (Hfst & Hclosed & Hcalled & Hwchan & Hlast).
    apply Forall_cons in Hwchan as [[Hin (acx & Hacx' & Hresp)] _].
    destruct ph; unfold range_body; simpl;
      destruct (Success resp) eqn:Hsucc; simpl; rewrite ?Hph; try done.
    + destruct Hinv as (Hnd & Hgs & Hchan & Hpast & Hlow & Hup).
      unfold waiting in *. simpl. rewrite Hch in Hpast.
      split_and!; try done.
      * rewrite Hch in Hchan. by apply Forall_cons in Hchan as [_ ?].
      * eapply Forall_impl; [done|]. intros cg Hcg Hp.
        rewrite dom_insert_L.
        destruct (Hcg Hp) as [[Hhd|?]%Exists_cons|?].
        -- right. rewrite <-Hhd. set_solver.
        -- by left.
        -- right. set_solver.
      * rewrite dom_insert_L. set_solver.
      * rewrite dom_insert_L. unfold authorization_keys.
        assert (as_AuthorizationConfig (Evaluator resp)
                ∈ as_AuthorizationConfig <$> AuthorizationConfigs (API ac0))
          by (by apply list_elem_of_fmap_2).
        set_solver.
    + destruct Hinv as (Hnd & Hgs & Hchan & Hpast & Hlow & Hup).
      rewrite Hch in Hchan. apply Forall_cons in Hchan as [? _].
      congruence.
  - (* the loop ends *)
    destruct Hwf as [Hsame Hwf]. rewrite Hph in Hwf.
    destruct Hwf as (Hfst & Hclosed & Hcalled & Hwchan & Hlast).
    destruct ph; unfold range_end; simpl.
    + by destruct (lastError s).
    + apply authorization_succeeding_enter; [apply Hsame|done].
    + destruct Hinv as (Hnd & Hgs & Hchan & Hpast & Hlow & Hup).
      specialize (Hclosed Hcl). apply set_eq. intros k. split; [set_solver|].
      intros [?|Hk]%elem_of_union; [set_solver|].
      unfold authorization_keys in Hk.
      apply elem_of_list_to_set, list_elem_of_fmap in Hk
        as (config & -> & Hin).
      simpl in Hfst. rewrite <-Hfst in Hin.
      apply list_elem_of_fmap in Hin as ([config' g] & -> & Hin).
      pose proof (proj1 (Forall_forall _ _) Hclosed _ Hin) as Hex.
      pose proof (proj1 (Forall_forall _ _) Hpast _ Hin) as Hsent.
      simpl in Hex, Hsent. subst g.
      destruct (Hsent I) as [Hw|?]; [|done].
      unfold waiting in Hw. rewrite Hch in Hw. by apply Exists_nil in Hw.
  - (* the parent context is cancelled *)
    simpl. rewrite Hph. destruct ph; try done.
Qed.

Lemma failure_sent_rest s resp rest :
  respChannel s = resp :: rest → Success resp = true →
  failure_sent s → Exists (λ resp, Success resp = false) rest.
Proof.
  unfold failure_sent. intros -> Hno [Hok|Hrest]%Exists_cons; [|done].
  congruence.
Qed.

Lemma authorization_failing_step ac0 s s' :
  (∃ config, config ∈ AuthorizationConfigs (API ac0) ∧ fails ac0 config) →
  well_formed ac0 s → authorization_failing ac0 s → step s s' →
  authorization_failing ac0 s'.
Proof.
  intros (config0 & Hin0 & Hfail0) Hwf Hinv Hstep. step_cases Hstep.
  all: unfold authorization_failing in *; rewrite Hph in Hinv.
  - (* a goroutine *)
    destruct ph; [by simpl; rewrite Hph..|].
    destruct Hinv as (Hdn & Hgs).
    destruct Hwf as [Hsame Hwf]. rewrite Hph in Hwf.
    destruct Hwf as (Hfst & Hclosed & Hcalled & Hwchan & Hlast).
    pose proof (Forall_lookup_1 _ _ _ _ Hgs Hi) as Hg1.
    pose proof (Forall_lookup_1 _ _ _ _ Hcalled Hi) as Hg2.
    simpl in Hg1. unfold called in Hg2. simpl in Hg2.
    assert (∀ sent, failure_sent s →
              Exists (λ resp : EvaluationResponse Obj, Success resp = false)
                (respChannel s ++ sent)) as Hmono.
    { intros ? ?. apply Exists_app. by left. }
    simpl. rewrite Hph. simpl.
    unfold failure_sent in *. simpl.
    goroutine_cases g Hg; simpl in *; rewrite ?app_nil_r, ?orb_false_r.
    + split; [done|]. apply Forall_insert; [done|]. simpl. auto.
    + split; [done|]. by apply Forall_insert.
    + split; [done|]. by apply Forall_insert.
    + assert (Exists (λ resp : EvaluationResponse Obj, Success resp = false)
                (respChannel s
                 ++ [newEvaluationResponseFailure config (Some e)]))
        as Hnew.
      { apply Exists_app. right. by apply Exists_cons_hd. }
      split; [done|]. apply Forall_insert; [|done].
      eapply Forall_impl; [done|]. intros [? []]; simpl; auto.
      destruct err; auto.
    + destruct Hg2 as (acx & Hsame' & Hacx).
      split; [auto|]. apply Forall_insert.
      * eapply Forall_impl; [done|]. intros [? []]; simpl; auto.
        destruct err; auto.
      * simpl. intros Hs. specialize (Hs acx Hsame'). by rewrite Hacx in Hs.
    + split.
      * destruct err; simpl; rewrite ?orb_false_r, ?orb_true_r; auto.
      * apply Forall_insert; [done|]. simpl. destruct err; auto.
  - (* close *)
    simpl. rewrite Hph. by destruct ph.
  - (* the loop receives *)
    destruct Hwf as [Hsame Hwf]. rewrite Hph, Hch in Hwf.
    destruct Hwf as (Hfst & Hclosed & Hcalled & Hwchan & Hlast).
    apply Forall_cons in Hwchan as [[Hin (acx & Hacx' & Hresp)] _].
    destruct ph; unfold range_body; simpl;
      destruct (Success resp) eqn:Hsucc; simpl; rewrite ?Hph; try done.
    + destruct Hinv as (Hdn & Hgs).
      assert (failure_sent s →
              Exists (λ resp : EvaluationResponse Obj, Success resp = false)
                rest) as Hrest by (by apply (failure_sent_rest s resp)).
      unfold failure_sent in *. simpl. split; [auto|].
      eapply Forall_impl; [done|]. intros [? []]; simpl; auto.
      destruct err; auto.
    + destruct Hresp as (authObj & e & _ & ->). done.
  - (* the loop ends *)
    destruct ph; unfold range_end; simpl.
    + by destruct (lastError s).
    + split; [done|]. by apply Forall_spawn.
    + destruct Hinv as (Hdn & Hgs).
      destruct Hwf as [Hsame Hwf]. rewrite Hph in Hwf.
      destruct Hwf as (Hfst & Hclosed & Hcalled & Hwchan & Hlast).
      specialize (Hclosed Hcl). simpl in Hfst. rewrite <-Hfst in Hin0.
      apply list_elem_of_fmap in Hin0 as ([config g] & -> & Hin0).
      pose proof (proj1 (Forall_forall _ _) Hclosed _ Hin0) as Hex.
      pose proof (proj1 (Forall_forall _ _) Hgs _ Hin0) as Hsent.
      simpl in Hex, Hsent. subst g. specialize (Hsent Hfail0).
      unfold failure_sent in Hsent. rewrite Hch in Hsent.
      by apply Exists_nil in Hsent.
  - (* the parent context is cancelled *)
    simpl. rewrite Hph. destruct ph; try done.
Qed.

Lemma authorization_succeeding_reachable ac0 s :
  (∀ config, config ∈ AuthorizationConfigs (API ac0) → succeeds ac0 config) →
  rtc step (start ac0) s → authorization_succeeding ac0 s.
Proof.
  intros Hok. apply reachable_invariant; [done|].
  intros. by eapply authorization_succeeding_step.
Qed.

Lemma authorization_failing_reachable ac0 s :
  (∃ config, config ∈ AuthorizationConfigs (API ac0) ∧ fails ac0 config) →
  rtc step (start ac0) s → authorization_failing ac0 s.
Proof.
  intros Hfail. apply (reachable_invariant _ ac0); [done|].
  intros. by eapply authorization_failing_step.
Qed.

(** C1: once the identity phase has let the request through, [Evaluate]
    returns [nil] (allow) when every authorization evaluator succeeds,
    and the authorization result map then has an entry for each of
    them and no other (as many entries as evaluators when their
    pointers differ); it returns at line 261 with the error of a failed
    authorization call when some authorization evaluator fails; with no
    authorization evaluator it returns [nil] and records nothing. *)
Theorem Evaluate_authorization_phase parentCtx req api :
  let ac := NewAuthContext parentCtx req api in
  (∃ r ac' log, Evaluate ac r ac' log)
  ∧ ∀ r ac' log, Evaluate ac r ac' log → (∀ e, r ≠ ReturnIdentityError e) →
      ((∀ config, config ∈ AuthorizationConfigs api → succeeds ac config) →
         r = ReturnNil
         ∧ dom (Authorization ac') = authorization_keys api
         ∧ (NoDup (as_AuthorizationConfig <$> AuthorizationConfigs api) →
            size (Authorization ac')
            = List.length (AuthorizationConfigs api)))
      ∧ ((∃ config, config ∈ AuthorizationConfigs api ∧ fails ac config) →
         ∃ e, r = ReturnAuthorizationError e
              ∧ error_of_call ac (AuthorizationConfigs api) e)
      ∧ (AuthorizationConfigs api = [] →
         r = ReturnNil ∧ Authorization ac' = ∅).
Proof.
  intros ac. split; [apply Evaluate_total|].
  intros r ac' log (s & Hs & Hr & <- & <-) Hid.
  assert ((∀ config, config ∈ AuthorizationConfigs api → succeeds ac config) →
          r = ReturnNil
          ∧ dom (Authorization (authContext s)) = authorization_keys api)
    as Hall.
  { intros Hok.
    pose proof (authorization_succeeding_reachable ac s Hok Hs) as Hinv.
    unfold authorization_succeeding in Hinv. rewrite Hr in Hinv.
    destruct r as [e| |]; [by destruct (Hid e)|done|].
    split; [done|]. rewrite Hinv. simpl. rewrite dom_empty_L.
    by rewrite (left_id_L ∅ (∪)). }
  split_and!.
  - intros Hok. destruct (Hall Hok) as [-> Hdom]. split_and!; try done.
    intros Hnd. rewrite <-size_dom, Hdom. unfold authorization_keys.
    rewrite size_list_to_set by done. by rewrite length_fmap.
  - intros Hfail.
    pose proof (authorization_failing_reachable ac s Hfail Hs) as Hinv.
    pose proof (well_formed_reachable ac s Hs) as [_ Hwf].
    unfold authorization_failing in Hinv. rewrite Hr in Hinv, Hwf.
    destruct r as [e|e|]; [by destruct (Hid e)| |done]. eauto.
  - intros Hnil. destruct Hall as [-> Hdom].
    { rewrite Hnil. by intros ? ?%elem_of_nil. }
    split; [done|]. unfold authorization_keys in Hdom.
    rewrite Hnil in Hdom. by apply dom_empty_inv_L.
Qed.

(** *** The metadata phase *)

Lemma metadata_collected_keep ac0 s s' :
  Metadata (authContext s') = Metadata (authContext s) →
  metadata_collected ac0 s → metadata_collected ac0 s'.
Proof. unfold metadata_collected. by intros ->. Qed.

Lemma succeeds_not_fails ac0 config :
  succeeds ac0 config → fails ac0 config → False.
Proof.
  intros Hok Hfail.
  by apply (Hfail ac0 (same_request_refl ac0)), Hok.
Qed.

Lemma metadata_collecting_enter ac0 ac log :
  Metadata ac = Metadata ac0 →
  metadata_collecting ac0 (enter MetadataPhase ac log).
Proof.
  intros HM. unfold metadata_collecting. simpl. rewrite HM.
  split_and!; try done; [|by left]. apply Forall_spawn. by intros ? [].
Qed.

Lemma metadata_collecting_step ac0 s s' :
  (∀ config, config ∈ MetadataConfigs (API ac0) →
             succeeds ac0 config ∨ fails ac0 config) →
  well_formed ac0 s → metadata_collecting ac0 s → step s s' →
  metadata_collecting ac0 s'.
Proof.
  intros Hmix Hwf Hinv Hstep. step_cases Hstep.
  all: unfold metadata_collecting in *; rewrite Hph in Hinv.
  - (* a goroutine *)
    destruct ph; [by simpl; rewrite Hph| |by simpl; rewrite Hph].
    destruct Hinv as (Hnd & Hpast & Hlow & Hup).
    destruct Hwf as [Hsame Hwf]. rewrite Hph in Hwf.
    destruct Hwf as (Hfst & Hclosed & Hcalled & Hwchan & Hlast).
    pose proof (Forall_lookup_1 _ _ _ _ Hpast Hi) as Hg1.
    pose proof (Forall_lookup_1 _ _ _ _ Hcalled Hi) as Hg2.
    simpl in Hg1. unfold called in Hg2. simpl in Hg2. rewrite Hnd in Hg.
    simpl. rewrite Hph. simpl. rewrite Hnd. unfold success_waiting in *.
    simpl.
    goroutine_cases g Hg; simpl in *; rewrite ?app_nil_r.
    + split_and!; try done. apply Forall_insert; [done|]. by intros [].
    + split_and!; try done. apply Forall_insert; [done|]. by intros [].
    + destruct Hg2 as (acx & Hsame' & Hacx). split_and!; try done.
      apply Forall_insert.
      * eapply Forall_impl; [done|]. intros cg Hcg Hp Hs.
        destruct (Hcg Hp Hs) as [?|?]; [left|by right].
        apply Exists_app. by left.
      * simpl. intros _ Hs. specialize (Hs acx Hsame'). by rewrite Hacx in Hs.
    + split_and!; try done. apply Forall_insert.
      * eapply Forall_impl; [done|]. intros cg Hcg Hp Hs.
        destruct (Hcg Hp Hs) as [?|?]; [left|by right].
        apply Exists_app. by left.
      * intros _ _. left. apply Exists_app. right.
        by apply Exists_cons_hd.
    + split_and!; try done. by apply Forall_insert.
  - (* close *)
    simpl. rewrite Hph. by destruct ph.
  - (* the loop receives *)
    destruct Hwf as [Hsame Hwf]. rewrite Hph, Hch in Hwf.
    destruct Hwf as (Hfst & Hclosed & Hcalled & Hwchan & Hlast).
    apply Forall_cons in Hwchan as [[Hin (acx & Hacx' & Hresp)] _].
    destruct ph; unfold range_body; simpl;
      destruct (Success resp) eqn:Hsucc; simpl; rewrite ?Hph; try done.
    + by apply metadata_collecting_enter.
    + destruct Hinv as (Hnd & Hpast & Hlow & Hup).
      unfold success_waiting in *. simpl. rewrite Hch in Hpast.
      assert (succeeds ac0 (Evaluator resp)) as Hs.
      { destruct (Hmix _ Hin) as [?|Hf]; [done|].
        specialize (Hf acx Hacx'). by rewrite Hresp in Hf. }
      split_and!; try done.
      * eapply Forall_impl; [done|]. intros cg Hcg Hp Hs'.
        rewrite dom_insert_L.
        destruct (Hcg Hp Hs') as [[[Hhd _]|?]%Exists_cons|?].
        -- right. rewrite <-Hhd. set_solver.
        -- by left.
        -- right. set_solver.
      * rewrite dom_insert_L. set_solver.
      * intros k. rewrite dom_insert_L.
        intros [->%elem_of_singleton|?]%elem_of_union; [|by apply Hup].
        right. eauto.
    + destruct Hinv as (Hnd & Hpast & Hlow & Hup).
      unfold success_waiting in *. simpl. rewrite Hch in Hpast.
      split_and!; try done.
      eapply Forall_impl; [done|]. intros cg Hcg Hp Hs'.
      destruct (Hcg Hp Hs') as [[[_ ?]|?]%Exists_cons|?].
      -- congruence.
      -- by left.
      -- by right.
    + destruct (Error resp); simpl;
        by apply (metadata_collected_keep ac0 s).
  - (* the loop ends *)
    destruct Hwf as [Hsame Hwf]. rewrite Hph in Hwf.
    destruct Hwf as (Hfst & Hclosed & Hcalled & Hwchan & Hlast).
    destruct ph; unfold range_end; simpl.
    + destruct (lastError s); [done|]. by apply metadata_collecting_enter.
    + destruct Hinv as (Hnd & Hpast & Hlow & Hup).
      specialize (Hclosed Hcl). intros k. simpl. split; [by apply Hup|].
      intros [?|(config & Hin & Hs & <-)]; [set_solver|].
      simpl in Hfst. rewrite <-Hfst in Hin.
      apply list_elem_of_fmap in Hin as ([config' g] & -> & Hin).
      pose proof (proj1 (Forall_forall _ _) Hclosed _ Hin) as Hex.
      pose proof (proj1 (Forall_forall _ _) Hpast _ Hin) as Hsent.
      simpl in Hex, Hsent. subst g.
      destruct (Hsent I Hs) as [Hw|?]; [|done].
      unfold success_waiting in Hw. rewrite Hch in Hw.
      by apply Exists_nil in Hw.
    + done.
  - (* the parent context is cancelled *)
    simpl. rewrite Hph. destruct ph; try done.
Qed.

Lemma metadata_collecting_reachable ac0 s :
  (∀ config, config ∈ MetadataConfigs (API ac0) →
             succeeds ac0 config ∨ fails ac0 config) →
  rtc step (start ac0) s → metadata_collecting ac0 s.
Proof.
  intros Hmix. apply reachable_invariant; [done|].
  intros. by eapply metadata_collecting_step.
Qed.

Lemma metadata_phase_step s s' :
  control s = Running MetadataPhase → step s s' →
  control s' = Running MetadataPhase
  ∨ control s' = Running AuthorizationPhase.
Proof.
  intros Hc Hstep. step_cases Hstep; rewrite Hc in Hph; simplify_eq.
  - left. simpl. done.
  - by left.
  - left. unfold range_body. simpl. by destruct (Success resp).
  - by right.
  - by left.
Qed.

(** *** What a denial leaves, and an empty identity phase *)

Lemma authorization_logged_keep ac0 s s' :
  control s' = control s →
  Authorization (authContext s') = Authorization (authContext s) →
  observations AuthorizationPhase (authCtxLog s')
  = observations AuthorizationPhase (authCtxLog s) →
  authorization_logged ac0 s → authorization_logged ac0 s'.
Proof. unfold authorization_logged. by intros -> -> ->. Qed.

Lemma authorization_logged_running ac0 s ph :
  control s = Running ph → authorization_logged ac0 s →
  ∃ objs,
    observations AuthorizationPhase (authCtxLog s) = recorded <$> objs
    ∧ Authorization (authContext s) = record_all objs (Authorization ac0).
Proof. unfold authorization_logged. by intros ->. Qed.

Lemma authorization_logged_step ac0 s s' :
  well_formed ac0 s → authorization_logged ac0 s → step s s' →
  authorization_logged ac0 s'.
Proof.
  intros Hwf Hinv Hstep. step_cases Hstep.
  - eapply authorization_logged_keep; [| | |done]; try done.
    simpl. by eapply goroutine_step_observations.
  - by eapply authorization_logged_keep.
  - destruct (authorization_logged_running _ _ _ Hph Hinv)
      as (objs & Hobs & HA).
    destruct Hwf as [Hsame Hwf]. rewrite Hph, Hch in Hwf.
    destruct Hwf as (Hfst & Hclosed & Hcalled & Hwchan & Hlast).
    apply Forall_cons in Hwchan as [[Hin (acx & Hacx' & Hresp)] _].
    unfold authorization_logged.
    destruct ph; unfold range_body; simpl;
      destruct (Success resp) eqn:Hsucc; simpl; rewrite ?Hph;
      rewrite ?observations_unobserved by done; eauto.
    + exists ((as_AuthorizationConfig (Evaluator resp), Object resp) :: objs).
      rewrite observations_observed by done. simpl.
      by rewrite Hobs, HA.
    + destruct Hresp as (authObj & e & _ & ->). simpl.
      rewrite observations_observed by done. rewrite Hobs. eauto.
  - destruct (authorization_logged_running _ _ _ Hph Hinv)
      as (objs & Hobs & HA).
    unfold authorization_logged.
    destruct ph; unfold range_end; simpl; eauto.
    destruct (lastError s); simpl; eauto.
  - by eapply authorization_logged_keep.
Qed.

Lemma authorization_logged_reachable ac0 s :
  rtc step (start ac0) s → authorization_logged ac0 s.
Proof.
  apply reachable_invariant; [by exists []|].
  intros. by eapply authorization_logged_step.
Qed.

Lemma identity_skipped_step ac0 s s' :
  identity_skipped ac0 s → step s s' → identity_skipped ac0 s'.
Proof.
  intros (HI & Hobs & Hinv) Hstep. step_cases Hstep.
  all: rewrite Hph in Hinv; unfold identity_skipped.
  - simpl. rewrite Hph. erewrite goroutine_step_observations by done.
    destruct ph; try done. destruct Hinv as (Hgs & _).
    by rewrite Hgs in Hi.
  - simpl. rewrite Hph. by destruct ph.
  - destruct ph; unfold range_body; simpl.
    + destruct Hinv as (_ & Hnil & _). congruence.
    + destruct (Success resp); simpl; rewrite Hph;
        by rewrite observations_unobserved.
    + destruct (Success resp); simpl; rewrite ?Hph;
        [by rewrite observations_unobserved|].
      destruct (Error resp); simpl; by rewrite observations_unobserved.
  - destruct ph; unfold range_end; simpl; try done.
    destruct Hinv as (_ & _ & ->). done.
  - simpl. rewrite Hph. by destruct ph.
Qed.

Lemma identity_skipped_reachable ac0 s :
  IdentityConfigs (API ac0) = [] →
  rtc step (start ac0) s → identity_skipped ac0 s.
Proof.
  intros Hnil. apply invariant_rtc.
  - unfold identity_skipped. simpl. by rewrite Hnil.
  - intros. by eapply identity_skipped_step.
Qed.

(** C2 (amended): with an empty list of identity evaluators the
    identity loop finds its channel closed and empty and returns [nil]:
    [Evaluate] never returns the identity error and records no
    identity; it goes on to the metadata and authorization phases, and
    returns [nil] (allow) when every authorization evaluator
    succeeds. *)
Theorem Evaluate_no_identity_evaluators parentCtx req api :
  let ac := NewAuthContext parentCtx req api in
  IdentityConfigs api = [] →
  (∃ r ac' log, Evaluate ac r ac' log)
  ∧ ∀ r ac' log, Evaluate ac r ac' log →
      (∀ e, r ≠ ReturnIdentityError e)
      ∧ Identity ac' = ∅
      ∧ observations IdentityPhase log = []
      ∧ ((∀ config, config ∈ AuthorizationConfigs api → succeeds ac config) →
         r = ReturnNil).
Proof.
  intros ac Hnil. split; [apply Evaluate_total|].
  intros r ac' log (s & Hs & Hr & <- & <-).
  destruct (identity_skipped_reachable ac s Hnil Hs) as (HI & Hobs & Hinv).
  rewrite Hr in Hinv. split_and!; try done.
  - intros e ->. done.
  - intros Hok.
    pose proof (authorization_succeeding_reachable ac s Hok Hs) as Hauth.
    unfold authorization_succeeding in Hauth. rewrite Hr in Hauth.
    by destruct r.
Qed.

Lemma Evaluate_denied_log ac r ac' log e :
  Evaluate ac r ac' log → r = ReturnAuthorizationError e →
  ∃ conf objs,
    observations AuthorizationPhase log
    = LogError AuthorizationPhase conf (Some e) :: (recorded <$> objs)
    ∧ Authorization ac' = record_all objs (Authorization ac).
Proof.
  intros (s & Hs & Hr & <- & <-) ->.
  pose proof (authorization_logged_reachable ac s Hs) as Hinv.
  unfold authorization_logged in Hinv. by rewrite Hr in Hinv.
Qed.

Lemma run_Evaluate schedule ac s r :
  run schedule (start ac) = Some s → control s = Returned r →
  Evaluate ac r (authContext s) (authCtxLog s).
Proof. intros Hrun Hr. exists s. split; [by eapply run_rtc|done]. Qed.

(** *** The parent context *)

Lemma sched_step_with_parent b c s s' :
  (∀ config (acx : AuthContext Obj) done,
     Call config (set_ParentContext acx done) = Call config acx) →
  c ≠ CancelParent → sched_step c s = Some s' →
  sched_step c (with_parent b s) = Some (with_parent b s').
Proof.
  intros Hcall Hc Hstep. unfold sched_step in *. simpl.
  destruct (control s) as [ph|] eqn:Hph; [|done].
  destruct c as [i| | |]; [| | |done].
  - destruct (goroutines s !! i) as [[config g]|]; [|done].
    assert (goroutine_step (runner ph)
              (set_ParentContext (authContext s) b) (ctxDone s) config g
            = goroutine_step (runner ph) (authContext s) (ctxDone s)
                config g) as ->.
    { destruct g; simpl; try done. by rewrite Hcall. }
    destruct (goroutine_step _ _ _ _ _) as [[[[g' sent] cancel] logged]|];
      by simplify_eq.
  - destruct (negb (closed s) && _); by simplify_eq.
  - destruct (respChannel s) as [|resp rest].
    + destruct (closed s); [|done]. simplify_eq. f_equal.
      destruct ph; unfold range_end; simpl; try done.
      by destruct (lastError s).
    + simplify_eq. f_equal.
      destruct ph; unfold range_body; simpl; destruct (Success resp);
        simpl; try done.
      by destruct (Error resp).
Qed.

Lemma sched_step_CancelParent b s s' :
  sched_step CancelParent s = Some s' → with_parent b s' = with_parent b s.
Proof.
  unfold sched_step. destruct (control s); [|done].
  destruct (ParentContext _); [done|]. by intros [= <-].
Qed.

Lemma run_without_CancelParent b schedule s s' :
  (∀ config (acx : AuthContext Obj) done,
     Call config (set_ParentContext acx done) = Call config acx) →
  run schedule s = Some s' →
  run (without_CancelParent schedule) (with_parent b s)
  = Some (with_parent b s').
Proof.
  intros Hcall. revert s.
  induction schedule as [|c schedule IH]; intros s Hrun; simpl in Hrun.
  - by simplify_eq.
  - destruct (sched_step c s) as [s1|] eqn:Hc; [|done].
    assert (c = CancelParent ∨ c ≠ CancelParent) as [->|Hne]
      by (destruct c; auto).
    + simpl. rewrite <-(sched_step_CancelParent b _ _ Hc). by apply IH.
    + assert (without_CancelParent (c :: schedule)
              = c :: without_CancelParent schedule) as -> by (by destruct c).
      simpl. rewrite (sched_step_with_parent b c s s1) by done.
      by apply IH.
Qed.

Lemma only_Receive_writes c s s' :
  sched_step c s = Some s' → c ≠ Receive →
  Identity (authContext s') = Identity (authContext s)
  ∧ Metadata (authContext s') = Metadata (authContext s)
  ∧ Authorization (authContext s') = Authorization (authContext s).
Proof.
  unfold sched_step. destruct (control s); [|done].
  destruct c as [i| | |]; intros Hstep Hc; [| |done|].
  - destruct (goroutines s !! i) as [[config g]|]; [|done].
    destruct (goroutine_step _ _ _ _ _) as [[[[g' sent] cancel] logged]|];
      by simplify_eq.
  - destruct (negb (closed s) && _); by simplify_eq.
  - destruct (ParentContext _); by simplify_eq.
Qed.

(** C6 (amended): cancelling the parent context while a phase is in
    progress makes [Evaluate] return no failure of its own.  Whatever
    error [Evaluate] returns is the error returned by a call of one of
    the evaluators of the phase; and with evaluators that do not read
    the parent context, a schedule in which the parent context is
    cancelled leads to the state of the same schedule without the
    cancellations: same return, same result maps, same log.  Only the
    context derived by a fan-out is observed: a goroutine that finds it
    done returns without sending a response, and no step but those of
    the range loops changes a result map. *)
Theorem Evaluate_ignores_parent_context parentCtx req api :
  let ac := NewAuthContext parentCtx req api in
  (∃ r ac' log, Evaluate ac r ac' log)
  ∧ (∀ r ac' log, Evaluate ac r ac' log →
       match r with
       | ReturnIdentityError e => error_of_call ac (IdentityConfigs api) e
       | ReturnAuthorizationError e =>
           error_of_call ac (AuthorizationConfigs api) e
       | ReturnNil => True
       end)
  ∧ ((∀ config (acx : AuthContext Obj) done,
        Call config (set_ParentContext acx done) = Call config acx) →
     ∀ schedule s, run schedule (start ac) = Some s →
       ∃ s0, run (without_CancelParent schedule) (start ac) = Some s0
             ∧ control s0 = control s
             ∧ Identity (authContext s0) = Identity (authContext s)
             ∧ Metadata (authContext s0) = Metadata (authContext s)
             ∧ Authorization (authContext s0)
               = Authorization (authContext s)
             ∧ authCtxLog s0 = authCtxLog s)
  ∧ (∀ r (acx : AuthContext Obj) config,
       goroutine_step r acx true config AtSelect
       = Some (AtCancel None, [], false, [LogContextAborted config]))
  ∧ (∀ c s s', sched_step c s = Some s' → c ≠ Receive →
       Identity (authContext s') = Identity (authContext s)
       ∧ Metadata (authContext s') = Metadata (authContext s)
       ∧ Authorization (authContext s') = Authorization (authContext s)).
Proof.
  intros ac. split; [apply Evaluate_total|]. split_and!.
  - intros r ac' log (s & Hs & Hr & _).
    pose proof (well_formed_reachable ac s Hs) as [_ Hwf].
    rewrite Hr in Hwf. by destruct r.
  - intros Hcall schedule s Hrun. exists (with_parent parentCtx s).
    split; [|done].
    by apply (run_without_CancelParent parentCtx) in Hrun.
  - done.
  - apply only_Receive_writes.
Qed.

(** *** The channel never fills up, and every run returns *)

Lemma unsent_insert (gs : list (AuthConfigEvaluator * Goroutine Obj))
    i config g g' :
  gs !! i = Some (config, g) →
  unsent (<[i := (config, g')]> gs) + sends_left g
  = unsent gs + sends_left g'.
Proof.
  unfold unsent. revert i.
  induction gs as [|cg gs IH]; intros [|i] Hi; simplify_eq/=; [lia|].
  specialize (IH _ Hi). lia.
Qed.

Lemma unsent_spawn (l : list AuthConfigEvaluator) :
  unsent ((λ config, (config, @AtSelect Obj)) <$> l) = List.length l.
Proof. unfold unsent. induction l as [|c l IH]; [done|]. cbn in *. lia. Qed.

Lemma unsent_lookup (gs : list (AuthConfigEvaluator * Goroutine Obj))
    i config g :
  gs !! i = Some (config, g) → sends_left g ≤ unsent gs.
Proof.
  unfold unsent. revert i.
  induction gs as [|cg gs IH]; intros [|i] Hi; simplify_eq/=; [lia|].
  specialize (IH _ Hi). lia.
Qed.

Lemma goroutine_step_sends r ac done config g g' sent cancel logged :
  goroutine_step r ac done config g = Some (g', sent, cancel, logged) →
  sends_left g' + List.length sent ≤ sends_left g.
Proof. intros Hg. goroutine_cases g Hg; simpl; lia. Qed.

Lemma within_capacity_enter ph ac log : within_capacity (enter ph ac log).
Proof. unfold within_capacity. simpl. by rewrite unsent_spawn. Qed.

Lemma within_capacity_step s s' :
  within_capacity s → step s s' → within_capacity s'.
Proof.
  unfold within_capacity. intros Hinv Hstep. step_cases Hstep.
  - rewrite Hph in Hinv. simpl. rewrite Hph, length_app.
    apply goroutine_step_sends in Hg.
    pose proof (unsent_insert _ _ _ _ g' Hi). lia.
  - simpl. by rewrite Hph in Hinv |- *.
  - rewrite Hph, Hch in Hinv. simpl in Hinv.
    destruct ph; unfold range_body; simpl; destruct (Success resp); simpl;
      try destruct (Error resp); simpl; rewrite ?unsent_spawn, ?Hph;
      try done; lia.
  - destruct ph; unfold range_end; simpl; try destruct (lastError s); simpl;
      by rewrite ?unsent_spawn.
  - simpl. by rewrite Hph in Hinv |- *.
Qed.

(** X1: the buffer of the channel is never exceeded, so that no send on it
    blocks: in every state [Evaluate] can reach, the channel holds at
    most [len(configs)] responses, and fewer when a goroutine is about
    to send. *)
Theorem respChannel_within_capacity parentCtx req api s ph :
  rtc step (start (NewAuthContext parentCtx req api)) s →
  control s = Running ph →
  List.length (respChannel s) ≤ List.length (configs ph api)
  ∧ ∀ i config authObj err,
      goroutines s !! i = Some (config, AtSend authObj err) →
      List.length (respChannel s) < List.length (configs ph api).
Proof.
  intros Hs Hph.
  assert (within_capacity s) as Hinv.
  { revert Hs. apply invariant_rtc; [apply within_capacity_enter|].
    intros s1 s2 _. apply within_capacity_step. }
  destruct (well_formed_reachable _ _ Hs) as [[_ Hapi] _].
  unfold within_capacity in Hinv. rewrite Hph, Hapi in Hinv. simpl in Hinv.
  split; [lia|]. intros i config authObj err Hi.
  apply unsent_lookup in Hi. simpl in Hi. lia.
Qed.

Lemma run_app schedule schedule' s :
  run (schedule ++ schedule') s = run schedule s ≫= run schedule'.
Proof.
  revert s. induction schedule as [|c schedule IH]; intros s; simpl; [done|].
  destruct (sched_step c s); simpl; [apply IH|done].
Qed.

Lemma rtc_run s s' : rtc step s s' → ∃ schedule, run schedule s = Some s'.
Proof.
  induction 1 as [s|s s1 s' [c Hc] _ [schedule IH]]; [by exists []|].
  exists (c :: schedule). simpl. by rewrite Hc.
Qed.

Lemma run_measure schedule s s' :
  run schedule s = Some s' → List.length schedule + measure s' ≤ measure s.
Proof.
  revert s. induction schedule as [|c schedule IH]; intros s Hrun; simpl in *.
  - simplify_eq. lia.
  - destruct (sched_step c s) as [s1|] eqn:Hc; [|done].
    apply IH in Hrun. assert (step s s1) as Hstep by (by exists c).
    apply step_measure in Hstep. lia.
Qed.

(** *** Who has sent, and what was observed *)

Lemma senders_spawn (l : list AuthConfigEvaluator) :
  senders ((λ config, (config, @AtSelect Obj)) <$> l) = [].
Proof.
  unfold senders. induction l as [|c l IH]; [done|]. simpl.
  rewrite filter_cons_False; [done|]. simpl. tauto.
Qed.

Lemma senders_all (gs : list (AuthConfigEvaluator * Goroutine Obj)) :
  Forall (λ cg, cg.2 = Exited) gs → senders gs = gs.*1.
Proof.
  unfold senders. induction 1 as [|[c g] gs Hg _ IH]; [done|].
  simpl in Hg. subst g. rewrite filter_cons_True by done.
  by rewrite !fmap_cons, IH.
Qed.

Lemma senders_insert_same (gs : list (AuthConfigEvaluator * Goroutine Obj))
    i config g g' :
  gs !! i = Some (config, g) → (past_send g ↔ past_send g') →
  senders (<[i := (config, g')]> gs) = senders gs.
Proof.
  unfold senders. intros Hi Hiff. revert i Hi.
  induction gs as [|cg gs IH]; intros [|i] Hi; simplify_eq/=.
  - destruct (decide (past_send g)) as [Hp|Hp].
    + rewrite !filter_cons_True; simpl; tauto.
    + rewrite !filter_cons_False; simpl; tauto.
  - specialize (IH _ Hi). rewrite !filter_cons.
    destruct (decide (past_send cg.2)); [rewrite !fmap_cons|]; by rewrite IH.
Qed.

Lemma senders_insert_new (gs : list (AuthConfigEvaluator * Goroutine Obj))
    i config g g' :
  gs !! i = Some (config, g) → ¬ past_send g → past_send g' →
  senders (<[i := (config, g')]> gs) ≡ₚ config :: senders gs.
Proof.
  unfold senders. intros Hi Hno Hyes. revert i Hi.
  induction gs as [|cg gs IH]; intros [|i] Hi; simplify_eq/=.
  - rewrite filter_cons_True by done. by rewrite filter_cons_False.
  - specialize (IH _ Hi). rewrite !filter_cons.
    destruct (decide (past_send cg.2)); [|done].
    rewrite !fmap_cons, IH. apply perm_swap.
Qed.

Lemma observed_keys_observed ph (entry : LogEntry Obj) conf log :
  observed_by ph entry = true → entry_conf entry = Some conf →
  observed_keys ph (entry :: log) = conf :: observed_keys ph log.
Proof.
  intros Hobs Hconf. unfold observed_keys.
  rewrite observations_observed by done. simpl. by rewrite Hconf.
Qed.

Lemma observed_keys_unobserved ph (entry : LogEntry Obj) log :
  observed_by ph entry = false →
  observed_keys ph (entry :: log) = observed_keys ph log.
Proof.
  intros Hobs. unfold observed_keys. by rewrite observations_unobserved.
Qed.

(** A step of a goroutine keeps the tally while nothing is cancelled. *)
Lemma tally_goroutine ph s i config g g' sent cancel logged ac0 :
  well_formed ac0 s → control s = Running ph → ctxDone s = false →
  goroutines s !! i = Some (config, g) →
  goroutine_step (runner ph) (authContext s) (ctxDone s) config g
  = Some (g', sent, cancel, logged) →
  tally ph s →
  tally ph (after_goroutine s i config (g', sent, cancel, logged)).
Proof.
  intros Hwf Hph Hnd Hi Hg Ht. unfold tally in *. simpl.
  unfold observed_keys.
  rewrite (goroutine_step_observations _ _ _ _ _ _ _ _ _ ph
             (authCtxLog s) Hg).
  fold (observed_keys ph (authCtxLog s)). rewrite Hnd in Hg.
  goroutine_cases g Hg;
    rewrite ?(senders_insert_same _ _ _ _ _ Hi) by done;
    rewrite ?app_nil_r; try done.
  - rewrite (senders_insert_new _ _ _ _ _ Hi) by (simpl; tauto).
    rewrite fmap_app, app_assoc, Ht. simpl.
    by rewrite <-Permutation_cons_append.
  - rewrite (senders_insert_new _ _ _ _ _ Hi) by (simpl; tauto).
    rewrite fmap_app, app_assoc, Ht. simpl.
    by rewrite <-Permutation_cons_append.
Qed.

(** The loop observing the head of the channel keeps the tally. *)
Lemma tally_receive ph s resp rest (entry : LogEntry Obj) s' :
  respChannel s = resp :: rest → tally ph s →
  observed_by ph entry = true →
  entry_conf entry = Some (phase_key ph (Evaluator resp)) →
  authCtxLog s' = entry :: authCtxLog s → respChannel s' = rest →
  goroutines s' = goroutines s →
  tally ph s'.
Proof.
  unfold tally. intros Hch Ht Hobs Hconf -> -> ->.
  rewrite (observed_keys_observed _ _ _ _ Hobs Hconf).
  rewrite Hch in Ht. simpl in *. rewrite <-Ht.
  by rewrite Permutation_middle.
Qed.

(** *** The identity phase in general *)

Lemma identity_outcome_step ac0 s s' :
  well_formed ac0 s → identity_outcome ac0 s → step s s' →
  identity_outcome ac0 s'.
Proof.
  intros Hwf Hinv Hstep. pose proof Hwf as [Hsame Hwf'].
  unfold identity_outcome in *. step_cases Hstep; rewrite Hph in Hinv, Hwf'.
  - simpl. rewrite Hph. destruct ph; [|done|done].
    destruct Hinv as (HI & HM & HA & Hcase). split_and!; try done.
    destruct Hcase as [Hsucc|(Hnd & Hgs & Hchan & Hlog & Ht & Hlast)].
    { left. unfold success_sent in *. simpl. apply Exists_app. by left. }
    destruct Hwf' as (Hcfg & Hclosed & Hcalled & Hsent & Hlasterr).
    pose proof (tally_goroutine _ _ _ _ _ _ _ _ _ _ Hwf Hph Hnd Hi Hg Ht)
      as Ht'.
    pose proof (goroutine_step_observations _ _ _ _ _ _ _ _ _ IdentityPhase
                  (authCtxLog s) Hg) as Hobs.
    pose proof (Forall_lookup_1 _ _ _ _ Hgs Hi) as Hg1.
    pose proof (Forall_lookup_1 _ _ _ _ Hcalled Hi) as Hg2.
    unfold called in Hg2. simpl in Hg1, Hg2. rewrite Hnd in Hg.
    simpl. rewrite Hobs, Hnd. clear Hobs.
    goroutine_cases g Hg;
      unfold tally in Ht' |- *; simpl in Ht' |- *;
      rewrite ?app_nil_r in Ht' |- *.
    + right. split_and!; try done. by apply Forall_insert.
    + right. split_and!; try done. by apply Forall_insert.
    + right. simpl.
      split_and!; try done.
      * apply Forall_insert; [done|]. simpl.
        destruct Hg2 as (acx & Hacx & Hcall). by exists acx, authObj, e.
      * apply Forall_app. split; [done|]. by apply Forall_singleton.
    + left. unfold success_sent. simpl. apply Exists_app. right.
      by apply Exists_cons_hd.
    + destruct err as [e|]; [|done]. right. simpl.
      split_and!; try done. by apply Forall_insert.
  - simpl. rewrite Hph. destruct ph; [|done|done].
    destruct Hinv as (HI & HM & HA & Hcase). split_and!; try done.
  - rewrite Hch in Hwf'.
    destruct Hwf' as (Hcfg & Hclosed & Hcalled & Hsent & Hlasterr).
    apply Forall_cons in Hsent as [[Hin (acx & Hacx & Hresp)] _].
    destruct ph; unfold range_body; simpl.
    + destruct Hinv as (HI & HM & HA & Hcase).
      destruct (Success resp) eqn:Hok; simpl.
      * right. exists (Evaluator resp), acx, (Object resp).
        rewrite HI. by rewrite insert_empty.
      * rewrite Hph. split_and!; try done.
        destruct Hcase as [Hsucc|(Hnd & Hgs & Hchan & Hlog & Ht & Hlast)].
        { left. by eapply success_sent_rest. }
        right. simpl. rewrite Hch in Hchan.
        apply Forall_cons in Hchan as [_ Hrest].
        destruct Hresp as (authObj & e & _ & He).
        rewrite observations_observed by done.
        split_and!; try done.
        -- by apply Forall_cons.
        -- by apply (tally_receive IdentityPhase s resp rest
                       (LogError IdentityPhase
                          (as_IdentityConfig (Evaluator resp)) (Error resp))).
        -- by rewrite He.
    + destruct (Success resp); simpl; by rewrite Hph.
    + destruct (Success resp); simpl; [by rewrite Hph|].
      by destruct (Error resp).
  - destruct Hwf' as (Hcfg & Hclosed & Hcalled & Hsent & Hlasterr).
    specialize (Hclosed Hcl).
    destruct ph; unfold range_end; simpl; [|done|done].
    destruct Hinv as (HI & HM & HA & Hcase).
    destruct Hcase as [Hsucc|(Hnd & Hgs & Hchan & Hlog & Ht & Hlast)].
    { unfold success_sent in Hsucc. rewrite Hch in Hsucc.
      by apply Exists_nil in Hsucc. }
    unfold tally in Ht. rewrite Hch, (senders_all _ Hclosed), Hcfg in Ht.
    simpl in Ht. rewrite app_nil_r in Ht.
    destruct (lastError s) as [e|] eqn:He; simpl.
    + split_and!; try done. intros config Hin. simpl in Hcfg.
      rewrite <-Hcfg in Hin.
      apply list_elem_of_fmap in Hin as ([config' g] & -> & Hin).
      pose proof (proj1 (Forall_forall _ _) Hclosed _ Hin) as Hex.
      pose proof (proj1 (Forall_forall _ _) Hgs _ Hin) as Hf.
      simpl in Hex, Hf. by rewrite Hex in Hf.
    + left. split; [|done]. unfold observed_keys in Ht.
      rewrite (Hlast eq_refl) in Ht. simpl in Ht.
      apply Permutation_nil in Ht.
      by apply fmap_nil_inv in Ht.
  - simpl. rewrite Hph. destruct ph; [|done|done].
    destruct Hinv as (HI & HM & HA & Hcase). split_and!; try done.
Qed.

Lemma identity_outcome_reachable parentCtx req api s :
  rtc step (start (NewAuthContext parentCtx req api)) s →
  identity_outcome (NewAuthContext parentCtx req api) s.
Proof.
  apply reachable_invariant.
  - unfold identity_outcome. simpl. split_and!; try done. right.
    split_and!; try done.
    + by apply Forall_spawn.
    + unfold tally. simpl. by rewrite senders_spawn.
  - intros. by eapply identity_outcome_step.
Qed.

(** X3: [Evaluate] returns the identity error only when every identity
    evaluator has failed: each one was called on the request and
    returned an error, the identity loop observed one failure for each
    and no success, the list of identity evaluators is not empty, the
    error returned is one of theirs, and the three result maps are left
    empty. *)
Theorem Evaluate_identity_denied_all_failed parentCtx req api e ac' log :
  let ac := NewAuthContext parentCtx req api in
  Evaluate ac (ReturnIdentityError e) ac' log →
  IdentityConfigs api ≠ []
  ∧ error_of_call ac (IdentityConfigs api) e
  ∧ (∀ config, config ∈ IdentityConfigs api → failed_call ac config)
  ∧ Forall is_LogError (observations IdentityPhase log)
  ∧ observed_keys IdentityPhase log ≡ₚ as_IdentityConfig <$> IdentityConfigs api
  ∧ Identity ac' = ∅ ∧ Metadata ac' = ∅ ∧ Authorization ac' = ∅.
Proof.
  intros ac (s & Hs & Hr & <- & <-).
  pose proof (identity_outcome_reachable _ _ _ _ Hs) as Hinv.
  pose proof (well_formed_reachable _ _ Hs) as [_ Hwf].
  unfold identity_outcome in Hinv. rewrite Hr in Hinv, Hwf.
  destruct Hinv as (HI & HM & HA & Hfail & Hlog & Hperm).
  split_and!; try done.
  destruct Hwf as (config & _ & _ & Hin & _). intros Hnil.
  simpl in Hin. rewrite Hnil in Hin. by apply elem_of_nil in Hin.
Qed.

(** *** The authorization phase in general *)

Lemma observed_keys_nil ph (log : list (LogEntry Obj)) :
  observations ph log = [] → observed_keys ph log = [].
Proof. unfold observed_keys. by intros ->. Qed.

Lemma observed_keys_goroutine r ac done config (g : Goroutine Obj)
    g' sent cancel logged ph log :
  goroutine_step r ac done config g = Some (g', sent, cancel, logged) →
  observed_keys ph (logged ++ log) = observed_keys ph log.
Proof.
  intros Hg. unfold observed_keys.
  by rewrite (goroutine_step_observations _ _ _ _ _ _ _ _ _ ph log Hg).
Qed.

Local Opaque observed_keys.

Lemma authorization_outcome_step ac0 s s' :
  well_formed ac0 s → authorization_outcome ac0 s → step s s' →
  authorization_outcome ac0 s'.
Proof.
  intros Hwf Hinv Hstep. pose proof Hwf as [Hsame Hwf'].
  unfold authorization_outcome in *.
  step_cases Hstep; rewrite Hph in Hinv, Hwf'.
  - pose proof (goroutine_step_observations _ _ _ _ _ _ _ _ _
                  AuthorizationPhase (authCtxLog s) Hg) as Hobs.
    pose proof (observed_keys_goroutine _ _ _ _ _ _ _ _ _
                  AuthorizationPhase (authCtxLog s) Hg) as Hkeys.
    simpl. rewrite Hph, Hobs. destruct ph; [done|done|].
    destruct Hinv as [Hfail|(Hnd & Hgs & Hchan & Hlog & Ht & Hdom)].
    { left. unfold failure_sent in *. simpl. apply Exists_app. by left. }
    destruct Hwf' as (Hcfg & Hclosed & Hcalled & Hsent & Hlasterr).
    pose proof (tally_goroutine _ _ _ _ _ _ _ _ _ _ Hwf Hph Hnd Hi Hg Ht)
      as Ht'.
    pose proof (Forall_lookup_1 _ _ _ _ Hgs Hi) as Hg1.
    pose proof (Forall_lookup_1 _ _ _ _ Hcalled Hi) as Hg2.
    unfold called in Hg2. simpl in Hg1, Hg2. rewrite Hnd in Hg.
    rewrite Hkeys, Hnd. clear Hobs Hkeys.
    goroutine_cases g Hg;
      unfold tally in Ht' |- *; simpl in Ht' |- *;
      rewrite ?app_nil_r in Ht' |- *.
    + right. split_and!; try done. by apply Forall_insert.
    + right. split_and!; try done. by apply Forall_insert.
    + left. unfold failure_sent. simpl. apply Exists_app. right.
      by apply Exists_cons_hd.
    + right. split_and!; try done.
      * apply Forall_insert; [done|]. simpl.
        destruct Hg2 as (acx & Hacx & Hcall). by exists acx, authObj.
      * apply Forall_app. split; [done|]. by apply Forall_singleton.
    + destruct err as [e|]; [done|]. right. simpl.
      split_and!; try done. by apply Forall_insert.
  - simpl. rewrite Hph. by destruct ph.
  - rewrite Hch in Hwf'.
    destruct Hwf' as (Hcfg & Hclosed & Hcalled & Hsent & Hlasterr).
    apply Forall_cons in Hsent as [[Hin (acx & Hacx & Hresp)] _].
    destruct ph; unfold range_body; simpl.
    + destruct Hinv as [Hobs HA].
      destruct (Success resp); simpl; [|rewrite Hph];
        by rewrite observations_unobserved.
    + destruct Hinv as [Hobs HA].
      destruct (Success resp); simpl; rewrite Hph;
        by rewrite observations_unobserved.
    + destruct (Success resp) eqn:Hok; simpl.
      * rewrite Hph.
        destruct Hinv as [Hfail|(Hnd & Hgs & Hchan & Hlog & Ht & Hdom)].
        { left. by eapply failure_sent_rest. }
        right. simpl. rewrite Hch in Hchan.
        apply Forall_cons in Hchan as [_ Hrest].
        rewrite observations_observed by done.
        rewrite (observed_keys_observed AuthorizationPhase _
                   (as_AuthorizationConfig (Evaluator resp))) by done.
        split_and!; try done.
        -- by apply Forall_cons.
        -- by apply (tally_receive AuthorizationPhase s resp rest
                       (LogObject AuthorizationPhase
                          (as_AuthorizationConfig (Evaluator resp))
                          (Object resp))).
        -- by rewrite dom_insert_L, list_to_set_cons, Hdom.
      * destruct Hresp as (authObj & e & _ & He). by rewrite He.
  - destruct Hwf' as (Hcfg & Hclosed & Hcalled & Hsent & Hlasterr).
    specialize (Hclosed Hcl).
    destruct ph; unfold range_end; simpl.
    + by destruct (lastError s).
    + destruct Hinv as [Hobs HA]. right. split_and!; try done.
      * by apply Forall_spawn.
      * by rewrite Hobs.
      * unfold tally. simpl.
        by rewrite (observed_keys_nil _ _ Hobs), senders_spawn.
      * by rewrite (observed_keys_nil _ _ Hobs), HA, dom_empty_L.
    + destruct Hinv as [Hfail|(Hnd & Hgs & Hchan & Hlog & Ht & Hdom)].
      { unfold failure_sent in Hfail. rewrite Hch in Hfail.
        by apply Exists_nil in Hfail. }
      unfold tally in Ht. rewrite Hch, (senders_all _ Hclosed), Hcfg in Ht.
      simpl in Ht. rewrite app_nil_r in Ht.
      split_and!; try done.
      * intros config Hin. simpl in Hcfg. rewrite <-Hcfg in Hin.
        apply list_elem_of_fmap in Hin as ([config' g] & -> & Hin).
        pose proof (proj1 (Forall_forall _ _) Hclosed _ Hin) as Hex.
        pose proof (proj1 (Forall_forall _ _) Hgs _ Hin) as Hf.
        simpl in Hex, Hf. by rewrite Hex in Hf.
      * rewrite Hdom. unfold authorization_keys. by rewrite Ht.
  - simpl. rewrite Hph. by destruct ph.
Qed.

Lemma authorization_outcome_reachable parentCtx req api s :
  rtc step (start (NewAuthContext parentCtx req api)) s →
  authorization_outcome (NewAuthContext parentCtx req api) s.
Proof.
  apply reachable_invariant; [done|].
  intros. by eapply authorization_outcome_step.
Qed.

(** X4: [Evaluate] returns [nil] only when the request passed the
    pipeline: there is no identity evaluator or one of them was called
    without error, every authorization evaluator was called without
    error, and the authorization loop observed one success for each and
    no failure, recording each under its key. *)
Theorem Evaluate_allowed_all_passed parentCtx req api ac' log :
  let ac := NewAuthContext parentCtx req api in
  Evaluate ac ReturnNil ac' log →
  (IdentityConfigs api = []
   ∨ ∃ config, config ∈ IdentityConfigs api ∧ passed_call ac config)
  ∧ (∀ config, config ∈ AuthorizationConfigs api → passed_call ac config)
  ∧ Forall is_LogObject (observations AuthorizationPhase log)
  ∧ observed_keys AuthorizationPhase log
    ≡ₚ as_AuthorizationConfig <$> AuthorizationConfigs api
  ∧ dom (Authorization ac') = authorization_keys api.
Proof.
  intros ac (s & Hs & Hr & <- & <-).
  pose proof (identity_outcome_reachable _ _ _ _ Hs) as Hid.
  pose proof (authorization_outcome_reachable _ _ _ _ Hs) as Hinv.
  unfold identity_outcome in Hid. unfold authorization_outcome in Hinv.
  rewrite Hr in Hid, Hinv. split; [|done].
  destruct Hid as [[Hnil _]|(config & acx & obj & Hin & Hacx & Hcall & _)];
    [by left|].
  right. exists config. split; [done|]. by exists acx, obj.
Qed.

Lemma passed_call_succeeds ac0 config :
  passed_call ac0 config → succeeds ac0 config ∨ fails ac0 config →
  succeeds ac0 config.
Proof.
  intros (acx & obj & Hacx & Hcall) [Hok|Hfail]; [done|].
  specialize (Hfail acx Hacx). by rewrite Hcall in Hfail.
Qed.

Lemma failed_call_fails ac0 config :
  failed_call ac0 config → succeeds ac0 config ∨ fails ac0 config →
  fails ac0 config.
Proof.
  intros (acx & obj & e & Hacx & Hcall) [Hok|Hfail]; [|done].
  specialize (Hok acx Hacx). by rewrite Hcall in Hok.
Qed.

(** What [Evaluate] returns, when each identity and authorization
    evaluator either succeeds or fails on the request. *)
Lemma Evaluate_decision_only_if parentCtx req api r ac' log :
  let ac := NewAuthContext parentCtx req api in
  (∀ config,
     config ∈ IdentityConfigs api ∨ config ∈ AuthorizationConfigs api →
     succeeds ac config ∨ fails ac config) →
  Evaluate ac r ac' log →
  match r with
  | ReturnIdentityError _ =>
      IdentityConfigs api ≠ []
      ∧ ∀ config, config ∈ IdentityConfigs api → fails ac config
  | ReturnAuthorizationError _ =>
      (IdentityConfigs api = []
       ∨ ∃ config, config ∈ IdentityConfigs api ∧ succeeds ac config)
      ∧ ∃ config, config ∈ AuthorizationConfigs api ∧ fails ac config
  | ReturnNil =>
      (IdentityConfigs api = []
       ∨ ∃ config, config ∈ IdentityConfigs api ∧ succeeds ac config)
      ∧ ∀ config, config ∈ AuthorizationConfigs api → succeeds ac config
  end.
Proof.
  intros ac Hmix (s & Hs & Hr & <- & <-).
  pose proof (identity_outcome_reachable _ _ _ _ Hs) as Hid.
  pose proof (authorization_outcome_reachable _ _ _ _ Hs) as Hauth.
  pose proof (well_formed_reachable _ _ Hs) as [_ Hwf].
  unfold identity_outcome in Hid. unfold authorization_outcome in Hauth.
  rewrite Hr in Hid, Hauth, Hwf.
  assert ((IdentityConfigs api = [] ∧ Identity (authContext s) = ∅)
          ∨ (∃ config acx obj,
               config ∈ IdentityConfigs api ∧ same_request ac acx
               ∧ Call config acx = (obj, None)
               ∧ Identity (authContext s)
                 = {[ as_IdentityConfig config := obj ]}) →
          IdentityConfigs api = []
          ∨ ∃ config, config ∈ IdentityConfigs api ∧ succeeds ac config)
    as Hpassed.
  { intros [[Hnil _]|(config & acx & obj & Hin & Hacx & Hcall & _)];
      [by left|].
    right. exists config. split; [done|].
    apply passed_call_succeeds; [by exists acx, obj|].
    apply Hmix. by left. }
  destruct r as [e|e|].
  - destruct Hid as (_ & _ & _ & Hfail & _).
    destruct Hwf as (config & _ & _ & Hin & _). split.
    + intros Hnil. simpl in Hin. rewrite Hnil in Hin.
      by apply elem_of_nil in Hin.
    + intros config' Hin'. apply failed_call_fails; [by apply Hfail|].
      apply Hmix. by left.
  - split; [by apply Hpassed|].
    destruct Hwf as (config & acx & authObj & Hin & Hacx & Hcall).
    exists config. split; [done|].
    apply failed_call_fails; [by exists acx, authObj, e|].
    apply Hmix. by right.
  - split; [by apply Hpassed|].
    destruct Hauth as (Hall & _). intros config Hin.
    apply passed_call_succeeds; [by apply Hall|].
    apply Hmix. by right.
Qed.

(** Which return statement [Evaluate] takes, when each identity and
    authorization evaluator either succeeds or fails on the request. *)
Lemma Evaluate_decision_iff parentCtx req api r ac' log :
  let ac := NewAuthContext parentCtx req api in
  let identified :=
    IdentityConfigs api = []
    ∨ ∃ config, config ∈ IdentityConfigs api ∧ succeeds ac config in
  (∀ config,
     config ∈ IdentityConfigs api ∨ config ∈ AuthorizationConfigs api →
     succeeds ac config ∨ fails ac config) →
  Evaluate ac r ac' log →
  ((∃ e, r = ReturnIdentityError e) ↔ ¬ identified)
  ∧ ((∃ e, r = ReturnAuthorizationError e) ↔
     identified
     ∧ ∃ config, config ∈ AuthorizationConfigs api ∧ fails ac config)
  ∧ (r = ReturnNil ↔
     identified
     ∧ ∀ config, config ∈ AuthorizationConfigs api → succeeds ac config).
Proof.
  intros ac identified Hmix Hev.
  pose proof (Evaluate_decision_only_if _ _ _ _ _ _ Hmix Hev) as Hr.
  assert (∀ config, succeeds ac config → fails ac config → False)
    as Hexcl by (intros config; apply succeeds_not_fails).
  assert ((IdentityConfigs api ≠ []
           ∧ ∀ config, config ∈ IdentityConfigs api → fails ac config) →
          ¬ identified) as Hno.
  { intros [Hne Hfail] [Hnil|(config & Hin & Hok)]; [done|].
    eapply Hexcl; [done|]. by apply Hfail. }
  destruct r as [e|e|]; destruct Hr as [H1 H2].
  - pose proof (Hno (conj H1 H2)) as Hnid. split_and!.
    + split; [done|]. eauto.
    + split; [by intros [? ?]|]. by intros [Hid _].
    + split; [done|]. by intros [Hid _].
  - split_and!.
    + split; [by intros [? ?]|]. intros Hnid. by destruct Hnid.
    + split; [done|]. eauto.
    + split; [done|]. intros [_ Hall]. destruct H2 as (config & Hin & Hfail).
      destruct (Hexcl config); [by apply Hall|done].
  - split_and!.
    + split; [by intros [? ?]|]. intros Hnid. by destruct Hnid.
    + split; [by intros [? ?]|]. intros [_ (config & Hin & Hfail)].
      destruct (Hexcl config); [by apply H2|done].
    + done.
Qed.

(** An error that [Evaluate] returns is the error that [Call] returned
    for an evaluator of the phase that fails on the request. *)
Lemma Evaluate_error_of_failing parentCtx req api r ac' log :
  let ac := NewAuthContext parentCtx req api in
  (∀ config,
     config ∈ IdentityConfigs api ∨ config ∈ AuthorizationConfigs api →
     succeeds ac config ∨ fails ac config) →
  Evaluate ac r ac' log →
  match r with
  | ReturnIdentityError e =>
      ∃ config acx authObj,
        config ∈ IdentityConfigs api ∧ fails ac config
        ∧ same_request ac acx ∧ Call config acx = (authObj, Some e)
  | ReturnAuthorizationError e =>
      ∃ config acx authObj,
        config ∈ AuthorizationConfigs api ∧ fails ac config
        ∧ same_request ac acx ∧ Call config acx = (authObj, Some e)
  | ReturnNil => True
  end.
Proof.
  intros ac Hmix (s & Hs & Hr & _).
  pose proof (well_formed_reachable _ _ Hs) as [_ Hwf]. rewrite Hr in Hwf.
  destruct r as [e|e|]; [| |done];
    destruct Hwf as (config & acx & authObj & Hin & Hacx & Hcall);
    exists config, acx, authObj; split_and!; try done;
    (apply failed_call_fails; [by exists acx, authObj, e|]); apply Hmix;
    [by left|by right].
Qed.

(** X5: which return statement is taken does not depend on the
    interleaving.  When each identity and authorization evaluator either
    succeeds or fails on the request, [Evaluate] returns at line 253,
    with an identity error, exactly when there are identity evaluators
    and none of them succeeds; at line 264, with [nil], exactly when the
    identity phase passes and every authorization evaluator succeeds;
    and at line 261, with an authorization error, exactly when the
    identity phase passes and an authorization evaluator fails.  So
    whether [Evaluate] returns [nil] or an error is the same for every
    interleaving.  The error itself is not determined: it is the error
    that [Call] returned for one of the failing evaluators of that
    phase, whichever the loop came to return. *)
Theorem Evaluate_decision parentCtx req api r ac' log :
  let ac := NewAuthContext parentCtx req api in
  let identified :=
    IdentityConfigs api = []
    ∨ ∃ config, config ∈ IdentityConfigs api ∧ succeeds ac config in
  (∀ config,
     config ∈ IdentityConfigs api ∨ config ∈ AuthorizationConfigs api →
     succeeds ac config ∨ fails ac config) →
  Evaluate ac r ac' log →
  ((∃ e, r = ReturnIdentityError e) ↔ ¬ identified)
  ∧ ((∃ e, r = ReturnAuthorizationError e) ↔
     identified
     ∧ ∃ config, config ∈ AuthorizationConfigs api ∧ fails ac config)
  ∧ (r = ReturnNil ↔
     identified
     ∧ ∀ config, config ∈ AuthorizationConfigs api → succeeds ac config)
  ∧ match r with
    | ReturnIdentityError e =>
        ∃ config acx authObj,
          config ∈ IdentityConfigs api ∧ fails ac config
          ∧ same_request ac acx ∧ Call config acx = (authObj, Some e)
    | ReturnAuthorizationError e =>
        ∃ config acx authObj,
          config ∈ AuthorizationConfigs api ∧ fails ac config
          ∧ same_request ac acx ∧ Call config acx = (authObj, Some e)
    | ReturnNil => True
    end.
Proof.
  intros ac identified Hmix Hev.
  destruct (Evaluate_decision_iff _ _ _ _ _ _ Hmix Hev) as (H1 & H2 & H3).
  split_and!; try done. by eapply Evaluate_error_of_failing.
Qed.

(** *** The metadata phase in general, and who cancels *)

Lemma metadata_outcome_step ac0 s s' :
  well_formed ac0 s → metadata_outcome ac0 s → step s s' →
  metadata_outcome ac0 s'.
Proof.
  intros Hwf Hinv Hstep. pose proof Hwf as [Hsame Hwf'].
  unfold metadata_outcome in *.
  step_cases Hstep; rewrite Hph in Hinv, Hwf'.
  - pose proof (goroutine_step_observations _ _ _ _ _ _ _ _ _
                  MetadataPhase (authCtxLog s) Hg) as Hobs.
    pose proof (observed_keys_goroutine _ _ _ _ _ _ _ _ _
                  MetadataPhase (authCtxLog s) Hg) as Hkeys.
    simpl. rewrite Hph, ?Hobs, ?Hkeys. destruct ph; [done| |done].
    destruct Hinv as [Hnd Ht]. split.
    + rewrite Hnd. simpl. by goroutine_cases g Hg.
    + by eapply tally_goroutine.
  - simpl. rewrite Hph. by destruct ph.
  - rewrite Hch in Hwf'.
    destruct Hwf' as (Hcfg & Hclosed & Hcalled & Hsent & Hlasterr).
    destruct ph; unfold range_body; simpl.
    + destruct (Success resp); simpl.
      * split; [done|]. unfold tally. simpl. rewrite senders_spawn.
        rewrite (observed_keys_unobserved MetadataPhase) by done.
        by rewrite (observed_keys_nil _ _ Hinv).
      * rewrite Hph. by rewrite observations_unobserved.
    + destruct Hinv as [Hnd Ht].
      destruct (Success resp); simpl; rewrite Hph; (split; [done|]).
      * by apply (tally_receive MetadataPhase s resp rest
                    (LogObject MetadataPhase
                       (as_MetadataConfig (Evaluator resp)) (Object resp))).
      * by apply (tally_receive MetadataPhase s resp rest
                    (LogError MetadataPhase
                       (as_MetadataConfig (Evaluator resp)) (Error resp))).
    + destruct (Success resp); simpl.
      * rewrite Hph. by rewrite observed_keys_unobserved.
      * destruct (Error resp); simpl; by rewrite observed_keys_unobserved.
  - destruct Hwf' as (Hcfg & Hclosed & Hcalled & Hsent & Hlasterr).
    specialize (Hclosed Hcl).
    destruct ph; unfold range_end; simpl.
    + destruct (lastError s); simpl; [done|]. split; [done|].
      unfold tally. simpl.
      by rewrite senders_spawn, (observed_keys_nil _ _ Hinv).
    + destruct Hinv as [Hnd Ht]. unfold tally in Ht.
      rewrite Hch, (senders_all _ Hclosed), Hcfg in Ht.
      simpl in Ht. by rewrite app_nil_r in Ht.
    + done.
  - simpl. rewrite Hph. by destruct ph.
Qed.

Lemma metadata_outcome_reachable parentCtx req api s :
  rtc step (start (NewAuthContext parentCtx req api)) s →
  metadata_outcome (NewAuthContext parentCtx req api) s.
Proof.
  apply reachable_invariant; [done|].
  intros. by eapply metadata_outcome_step.
Qed.

(** X6: the metadata loop waits for every metadata evaluator.  Once the
    pipeline is past the metadata phase, the loop has observed exactly
    one response, an object or an error, for each configured metadata
    evaluator, under the key of that evaluator; none was skipped. *)
Theorem Evaluate_metadata_observes_all parentCtx req api s :
  rtc step (start (NewAuthContext parentCtx req api)) s →
  control s = Running AuthorizationPhase
  ∨ control s = Returned ReturnNil
  ∨ (∃ e, control s = Returned (ReturnAuthorizationError e)) →
  observed_keys MetadataPhase (authCtxLog s)
  ≡ₚ as_MetadataConfig <$> MetadataConfigs api.
Proof.
  intros Hs Hc. pose proof (metadata_outcome_reachable _ _ _ _ Hs) as Hinv.
  unfold metadata_outcome in Hinv.
  destruct Hc as [Hc|[Hc|[e Hc]]]; by rewrite Hc in Hinv.
Qed.

(** X7: the derived context of a fan-out is cancelled only after a
    response that settles the phase: in the identity phase a success is
    then waiting on the channel, in the authorization phase a failure,
    and in the metadata phase the context is never cancelled. *)
Theorem cancel_follows_response parentCtx req api s ph :
  rtc step (start (NewAuthContext parentCtx req api)) s →
  control s = Running ph → ctxDone s = true →
  match ph with
  | IdentityPhase => Exists (λ resp, Success resp = true) (respChannel s)
  | MetadataPhase => False
  | AuthorizationPhase =>
      Exists (λ resp, Success resp = false) (respChannel s)
  end.
Proof.
  intros Hs Hph Hdone.
  pose proof (identity_outcome_reachable _ _ _ _ Hs) as Hid.
  pose proof (metadata_outcome_reachable _ _ _ _ Hs) as Hmeta.
  pose proof (authorization_outcome_reachable _ _ _ _ Hs) as Hauth.
  unfold identity_outcome in Hid. unfold metadata_outcome in Hmeta.
  unfold authorization_outcome in Hauth. rewrite Hph in Hid, Hmeta, Hauth.
  destruct ph.
  - destruct Hid as (_ & _ & _ & [Hsucc|[Hnd _]]); [done|congruence].
  - destruct Hmeta as [Hnd _]. congruence.
  - destruct Hauth as [Hfail|[Hnd _]]; [done|congruence].
Qed.

(** *** The auth context that the evaluators are called on *)

Lemma from_call_empty l key (P : AuthContext Obj → Prop) :
  from_call l key P ∅.
Proof. intros k obj Hk. by rewrite lookup_empty in Hk. Qed.

Lemma from_call_insert l key (P : AuthContext Obj → Prop) m config acx obj :
  from_call l key P m → config ∈ l → P acx →
  Call config acx = (obj, None) →
  from_call l key P (<[key config := obj]> m).
Proof.
  intros Hm Hin HP Hcall k obj' [[<- <-]|[_ Hk]]%lookup_insert_Some.
  - by exists config, acx.
  - by apply Hm.
Qed.

Lemma results_in_context_step ac0 s s' :
  well_formed ac0 s → results_in_context ac0 s → step s s' →
  results_in_context ac0 s'.
Proof.
  intros Hwf (HI & HM & HA & Hinv) Hstep. pose proof Hwf as [Hsame Hwf'].
  unfold results_in_context.
  step_cases Hstep; rewrite Hph in Hinv, Hwf'.
  - simpl. rewrite Hph. do 3 (split; [done|]).
    destruct Hinv as (Hmaps & Hgs & Hchan). split; [done|].
    pose proof (Forall_lookup_1 _ _ _ _ Hgs Hi) as Hg1. simpl in Hg1.
    assert (in_context ac0 ph (Identity (authContext s))
              (Metadata (authContext s)) (authContext s)) as Hcur.
    { unfold in_context. split; [done|]. split; [done|].
      by destruct ph; destruct_and?. }
    goroutine_cases g Hg; rewrite ?app_nil_r.
    + split; [by apply Forall_insert|done].
    + split; [by apply Forall_insert|done].
    + split; [apply Forall_insert; [done|]; simpl; eauto|done].
    + split; [by apply Forall_insert|].
      apply Forall_app. split; [done|]. apply Forall_singleton.
      destruct Hg1 as (acx & Hacx & Hcall). by exists acx, authObj.
    + split; [by apply Forall_insert|].
      apply Forall_app. split; [done|]. apply Forall_singleton.
      destruct Hg1 as (acx & Hacx & Hcall). by exists acx, authObj.
    + split; [by apply Forall_insert|done].
  - simpl. by rewrite Hph.
  - rewrite Hch in Hwf', Hinv.
    destruct Hwf' as (Hcfg & Hclosed & Hcalled & Hsent & Hlasterr).
    apply Forall_cons in Hsent as [[Hin _] _].
    destruct Hinv as (Hmaps & Hgs & Hchan).
    apply Forall_cons in Hchan as [(acx & authObj & Hacx & Hcall & Hok) Hrest].
    destruct ph; unfold range_body; simpl.
    + destruct Hmaps as (HI0 & HM0 & HA0).
      destruct (Success resp) eqn:Hsucc; simpl.
      * destruct (Hok eq_refl) as [-> Herr]. rewrite Herr in Hcall.
        rewrite HI0, HM0, HA0 in *. split_and!; try done.
        -- by apply (from_call_insert _ _ _ _ _ acx).
        -- by apply Forall_spawn.
      * rewrite Hph. by split_and!.
    + destruct (Success resp) eqn:Hsucc; simpl; rewrite Hph.
      * destruct (Hok eq_refl) as [-> Herr]. rewrite Herr in Hcall.
        rewrite Hmaps in *. split_and!; try done.
        apply (from_call_insert _ _ _ _ _ acx); try done.
      * by split_and!.
    + destruct (Success resp) eqn:Hsucc; simpl.
      * rewrite Hph. destruct (Hok eq_refl) as [-> Herr].
        rewrite Herr in Hcall. split_and!; try done.
        by apply (from_call_insert _ _ _ _ _ acx).
      * destruct (Error resp) as [e|] eqn:He; simpl; [|done].
        split_and!; try done. by exists (Evaluator resp), acx, authObj.
  - destruct Hinv as (Hmaps & Hgs & Hchan).
    destruct ph; unfold range_end; simpl.
    + destruct Hmaps as (HI0 & HM0 & HA0).
      destruct (lastError s); simpl; [done|].
      split_and!; try done. by apply Forall_spawn.
    + split_and!; try done. by apply Forall_spawn.
    + done.
  - simpl. by rewrite Hph.
Qed.

Lemma results_in_context_reachable parentCtx req api s :
  rtc step (start (NewAuthContext parentCtx req api)) s →
  results_in_context (NewAuthContext parentCtx req api) s.
Proof.
  apply reachable_invariant.
  - unfold results_in_context. simpl.
    split_and!; try done; try apply from_call_empty.
    by apply Forall_spawn.
  - intros. by eapply results_in_context_step.
Qed.

(** X8: the authorization policies are evaluated on the outcome of the
    two earlier phases.  Every entry of the authorization result map is
    the object that [Call] returned without error for an authorization
    evaluator, under the key of that evaluator, on an auth context of the
    request that held the identity and the metadata results that the
    auth context holds now; and an authorization error that [Evaluate]
    returns was returned by such a call. *)
Theorem Evaluate_authorization_context parentCtx req api s :
  rtc step (start (NewAuthContext parentCtx req api)) s →
  (∀ k obj,
     Authorization (authContext s) !! k = Some obj →
     ∃ config acx,
       config ∈ AuthorizationConfigs api
       ∧ as_AuthorizationConfig config = k
       ∧ Call config acx = (obj, None)
       ∧ Request acx = req ∧ API acx = api
       ∧ Identity acx = Identity (authContext s)
       ∧ Metadata acx = Metadata (authContext s))
  ∧ (∀ e,
       control s = Returned (ReturnAuthorizationError e) →
       ∃ config acx authObj,
         config ∈ AuthorizationConfigs api
         ∧ Call config acx = (authObj, Some e)
         ∧ Request acx = req ∧ API acx = api
         ∧ Identity acx = Identity (authContext s)
         ∧ Metadata acx = Metadata (authContext s)).
Proof.
  intros Hs.
  destruct (results_in_context_reachable _ _ _ _ Hs) as (_ & _ & HA & Hinv).
  split.
  - intros k obj Hk.
    destruct (HA k obj Hk)
      as (config & acx & Hin & Hkey & ([Hreq Hapi] & HI & HM) & Hcall).
    by exists config, acx.
  - intros e Hr. rewrite Hr in Hinv.
    destruct Hinv
      as (config & acx & authObj & Hin & ([Hreq Hapi] & HI & HM) & Hcall).
    by exists config, acx, authObj.
Qed.

(** X9: the metadata evaluators are called once the identity is
    resolved.  Every entry of the metadata result map is the object that
    [Call] returned without error for a metadata evaluator, under the
    key of that evaluator, on an auth context of the request that held
    the identity result that the auth context holds now and no
    authorization result. *)
Theorem Evaluate_metadata_context parentCtx req api s k obj :
  rtc step (start (NewAuthContext parentCtx req api)) s →
  Metadata (authContext s) !! k = Some obj →
  ∃ config acx,
    config ∈ MetadataConfigs api
    ∧ as_MetadataConfig config = k
    ∧ Call config acx = (obj, None)
    ∧ Request acx = req ∧ API acx = api
    ∧ Identity acx = Identity (authContext s)
    ∧ Authorization acx = ∅.
Proof.
  intros Hs Hk.
  destruct (results_in_context_reachable _ _ _ _ Hs) as (_ & HM & _).
  destruct (HM k obj Hk)
    as (config & acx & Hin & Hkey & ([Hreq Hapi] & HI & HA) & Hcall).
  by exists config, acx.
Qed.

(** *** Closing the channel *)

(** X14: the channel is closed once, and only after every goroutine of
    the phase has finished.  Once it is closed, every goroutine has
    exited, so that none can send on the closed channel, and it cannot
    be closed a second time. *)
Theorem channel_closed_after_goroutines parentCtx req api s ph :
  rtc step (start (NewAuthContext parentCtx req api)) s →
  control s = Running ph → closed s = true →
  Forall (λ cg, cg.2 = Exited) (goroutines s)
  ∧ (∀ i, sched_step (Go i) s = None)
  ∧ sched_step Close s = None.
Proof.
  intros Hs Hph Hcl. destruct (well_formed_reachable _ _ Hs) as [_ Hwf].
  rewrite Hph in Hwf. destruct Hwf as (_ & Hclosed & _).
  specialize (Hclosed Hcl). split_and!; [done| |].
  - intros i. unfold sched_step. rewrite Hph.
    destruct (goroutines s !! i) as [[config g]|] eqn:Hi; [|done].
    pose proof (Forall_lookup_1 _ _ _ _ Hclosed Hi) as Hg. simpl in Hg.
    by subst g.
  - unfold sched_step. by rewrite Hph, Hcl.
Qed.

(** *** The metadata phase, entry by entry *)

Lemma NoDup_fmap_filter {A B} (f : A → B) (P : A → Prop)
    `{!∀ x, Decision (P x)} (l : list A) :
  NoDup (f <$> l) → NoDup (f <$> filter P l).
Proof.
  induction l as [|x l IH]; [done|]. rewrite fmap_cons, NoDup_cons.
  intros [Hx Hl]. rewrite filter_cons. destruct (decide (P x)); [|by apply IH].
  rewrite fmap_cons, NoDup_cons. split; [|by apply IH].
  intros (y & Hy & [_ Hin]%list_elem_of_filter)%list_elem_of_fmap.
  apply Hx, list_elem_of_fmap. by exists y.
Qed.

Lemma NoDup_fmap_eq {A B} (f : A → B) (l : list A) x y :
  NoDup (f <$> l) → x ∈ l → y ∈ l → f x = f y → x = y.
Proof.
  induction l as [|z l IH]; [by intros _ ?%elem_of_nil|].
  rewrite fmap_cons, NoDup_cons. intros [Hz Hl] Hx Hy Hxy.
  apply elem_of_cons in Hx as [->|Hx]; apply elem_of_cons in Hy as [->|Hy].
  - done.
  - destruct Hz. apply list_elem_of_fmap. by exists y.
  - destruct Hz. apply list_elem_of_fmap. by exists x.
  - by apply IH.
Qed.

(** C5: for every mix of succeeding and failing metadata evaluators, no
    step of the metadata phase returns from [Evaluate]: the phase goes
    on or hands over to the authorization phase.  Once it is over, the
    keys of the metadata result map are exactly those of the succeeding
    metadata evaluators, and a failing evaluator has no entry.  When the
    metadata evaluators have distinct keys, the map has as many entries
    as there are succeeding evaluators, and the entry of each is an
    object that its own [Call] returned without error. *)
Theorem Evaluate_metadata_best_effort parentCtx req api :
  let ac := NewAuthContext parentCtx req api in
  (∀ config, config ∈ MetadataConfigs api →
             succeeds ac config ∨ fails ac config) →
  (∃ r ac' log, Evaluate ac r ac' log)
  ∧ (∀ s s', rtc step (start ac) s →
             control s = Running MetadataPhase → step s s' →
             control s' = Running MetadataPhase
             ∨ control s' = Running AuthorizationPhase)
  ∧ ∀ s, rtc step (start ac) s →
         (control s = Running AuthorizationPhase
          ∨ control s = Returned ReturnNil
          ∨ ∃ e, control s = Returned (ReturnAuthorizationError e)) →
         (∀ k, k ∈ dom (Metadata (authContext s)) ↔
               ∃ config, config ∈ MetadataConfigs api
                         ∧ succeeds ac config ∧ as_MetadataConfig config = k)
         ∧ (∀ p, MetadataConfig p ∈ MetadataConfigs api →
                 fails ac (MetadataConfig p) →
                 Metadata (authContext s) !! Some p = None)
         ∧ (NoDup (as_MetadataConfig <$> MetadataConfigs api) →
            size (Metadata (authContext s))
            = List.length (filter (λ config, (Call config ac).2 = None)
                             (MetadataConfigs api))
            ∧ ∀ config,
                config ∈ MetadataConfigs api → succeeds ac config →
                ∃ acx obj,
                  same_request ac acx
                  ∧ Call config acx = (obj, None)
                  ∧ Metadata (authContext s) !! as_MetadataConfig config
                    = Some obj).
Proof.
  intros ac Hmix. split; [apply Evaluate_total|]. split.
  { intros s s' _. apply metadata_phase_step. }
  intros s Hs Hc.
  pose proof (metadata_collecting_reachable ac s Hmix Hs) as Hinv.
  assert (metadata_collected ac s) as Hcoll.
  { unfold metadata_collecting in Hinv.
    destruct Hc as [Hc|[Hc|[e Hc]]]; by rewrite Hc in Hinv. }
  assert (∀ k, k ∈ dom (Metadata (authContext s)) ↔
               ∃ config, config ∈ MetadataConfigs api
                         ∧ succeeds ac config ∧ as_MetadataConfig config = k)
    as Hdom.
  { intros k. rewrite (Hcoll k). simpl. rewrite dom_empty_L. set_solver. }
  split; [done|]. split.
  { intros p Hin Hfail. apply not_elem_of_dom.
    intros (config & _ & Hok & Hk)%Hdom.
    destruct config; simplify_eq/=. by eapply succeeds_not_fails. }
  intros Hnd.
  assert (∀ config, config ∈ MetadataConfigs api →
            (succeeds ac config ↔ (Call config ac).2 = None)) as Hdec.
  { intros config Hin. split; [intros Hok; by apply Hok|].
    intros Hnone. destruct (Hmix config Hin) as [Hok|Hfail]; [done|].
    by destruct (Hfail ac). }
  split.
  - rewrite <-size_dom.
    assert (dom (Metadata (authContext s))
            = list_to_set
                (as_MetadataConfig
                   <$> filter (λ config, (Call config ac).2 = None)
                         (MetadataConfigs api))) as ->.
    { apply set_eq. intros k.
      rewrite Hdom, elem_of_list_to_set, list_elem_of_fmap. split.
      - intros (config & Hin & Hok & <-). exists config. split; [done|].
        apply list_elem_of_filter. split; [exact (proj1 (Hdec config Hin) Hok)|done].
      - intros (config & -> & [Hnone Hin]%list_elem_of_filter).
        exists config. split; [done|].
        split; [exact (proj2 (Hdec config Hin) Hnone)|done]. }
    rewrite size_list_to_set by (by apply NoDup_fmap_filter).
    by rewrite length_fmap.
  - intros config Hin Hok.
    assert (as_MetadataConfig config ∈ dom (Metadata (authContext s)))
      as [obj Hobj]%elem_of_dom by (apply Hdom; by exists config).
    destruct (results_in_context_reachable _ _ _ _ Hs) as (_ & HM & _).
    destruct (HM _ _ Hobj)
      as (config' & acx & Hin' & Hkey & (Hacx & _) & Hcall).
    assert (config' = config) as -> by (by eapply NoDup_fmap_eq).
    by exists acx, obj.
Qed.

(** *** Calls that do not return *)

Lemma sched_step_if_step returning c s s' :
  sched_step_if returning c s = Some s' → sched_step c s = Some s'.
Proof.
  unfold sched_step_if. destruct c as [i| | |]; try done.
  destruct (goroutines s !! i) as [[config g]|]; [|done].
  destruct g; try done. by destruct (returning config (authContext s)).
Qed.

Lemma sched_step_if_all returning c s :
  (∀ config acx, returning config acx = true) →
  sched_step_if returning c s = sched_step c s.
Proof.
  intros Hall. unfold sched_step_if. destruct c as [i| | |]; try done.
  destruct (goroutines s !! i) as [[config g]|]; [|done].
  destruct g; try done. by rewrite Hall.
Qed.

Lemma run_if_all returning schedule s :
  (∀ config acx, returning config acx = true) →
  run_if returning schedule s = run schedule s.
Proof.
  intros Hall. revert s.
  induction schedule as [|c schedule IH]; intros s; simpl; [done|].
  rewrite sched_step_if_all by done.
  destruct (sched_step c s); [apply IH|done].
Qed.

Lemma step_if_step returning s s' : step_if returning s s' → step s s'.
Proof. intros [c Hc]. exists c. by eapply sched_step_if_step. Qed.

Lemma rtc_step_if_step returning s s' :
  rtc (step_if returning) s s' → rtc step s s'.
Proof.
  induction 1 as [|s s1 s' Hstep _ IH]; [done|].
  eapply rtc_l; [|done]. by eapply step_if_step.
Qed.

Lemma run_if_rtc returning schedule s s' :
  run_if returning schedule s = Some s' → rtc (step_if returning) s s'.
Proof.
  revert s. induction schedule as [|c schedule IH]; intros s Hrun; simpl in *.
  - by simplify_eq.
  - destruct (sched_step_if returning c s) as [s1|] eqn:Hc; [|done].
    eapply rtc_l; [by exists c|]. by apply IH.
Qed.

Lemma waiting_for_enter config ac0 ac (log : list (LogEntry Obj)) :
  config ∈ MetadataConfigs (API ac0) → API ac = API ac0 →
  waiting_for config (enter MetadataPhase ac log).
Proof.
  intros Hin Hapi. unfold waiting_for. simpl. split; [done|]. split; [done|].
  rewrite Hapi. apply list_elem_of_lookup_1 in Hin as [i Hi].
  exists i, AtSelect. split; [|by left]. by rewrite list_lookup_fmap, Hi.
Qed.

Lemma waiting_for_step returning config ac0 s s' :
  config ∈ MetadataConfigs (API ac0) →
  (∀ acx, returning config acx = false) →
  well_formed ac0 s → waiting_for config s → step_if returning s s' →
  waiting_for config s'.
Proof.
  intros Hin Hret [[_ Hapi] _] Hinv [c Hc].
  pose proof (sched_step_if_step _ _ _ _ Hc) as Hc'.
  unfold sched_step in Hc'. unfold waiting_for in Hinv.
  destruct (control s) as [ph|] eqn:Hph; [|done]. destruct c as [i| | |].
  - destruct (goroutines s !! i) as [[config' g]|] eqn:Hi; [|done].
    destruct (goroutine_step _ _ _ _ _)
      as [[[[g' sent] cancel] logged]|] eqn:Hg; [|done].
    simplify_eq. unfold waiting_for. simpl. rewrite Hph.
    destruct ph; [done| |done].
    destruct Hinv as (Hcl & Hnd & j & g0 & Hj & Hg0).
    rewrite Hnd in Hg |- *.
    split; [done|]. destruct (decide (i = j)) as [->|Hne].
    + rewrite Hj in Hi. simplify_eq. destruct Hg0 as [->| ->].
      * simpl in Hg. simplify_eq. split; [done|].
        exists j, AtCall. split; [|by right].
        apply list_lookup_insert_eq. by eapply lookup_lt_Some.
      * unfold sched_step_if in Hc. by rewrite Hj, Hret in Hc.
    + split; [simpl; by goroutine_cases g Hg|].
      exists j, g0. split; [|done]. by rewrite list_lookup_insert_ne.
  - destruct (negb (closed s) && _) eqn:Hall; [|done]. simplify_eq.
    unfold waiting_for. simpl. rewrite Hph. destruct ph; [done| |done].
    destruct Hinv as (Hcl & Hnd & j & g0 & Hj & Hg0).
    apply andb_true_iff in Hall as [_ Hall].
    apply Is_true_true, forallb_True in Hall.
    pose proof (Forall_lookup_1 _ _ _ _ Hall Hj) as Hex. simpl in Hex.
    by destruct Hg0 as [->| ->].
  - destruct (respChannel s) as [|resp rest] eqn:Hch.
    + destruct (closed s) eqn:Hcl; [|done]. simplify_eq.
      destruct ph; unfold range_end; simpl.
      * destruct (lastError s); simpl; [done|]. by apply (waiting_for_enter _ ac0).
      * destruct Hinv as (Hcl' & _). congruence.
      * done.
    + simplify_eq. destruct ph; unfold range_body; simpl.
      * destruct (Success resp); simpl; [by apply (waiting_for_enter _ ac0)|].
        unfold waiting_for. simpl. by rewrite Hph.
      * destruct (Success resp); simpl; unfold waiting_for; simpl;
          by rewrite Hph.
      * done.
  - destruct (ParentContext _); [done|]. simplify_eq.
    unfold waiting_for. simpl. rewrite Hph. by destruct ph.
Qed.

Lemma waiting_for_reachable returning config parentCtx req api s :
  config ∈ MetadataConfigs api →
  (∀ acx, returning config acx = false) →
  rtc (step_if returning) (start (NewAuthContext parentCtx req api)) s →
  waiting_for config s.
Proof.
  intros Hin Hret. revert s. apply rtc_ind_r; [done|].
  intros s s' Hs Hstep IH.
  eapply (waiting_for_step _ _ (NewAuthContext parentCtx req api));
    try done.
  eapply well_formed_reachable, rtc_step_if_step, Hs.
Qed.

(** X2: [Evaluate] returns if the calls of its evaluators do, and may
    not otherwise.  When every call returns, a state in which
    [Evaluate] has not returned always has a next step, no run is longer
    than five steps for each evaluator and nine more, and every run can
    be carried on until [Evaluate] has returned.  When the calls of one
    of the metadata evaluators do not return, no run gets past the
    metadata phase: [Evaluate] returns only if the identity phase
    fails. *)
Theorem Evaluate_returns_if_calls_return parentCtx req api returning :
  let ac := NewAuthContext parentCtx req api in
  ((∀ config acx, returning config acx = true) →
   (∀ s ph, rtc (step_if returning) (start ac) s →
            control s = Running ph →
            ∃ c s', sched_step_if returning c s = Some s')
   ∧ (∀ schedule s,
        run_if returning schedule (start ac) = Some s →
        List.length schedule
        ≤ 5 * (List.length (IdentityConfigs api)
               + List.length (MetadataConfigs api)
               + List.length (AuthorizationConfigs api)) + 9)
   ∧ (∀ schedule s,
        run_if returning schedule (start ac) = Some s →
        ∃ schedule' s' r,
          run_if returning (schedule ++ schedule') (start ac) = Some s'
          ∧ control s' = Returned r))
  ∧ (∀ config,
       config ∈ MetadataConfigs api →
       (∀ acx, returning config acx = false) →
       ∀ s, rtc (step_if returning) (start ac) s →
            control s = Running IdentityPhase
            ∨ control s = Running MetadataPhase
            ∨ ∃ e, control s = Returned (ReturnIdentityError e)).
Proof.
  intros ac. split.
  - intros Hall. split_and!.
    + intros s ph _ Hph. destruct (progress s ph Hph) as (s' & c & Hc).
      exists c, s'. by rewrite sched_step_if_all.
    + intros schedule s Hrun. rewrite run_if_all in Hrun by done.
      apply run_measure in Hrun.
      unfold start in Hrun. rewrite measure_enter in Hrun.
      unfold later_phases, phase_cost in Hrun. simpl in Hrun.
      destruct parentCtx; lia.
    + intros schedule s Hrun. rewrite run_if_all in Hrun by done.
      destruct (terminates s) as (s' & r & Hrtc & Hr).
      apply rtc_run in Hrtc as [schedule' Hrun'].
      exists schedule', s', r. split; [|done].
      by rewrite run_if_all, run_app, Hrun by done.
  - intros config Hin Hret s Hs.
    pose proof (waiting_for_reachable _ _ _ _ _ _ Hin Hret Hs) as Hinv.
    unfold waiting_for in Hinv.
    destruct (control s) as [[| |]|[e| |]]; try done; eauto.
Qed.

End Machine.

(** ** The metadata view *)

Section View.

Context {Obj : Type} {EV : Evaluators Obj}.

Local Open Scope nat_scope.

Implicit Types (entries : list (option positive * interface Obj))
  (m : gmap string (interface Obj)).

Lemma GetMetadata_range_app entries entry :
  GetMetadata_range (entries ++ [entry])
  = <[GetType entry.1 := entry.2]> (GetMetadata_range entries).
Proof. unfold GetMetadata_range. by rewrite foldl_app. Qed.

Lemma GetMetadata_range_dom entries :
  dom (GetMetadata_range entries)
  = list_to_set ((λ entry, GetType entry.1) <$> entries).
Proof.
  induction entries as [|entry entries IH] using rev_ind; [set_solver|].
  rewrite GetMetadata_range_app, dom_insert_L, IH, fmap_app,
    list_to_set_app_L.
  set_solver.
Qed.

Lemma GetMetadata_range_lookup entries t obj :
  GetMetadata_range entries !! t = Some obj →
  ∃ conf, (conf, obj) ∈ entries ∧ GetType conf = t.
Proof.
  induction entries as [|[conf obj'] entries IH] using rev_ind; [done|].
  rewrite GetMetadata_range_app. simpl.
  destruct (decide (GetType conf = t)) as [<-|Hne].
  - rewrite lookup_insert_eq. intros [= ->]. exists conf.
    split; [|done]. apply elem_of_app. right. by left.
  - rewrite lookup_insert_ne by done. intros (conf' & ? & ?)%IH.
    exists conf'. split; [|done]. apply elem_of_app. by left.
Qed.

Lemma size_list_to_set_le (l : list string) :
  size (list_to_set l : gset string) ≤ List.length l.
Proof.
  induction l as [|x l IH]; simpl; [done|].
  rewrite size_union_alt, size_singleton.
  pose proof (subseteq_size (list_to_set l ∖ {[x]} : gset string)
                (list_to_set l)) as Hle.
  specialize (Hle ltac:(set_solver)). lia.
Qed.

Lemma size_set_map_le (X : gset (option positive)) :
  size (set_map GetType X : gset string) ≤ size X.
Proof.
  unfold set_map. etrans; [apply size_list_to_set_le|].
  by rewrite length_fmap.
Qed.

(** C8: the view [GetMetadata] returns, in whatever order the map is
    ranged over, is keyed by the type tags of the recorded metadata
    results and has as many entries as there are distinct tags among
    them; each entry is the object recorded for an evaluator of that
    tag.  So two recorded evaluators with the same tag share one entry,
    which holds the object of one of them, and the view is smaller than
    the result map. *)
Theorem GetMetadata_by_type (authContext : AuthContext Obj) :
  (∃ m, GetMetadata authContext m)
  ∧ ∀ m, GetMetadata authContext m →
      dom m = set_map GetType (dom (Metadata authContext))
      ∧ size m
        = size (set_map GetType (dom (Metadata authContext)) : gset string)
      ∧ (∀ t obj, m !! t = Some obj →
           ∃ conf, Metadata authContext !! conf = Some obj
                   ∧ GetType conf = t)
      ∧ (∀ conf1 conf2,
           conf1 ≠ conf2 →
           is_Some (Metadata authContext !! conf1) →
           is_Some (Metadata authContext !! conf2) →
           GetType conf1 = GetType conf2 →
           size m < size (Metadata authContext)
           ∧ ∃ conf obj,
               m !! GetType conf1 = Some obj
               ∧ Metadata authContext !! conf = Some obj
               ∧ GetType conf = GetType conf1).
Proof.
  split; [by exists (GetMetadata_range (map_to_list (Metadata authContext))),
            (map_to_list (Metadata authContext))|].
  intros m (entries & Hperm & ->).
  assert (dom (GetMetadata_range entries)
          = set_map GetType (dom (Metadata authContext))) as Hdom.
  { rewrite GetMetadata_range_dom. apply set_eq. intros t.
    rewrite elem_of_list_to_set, list_elem_of_fmap, elem_of_map. split.
    - intros ([conf obj] & -> & Hin). exists conf. split; [done|].
      rewrite Hperm in Hin. apply elem_of_map_to_list in Hin.
      by apply elem_of_dom_2 in Hin.
    - intros (conf & -> & [obj Hobj]%elem_of_dom).
      exists (conf, obj). split; [done|]. rewrite Hperm.
      by apply elem_of_map_to_list. }
  assert (∀ t obj, GetMetadata_range entries !! t = Some obj →
            ∃ conf, Metadata authContext !! conf = Some obj
                    ∧ GetType conf = t) as Hval.
  { intros t obj (conf & Hin & ?)%GetMetadata_range_lookup.
    exists conf. split; [|done]. rewrite Hperm in Hin.
    by apply elem_of_map_to_list in Hin. }
  split_and!; try done.
  - by rewrite <-size_dom, Hdom.
  - intros conf1 conf2 Hne H1 H2 Htype. split.
    + rewrite <-size_dom, Hdom, <-(size_dom (Metadata authContext)).
      apply elem_of_dom in H1, H2.
      set (X := dom (Metadata authContext)) in *.
      assert (set_map GetType X
              = (set_map GetType (X ∖ {[conf1]}) : gset string)) as ->.
      { apply set_eq. intros t. rewrite !elem_of_map. split.
        - intros (conf & -> & Hin).
          destruct (decide (conf = conf1)) as [->|?].
          + exists conf2. split; [done|]. set_solver.
          + exists conf. set_solver.
        - intros (conf & -> & Hin). exists conf. set_solver. }
      eapply Nat.le_lt_trans; [apply size_set_map_le|].
      rewrite size_difference by set_solver. rewrite size_singleton.
      assert (size X ≠ 0); [|lia].
      intros Hz%size_empty_inv. set_solver.
    + assert (is_Some (GetMetadata_range entries !! GetType conf1))
        as [obj Hobj].
      { apply elem_of_dom. rewrite Hdom. apply elem_of_map.
        exists conf1. split; [done|]. by apply elem_of_dom. }
      destruct (Hval _ _ Hobj) as (conf & ? & ?). eauto.
Qed.

End View.

(** ** The accessors *)

Section Accessors.

Context {Obj : Type} {EV : Evaluators Obj}.

Local Open Scope nat_scope.

Lemma GetIdentity_range_Some (entries : list (option positive * interface Obj))
    x :
  GetIdentity_range entries = Some x → ∃ conf, (conf, Some x) ∈ entries.
Proof.
  induction entries as [|[conf [y|]] entries IH]; simpl; [done| |].
  - intros [= ->]. exists conf. by left.
  - intros (conf' & Hin)%IH. exists conf'. by right.
Qed.

Lemma GetIdentity_range_None (entries : list (option positive * interface Obj))
    conf v :
  GetIdentity_range entries = None → (conf, v) ∈ entries → v = None.
Proof.
  induction entries as [|[conf' [y|]] entries IH]; simpl; intros Hnone Hin.
  - by apply elem_of_nil in Hin.
  - done.
  - apply elem_of_cons in Hin as [[= -> ->]|Hin]; [done|]. by apply IH.
Qed.

(** X10: [GetIdentity] returns a value of the identity result map that is
    not nil, if there is one, and nil otherwise, in particular for an
    empty map; when several values are not nil, any of them may be
    returned, as the order of the loop is unspecified. *)
Theorem GetIdentity_non_nil_value (authContext : AuthContext Obj) :
  (∃ id, GetIdentity authContext id)
  ∧ (∀ id,
       GetIdentity authContext id →
       match id with
       | Some x => ∃ conf, Identity authContext !! conf = Some (Some x)
       | None => ∀ conf v, Identity authContext !! conf = Some v → v = None
       end)
  ∧ (∀ conf x,
       Identity authContext !! conf = Some (Some x) →
       GetIdentity authContext (Some x)).
Proof.
  split_and!.
  - by exists (GetIdentity_range (map_to_list (Identity authContext))),
      (map_to_list (Identity authContext)).
  - intros id (entries & Hperm & ->).
    destruct (GetIdentity_range entries) as [x|] eqn:Hid.
    + apply GetIdentity_range_Some in Hid as [conf Hin].
      exists conf. rewrite Hperm in Hin. by apply elem_of_map_to_list in Hin.
    + intros conf v Hv. apply elem_of_map_to_list in Hv.
      rewrite <-Hperm in Hv. by eapply GetIdentity_range_None.
  - intros conf x Hconf.
    exists ((conf, Some x) :: map_to_list (delete conf (Identity authContext))).
    split; [|done]. by apply map_to_list_delete.
Qed.

(** X11: after [Evaluate], [GetIdentity] has one answer.  It is nil when
    [Evaluate] returned the identity error or no identity evaluator is
    configured; otherwise it is the object that [Call] returned without
    error for an identity evaluator on an auth context of the request
    with empty result maps, the only entry of the identity result
    map. *)
Theorem GetIdentity_after_Evaluate parentCtx req api r ac' log id :
  let ac := NewAuthContext parentCtx req api in
  Evaluate ac r ac' log → GetIdentity ac' id →
  match r with
  | ReturnIdentityError _ => id = None
  | _ =>
      (IdentityConfigs api = [] ∧ id = None)
      ∨ ∃ config acx,
          config ∈ IdentityConfigs api
          ∧ Call config acx = (id, None)
          ∧ Request acx = req ∧ API acx = api
          ∧ Identity acx = ∅ ∧ Metadata acx = ∅ ∧ Authorization acx = ∅
          ∧ Identity ac' = {[ as_IdentityConfig config := id ]}
  end.
Proof.
  intros ac (s & Hs & Hr & <- & <-) (entries & Hperm & ->).
  pose proof (identity_outcome_reachable _ _ _ _ Hs) as Hid.
  destruct (results_in_context_reachable _ _ _ _ Hs) as (HI & _).
  unfold identity_outcome in Hid. rewrite Hr in Hid.
  assert (Identity (authContext s) = ∅ → GetIdentity_range entries = None)
    as Hempty.
  { intros Hnil. rewrite Hnil, map_to_list_empty in Hperm.
    by apply Permutation_nil_r in Hperm as ->. }
  assert ((IdentityConfigs api = [] ∧ Identity (authContext s) = ∅)
          ∨ (∃ config acx obj,
               config ∈ IdentityConfigs api ∧ same_request ac acx
               ∧ Call config acx = (obj, None)
               ∧ Identity (authContext s)
                 = {[ as_IdentityConfig config := obj ]}) →
          (IdentityConfigs api = [] ∧ GetIdentity_range entries = None)
          ∨ ∃ config acx,
              config ∈ IdentityConfigs api
              ∧ Call config acx = (GetIdentity_range entries, None)
              ∧ Request acx = req ∧ API acx = api
              ∧ Identity acx = ∅ ∧ Metadata acx = ∅ ∧ Authorization acx = ∅
              ∧ Identity (authContext s)
                = {[ as_IdentityConfig config := GetIdentity_range entries ]})
    as Hpast.
  { intros [[Hnil Hmap]|(config & _ & obj & _ & _ & _ & Hmap)];
      [left; split; [done|by apply Hempty]|].
    right. rewrite Hmap, map_to_list_singleton in Hperm.
    apply Permutation_singleton_r in Hperm as ->.
    assert (GetIdentity_range [(as_IdentityConfig config, obj)] = obj)
      as -> by (by destruct obj).
    destruct (HI (as_IdentityConfig config) obj)
      as (config' & acx & Hin & Hkey & ([Hreq Hapi] & HIx & HMx & HAx) & Hcall).
    { rewrite Hmap. apply lookup_singleton_eq. }
    exists config', acx. rewrite Hkey. by split_and!. }
  destruct r as [e|e|]; [|by apply Hpast..].
  destruct Hid as (Hnil & _). by apply Hempty.
Qed.

(** X12: what the metadata view holds after the pipeline.  Every value of
    the view is the object that [Call] returned without error for a
    configured metadata evaluator, under the type tag of that evaluator,
    on an auth context of the request that held the identity result. *)
Theorem GetMetadata_after_Evaluate parentCtx req api s m t obj :
  rtc step (start (NewAuthContext parentCtx req api)) s →
  GetMetadata (authContext s) m → m !! t = Some obj →
  ∃ config acx,
    config ∈ MetadataConfigs api
    ∧ GetType (as_MetadataConfig config) = t
    ∧ Call config acx = (obj, None)
    ∧ Request acx = req ∧ API acx = api
    ∧ Identity acx = Identity (authContext s).
Proof.
  intros Hs (entries & Hperm & ->) Ht.
  apply GetMetadata_range_lookup in Ht as (conf & Hin & Htype).
  rewrite Hperm in Hin. apply elem_of_map_to_list in Hin.
  destruct (results_in_context_reachable _ _ _ _ Hs) as (_ & HM & _).
  destruct (HM conf obj Hin)
    as (config & acx & Hcfg & Hkey & ([Hreq Hapi] & HI & HA) & Hcall).
  exists config, acx. rewrite Hkey. by split_and!.
Qed.

Lemma parent_context_step (s s' : State Obj) :
  step s s' →
  ParentContext (authContext s) = true →
  ParentContext (authContext s') = true.
Proof.
  intros [c Hc] Hp. unfold sched_step in Hc.
  destruct (control s) as [ph|]; [|done]. destruct c as [i| | |].
  - destruct (goroutines s !! i) as [[config g]|]; [|done].
    destruct (goroutine_step _ _ _ _ _) as [[[[g' sent] cancel] logged]|];
      by simplify_eq.
  - destruct (negb (closed s) && _); by simplify_eq.
  - destruct (respChannel s) as [|resp rest].
    + destruct (closed s); [|done]. simplify_eq.
      destruct ph; simpl; try done. by destruct (lastError s).
    + simplify_eq. destruct ph; simpl; destruct (Success resp); simpl;
        try done. by destruct (Error resp).
  - by rewrite Hp in Hc.
Qed.

(** X13: the pipeline never replaces what the auth context was created
    for.  In every state that [Evaluate] can reach, [GetRequest] and
    [GetAPI] return the request and the API configuration given to
    [NewAuthContext], [AuthorizationToken] returns what it returned
    before [Evaluate], and a parent context that was done stays done. *)
Theorem Evaluate_keeps_request parentCtx req api s :
  rtc step (start (NewAuthContext parentCtx req api)) s →
  GetRequest (authContext s) = req
  ∧ GetAPI (authContext s) = api
  ∧ AuthorizationToken (authContext s)
    = AuthorizationToken (NewAuthContext (Obj:=Obj) parentCtx req api)
  ∧ (parentCtx = true → GetParentContext (authContext s) = true).
Proof.
  intros Hs. destruct (well_formed_reachable _ _ Hs) as [[Hreq Hapi] _].
  split; [done|]. split; [done|]. split.
  { unfold AuthorizationToken, AuthorizationToken_http. by rewrite Hreq. }
  clear Hreq Hapi. intros ->. revert s Hs.
  apply invariant_rtc; [done|]. intros s s' _ Hp Hstep.
  by eapply parent_context_step.
Qed.

(** X15: when the metadata evaluators that have a result recorded have
    pairwise distinct type tags, the view loses nothing: whatever the
    order of the loop, it holds the object of each recorded evaluator
    under the type tag of that evaluator, it has as many entries as the
    result map, and it is the same view for every order. *)
Theorem GetMetadata_distinct_types (authContext : AuthContext Obj) m :
  (∀ conf1 conf2,
     is_Some (Metadata authContext !! conf1) →
     is_Some (Metadata authContext !! conf2) →
     GetType conf1 = GetType conf2 → conf1 = conf2) →
  GetMetadata authContext m →
  (∀ conf obj,
     Metadata authContext !! conf = Some obj →
     m !! GetType conf = Some obj)
  ∧ size m = size (Metadata authContext)
  ∧ ∀ m', GetMetadata authContext m' → m' = m.
Proof.
  intros Hinj Hm.
  assert (∀ m1, GetMetadata authContext m1 →
            ∀ conf obj, Metadata authContext !! conf = Some obj →
                        m1 !! GetType conf = Some obj) as Hlookup.
  { intros m1 (entries & Hperm & ->) conf obj Hconf.
    assert (GetType conf ∈ dom (GetMetadata_range entries)) as Hdom.
    { rewrite GetMetadata_range_dom, elem_of_list_to_set, list_elem_of_fmap.
      exists (conf, obj). split; [done|]. rewrite Hperm.
      by apply elem_of_map_to_list. }
    apply elem_of_dom in Hdom as [obj' Hobj'].
    pose proof Hobj' as (conf' & Hin & Htype)%GetMetadata_range_lookup.
    rewrite Hperm in Hin. apply elem_of_map_to_list in Hin.
    assert (conf' = conf) as -> by (by apply Hinj).
    by simplify_eq. }
  assert (∀ m1, GetMetadata authContext m1 →
            ∀ t obj, m1 !! t = Some obj →
                     ∃ conf, Metadata authContext !! conf = Some obj
                             ∧ GetType conf = t) as Hback.
  { intros m1 (entries & Hperm & ->) t obj Ht.
    apply GetMetadata_range_lookup in Ht as (conf & Hin & Htype).
    rewrite Hperm in Hin. apply elem_of_map_to_list in Hin. eauto. }
  assert (∀ m1 m2, GetMetadata authContext m1 → GetMetadata authContext m2 →
                   m1 ⊆ m2) as Hsub.
  { intros m1 m2 Hm1 Hm2. apply map_subseteq_spec. intros t obj Ht.
    destruct (Hback m1 Hm1 t obj Ht) as (conf & Hconf & <-).
    by apply Hlookup. }
  split_and!.
  - by apply Hlookup.
  - destruct Hm as (entries & Hperm & ->).
    rewrite <-size_dom, GetMetadata_range_dom, size_list_to_set.
    + by rewrite length_fmap, Hperm, length_map_to_list.
    + rewrite Hperm.
      change (λ entry : option positive * interface Obj, GetType entry.1)
        with (GetType ∘ (fst : option positive * interface Obj → _)).
      rewrite list_fmap_compose.
      apply NoDup_fmap_2_strong; [|apply NoDup_fst_map_to_list].
      intros conf1 conf2 ([c1 o1] & -> & Hin1)%list_elem_of_fmap
        ([c2 o2] & -> & Hin2)%list_elem_of_fmap.
      apply elem_of_map_to_list in Hin1, Hin2. simpl. by apply Hinj.
  - intros m' Hm'. apply (anti_symm (⊆)); by apply Hsub.
Qed.

End Accessors.

(** ** The scenarios *)

Section Scenarios.

Local Open Scope positive_scope.

Lemma scenario_succeeds ac0 config :
  (address config <? 10) = true → @succeeds string scenario ac0 config.
Proof. intros Hlt ac _. simpl. unfold scenario_Call. by rewrite Hlt. Defined.

Lemma scenario_fails ac0 config :
  (address config <? 10) = false → @fails string scenario ac0 config.
Proof. intros Hlt ac _. simpl. unfold scenario_Call. by rewrite Hlt. Defined.

Lemma scenario_mix ac0 config :
  @succeeds string scenario ac0 config ∨ @fails string scenario ac0 config.
Proof.
  destruct (address config <? 10) eqn:Hlt;
    [left; by apply scenario_succeeds|right; by apply scenario_fails].
Defined.

Lemma scenario_Call_parent config (acx : AuthContext string) done :
  @Call string scenario config (set_ParentContext acx done)
  = @Call string scenario config acx.
Proof. done. Defined.

(** The state a schedule leads to from the start of [Evaluate], with
    what [Evaluate] returned there. *)
Ltac scenario_run schedule ctx r s Hs Hr :=
  assert (∃ s, @run string scenario schedule (start ctx) = Some s
               ∧ control s = Returned r) as (s & Hs & Hr)
    by (eexists; split; [vm_compute; reflexivity|reflexivity]).

(** Membership in a list written out. *)
Ltac members Hin :=
  simpl in Hin;
  repeat (apply elem_of_cons in Hin as [->|Hin]; [reflexivity|]);
  by apply elem_of_nil in Hin.

(** C2, counterexample: with no identity evaluator and a succeeding
    authorization evaluator, [Evaluate] returns [nil], not an identity
    failure. *)
Lemma Evaluate_no_identity_allows :
  IdentityConfigs (API context_no_identity) = []
  ∧ ∃ ac' log,
      @Evaluate string scenario context_no_identity ReturnNil ac' log.
Proof.
  split; [reflexivity|]. eexists _, _.
  eapply (run_Evaluate schedule_no_identity); [vm_compute|]; reflexivity.
Qed.

(** C6, counterexample: the parent context is cancelled in the middle
    of the identity phase, when no result map is written yet, and the
    run goes on to write the identity and the authorization result and
    to return [nil]. *)
Lemma Evaluate_parent_cancelled_allows :
  ∃ s1 s,
    @run string scenario schedule_until_cancel (start context_parent)
    = Some s1
    ∧ control s1 = Running IdentityPhase
    ∧ ParentContext (authContext s1) = true
    ∧ Identity (authContext s1) = ∅
    ∧ Authorization (authContext s1) = ∅
    ∧ @run string scenario schedule_after_cancel s1 = Some s
    ∧ control s = Returned ReturnNil
    ∧ size (Identity (authContext s)) = 1%nat
    ∧ size (Authorization (authContext s)) = 1%nat.
Proof.
  eexists _, _. split; [vm_compute; reflexivity|].
  do 4 (split; [reflexivity|]). split; [vm_compute; reflexivity|].
  by vm_compute.
Qed.

(** C4, counterexample: the header [Bearer ] with nothing after the
    space is accepted with an empty token, and so is a bearer token
    behind other text. *)
Lemma AuthorizationToken_accepts_more :
  AuthorizationToken (context_of (request_authorization "Bearer "))
  = Some ("", None)
  ∧ AuthorizationToken (context_of (request_authorization "Bearer "))
    ≠ Some ("", Some malformed)
  ∧ AuthorizationToken (context_of (request_authorization "xyzBearer abc"))
    = Some ("abc", None).
Proof. by vm_compute. Qed.

(** C9, counterexample: on a nil request, and on a request of which
    the [Attributes], the [Request] or the [Http] message is nil,
    [AuthorizationToken] returns neither a token nor an error: it panics
    at line 309, before the split. *)
Lemma AuthorizationToken_nil_message_panics :
  AuthorizationToken (context_of request_nil) = None
  ∧ AuthorizationToken (context_of request_nil_Attributes) = None
  ∧ AuthorizationToken (context_of request_nil_Request) = None
  ∧ AuthorizationToken (context_of request_nil_Http) = None
  ∧ ∀ token err,
      AuthorizationToken (context_of request_nil_Attributes)
      ≠ Some (token, err).
Proof. by split_and!. Qed.

(** C9, witness: a request without [Http] message, and a request with
    all its messages and no headers map. *)
Lemma AuthorizationToken_panics_on_nil_only_witness :
  AuthorizationToken (context_of request_nil_Http) = None
  ∧ AuthorizationToken (context_of (request_with None))
    = Some ("", Some malformed).
Proof.
  split.
  - apply (proj2 (proj1 (AuthorizationToken_panics_on_nil_only
                           (context_of request_nil_Http)))).
    reflexivity.
  - exact (proj2 (proj2 (proj2 (AuthorizationToken_panics_on_nil_only
                                  (context_of (request_with None)))))).
Defined.

(** C1, witness: identity [E_ok], authorization [E_ok; E_ok]. *)
Lemma Evaluate_authorization_phase_witness :
  (∀ config,
     config ∈ AuthorizationConfigs (API context_allow) →
     @succeeds string scenario context_allow config)
  ∧ ∃ ac' log,
      @Evaluate string scenario context_allow ReturnNil ac' log
      ∧ dom (Authorization ac') = list_to_set [Some 2; Some 3]
      ∧ size (Authorization ac') = 2%nat.
Proof.
  assert (∀ config,
            config ∈ AuthorizationConfigs (API context_allow) →
            @succeeds string scenario context_allow config) as Hok.
  { intros config Hin. apply scenario_succeeds. members Hin. }
  split; [exact Hok|].
  scenario_run schedule_allow context_allow ReturnNil s Hs Hr.
  pose proof (run_Evaluate _ _ _ _ Hs Hr) as Hev.
  exists (authContext s), (authCtxLog s). split; [exact Hev|].
  destruct (Evaluate_authorization_phase (EV:=scenario) false
              scenario_request (API context_allow)) as [_ Hall].
  destruct (Hall _ _ _ Hev ltac:(discriminate)) as [Hsucc _].
  destruct (Hsucc Hok) as (_ & Hdom & Hsize).
  split; [exact Hdom|]. apply Hsize.
  apply (bool_decide_unpack _). by vm_compute.
Defined.

(** C2, witness: no identity evaluator, authorization [E_ok]. *)
Lemma Evaluate_no_identity_evaluators_witness :
  IdentityConfigs (API context_no_identity) = []
  ∧ ∃ ac' log,
      @Evaluate string scenario context_no_identity ReturnNil ac' log
      ∧ Identity ac' = ∅
      ∧ observations IdentityPhase log = [].
Proof.
  split; [reflexivity|].
  scenario_run schedule_no_identity context_no_identity ReturnNil s Hs Hr.
  pose proof (run_Evaluate _ _ _ _ Hs Hr) as Hev.
  exists (authContext s), (authCtxLog s). split; [exact Hev|].
  destruct (Evaluate_no_identity_evaluators (EV:=scenario) false
              scenario_request (API context_no_identity) eq_refl)
    as [_ Hall].
  destruct (Hall _ _ _ Hev) as (_ & HI & Hobs & _). by split.
Defined.

(** C3, witness: identity [E_fail; E_ok]. *)
Lemma Evaluate_identity_first_success_witness :
  (∃ config,
     config ∈ IdentityConfigs (API context_second_identity)
     ∧ @succeeds string scenario context_second_identity config)
  ∧ ∃ ac' log,
      @Evaluate string scenario context_second_identity ReturnNil ac' log
      ∧ size (Identity ac') = 1%nat.
Proof.
  assert (∃ config,
            config ∈ IdentityConfigs (API context_second_identity)
            ∧ @succeeds string scenario context_second_identity config)
    as Hok.
  { exists (IdentityConfig 1). split; [|by apply scenario_succeeds].
    simpl. apply elem_of_cons. right. apply elem_of_cons. by left. }
  split; [exact Hok|].
  scenario_run schedule_second_identity context_second_identity ReturnNil
    s Hs Hr.
  pose proof (run_Evaluate _ _ _ _ Hs Hr) as Hev.
  exists (authContext s), (authCtxLog s). split; [exact Hev|].
  destruct (Evaluate_identity_first_success (EV:=scenario) false
              scenario_request (API context_second_identity) Hok)
    as [_ Hall].
  destruct (Hall _ _ _ Hev) as (_ & config & obj & earlier & _ & _ & HI & _).
  rewrite HI. apply map_size_singleton.
Defined.

(** C5, witness: metadata [E_ok; E_ok; E_fail], with distinct keys:
    two entries, one for each success. *)
Lemma Evaluate_metadata_best_effort_witness :
  (∀ config,
     config ∈ MetadataConfigs (API context_metadata_mix) →
     @succeeds string scenario context_metadata_mix config
     ∨ @fails string scenario context_metadata_mix config)
  ∧ NoDup (as_MetadataConfig <$> MetadataConfigs (API context_metadata_mix))
  ∧ ∃ s,
      rtc (@step string scenario) (start context_metadata_mix) s
      ∧ control s = Returned ReturnNil
      ∧ Metadata (authContext s) !! Some 11 = None
      ∧ size (Metadata (authContext s)) = 2%nat
      ∧ (∃ acx obj,
           @Call string scenario (MetadataConfig 1) acx = (obj, None)
           ∧ Metadata (authContext s) !! Some 1 = Some obj)
      ∧ (∃ acx obj,
           @Call string scenario (MetadataConfig 2) acx = (obj, None)
           ∧ Metadata (authContext s) !! Some 2 = Some obj).
Proof.
  assert (NoDup (as_MetadataConfig
                   <$> MetadataConfigs (API context_metadata_mix))) as Hnd.
  { apply (bool_decide_unpack _). by vm_compute. }
  split; [exact (λ config _, scenario_mix context_metadata_mix config)|].
  split; [exact Hnd|].
  scenario_run schedule_metadata_mix context_metadata_mix ReturnNil s Hs Hr.
  pose proof (run_rtc _ _ _ Hs) as Hrtc.
  exists s. split; [exact Hrtc|]. split; [exact Hr|].
  destruct (Evaluate_metadata_best_effort (EV:=scenario) false
              scenario_request (API context_metadata_mix)
              (λ config _, scenario_mix context_metadata_mix config))
    as (_ & _ & Hall).
  destruct (Hall s Hrtc (or_intror (or_introl Hr))) as (_ & Hnone & Hone).
  destruct (Hone Hnd) as [Hsize Hentry]. split_and!.
  - apply Hnone; [|by apply scenario_fails].
    simpl. do 2 (apply elem_of_cons; right). apply elem_of_cons. by left.
  - rewrite Hsize. by vm_compute.
  - destruct (Hentry (MetadataConfig 1)) as (acx & obj & _ & Hcall & Hobj).
    + simpl. apply elem_of_cons. by left.
    + by apply scenario_succeeds.
    + by exists acx, obj.
  - destruct (Hentry (MetadataConfig 2)) as (acx & obj & _ & Hcall & Hobj).
    + simpl. apply elem_of_cons. right. apply elem_of_cons. by left.
    + by apply scenario_succeeds.
    + by exists acx, obj.
Defined.

(** C6, witness: the scenario evaluators do not read the parent
    context. *)
Lemma Evaluate_ignores_parent_context_witness :
  (∀ config (acx : AuthContext string) done,
     @Call string scenario config (set_ParentContext acx done)
     = @Call string scenario config acx)
  ∧ ∃ s0,
      @run string scenario (without_CancelParent schedule_parent_cancelled)
        (start context_parent) = Some s0
      ∧ control s0 = Returned ReturnNil.
Proof.
  split; [exact scenario_Call_parent|].
  scenario_run schedule_parent_cancelled context_parent ReturnNil s Hs Hr.
  destruct (Evaluate_ignores_parent_context (EV:=scenario) false
              scenario_request (API context_parent))
    as (_ & _ & Hsame & _).
  destruct (Hsame scenario_Call_parent _ _ Hs) as (s0 & Hs0 & Hc & _).
  exists s0. split; [exact Hs0|]. by rewrite Hc.
Defined.

(** C7, witness: identity [E_fail; E_fail]. *)
Lemma Evaluate_identity_all_fail_witness :
  IdentityConfigs (API context_identity_fails) ≠ []
  ∧ (∀ config,
       config ∈ IdentityConfigs (API context_identity_fails) →
       @fails string scenario context_identity_fails config)
  ∧ ∃ ac' log,
      @Evaluate string scenario context_identity_fails
        (ReturnIdentityError (Errorf "denied")) ac' log
      ∧ Metadata ac' = ∅ ∧ Authorization ac' = ∅.
Proof.
  assert (∀ config,
            config ∈ IdentityConfigs (API context_identity_fails) →
            @fails string scenario context_identity_fails config) as Hfail.
  { intros config Hin. apply scenario_fails. members Hin. }
  split; [discriminate|]. split; [exact Hfail|].
  scenario_run schedule_identity_fails context_identity_fails
    (ReturnIdentityError (Errorf "denied")) s Hs Hr.
  pose proof (run_Evaluate _ _ _ _ Hs Hr) as Hev.
  exists (authContext s), (authCtxLog s). split; [exact Hev|].
  destruct (Evaluate_identity_all_fail (EV:=scenario) false
              scenario_request (API context_identity_fails)
              ltac:(discriminate) Hfail) as (_ & _ & Hall).
  destruct (Hall _ _ _ Hev) as (e & conf & earlier & _ & _ & _ & HM & HA).
  by split.
Defined.

(** C10: when [Evaluate] returns the authorization error, the
    authorization result map is left as the loop wrote it: it holds
    exactly the objects of the successes that the authorization loop
    observed before the failure it returned on, which is the first
    failure it observed.  That can be no entry at all, or several: a
    denied request can leave partial authorization results. *)
Theorem Evaluate_denied_keeps_recorded :
  (∀ (Obj : Type) (EV : Evaluators Obj) parentCtx req api ac' log e,
     Evaluate (NewAuthContext parentCtx req api)
       (ReturnAuthorizationError e) ac' log →
     ∃ conf objs,
       observations AuthorizationPhase log
       = LogError AuthorizationPhase conf (Some e) :: (recorded <$> objs)
       ∧ Authorization ac' = list_to_map objs)
  ∧ (∃ ac' log,
       @Evaluate string scenario context_denied_late
         (ReturnAuthorizationError (Errorf "denied")) ac' log
       ∧ size (Authorization ac') = 2%nat)
  ∧ (∃ ac' log,
       @Evaluate string scenario context_denied_first
         (ReturnAuthorizationError (Errorf "denied")) ac' log
       ∧ Authorization ac' = ∅).
Proof.
  split_and!.
  - intros Obj EV parentCtx req api ac' log e Hev.
    by apply (Evaluate_denied_log _ _ _ _ e) in Hev.
  - scenario_run schedule_denied_late context_denied_late
      (ReturnAuthorizationError (Errorf "denied")) s Hs Hr.
    exists (authContext s), (authCtxLog s).
    split; [by apply (run_Evaluate _ _ _ _ Hs Hr)|].
    vm_compute in Hs. by simplify_eq.
  - scenario_run schedule_denied_first context_denied_first
      (ReturnAuthorizationError (Errorf "denied")) s Hs Hr.
    exists (authContext s), (authCtxLog s).
    split; [by apply (run_Evaluate _ _ _ _ Hs Hr)|].
    vm_compute in Hs. by simplify_eq.
Qed.

(** C10, witness: authorization [E_ok; E_ok; E_fail]. *)
Lemma Evaluate_denied_keeps_recorded_witness :
  ∃ ac' log conf objs,
    @Evaluate string scenario context_denied_late
      (ReturnAuthorizationError (Errorf "denied")) ac' log
    ∧ observations AuthorizationPhase log
      = LogError AuthorizationPhase conf (Some (Errorf "denied"))
        :: (recorded <$> objs)
    ∧ Authorization ac' = list_to_map objs.
Proof.
  scenario_run schedule_denied_late context_denied_late
    (ReturnAuthorizationError (Errorf "denied")) s Hs Hr.
  pose proof (run_Evaluate _ _ _ _ Hs Hr) as Hev.
  destruct (proj1 Evaluate_denied_keeps_recorded string scenario _ _ _ _ _ _
              Hev) as (conf & objs & Hobs & HA).
  exists (authContext s), (authCtxLog s), conf, objs. by split_and!.
Defined.

(** C8, witness: two recorded metadata results of one type tag. *)
Lemma GetMetadata_by_type_witness :
  ∃ m, @GetMetadata string scenario view_context m
       ∧ size (Metadata view_context) = 2%nat
       ∧ (size m < 2)%nat.
Proof.
  destruct (GetMetadata_by_type (EV:=scenario) view_context)
    as [[m Hm] Hall].
  exists m. split; [exact Hm|]. split; [by vm_compute|].
  destruct (Hall m Hm) as (_ & _ & _ & Hshared).
  by destruct (Hshared (Some 1) (Some 2)) as [Hlt _].
Defined.

(** C4, witness: the header [Bearer abc]. *)
Lemma AuthorizationToken_single_Bearer_witness :
  ∃ h pre,
    authorization_header (context_of (request_authorization "Bearer abc"))
    = Some h
    ∧ only_occurrence "Bearer " pre "abc" h.
Proof.
  apply (proj1 (proj1 (AuthorizationToken_single_Bearer
                         (context_of (request_authorization "Bearer abc")))
                "abc")).
  by vm_compute.
Defined.

(** X1, witness: the identity goroutine of [context_parent] is about to
    send, and the channel of capacity one is empty. *)
Lemma respChannel_within_capacity_witness :
  ∃ s, @run string scenario schedule_until_cancel (start context_parent)
       = Some s
       ∧ goroutines s !! 0%nat
         = Some (IdentityConfig 1, AtSend (Some "obj") None)
       ∧ (List.length (respChannel s) < 1)%nat.
Proof.
  assert (∃ s, @run string scenario schedule_until_cancel
                 (start context_parent) = Some s
               ∧ control s = Running IdentityPhase
               ∧ goroutines s !! 0%nat
                 = Some (IdentityConfig 1, AtSend (Some "obj") None))
    as (s & Hs & Hc & Hg)
    by (eexists; split_and!; [vm_compute; reflexivity|reflexivity..]).
  exists s. split; [exact Hs|]. split; [exact Hg|].
  exact (proj2 (respChannel_within_capacity (EV:=scenario) false
                  scenario_request (API context_parent) s IdentityPhase
                  (run_rtc _ _ _ Hs) Hc) _ _ _ _ Hg).
Defined.

(** X2, witness: with every call returning, the run of [schedule_allow]
    with three evaluators; with the calls of the second metadata
    evaluator of [context_metadata] not returning, a run that stays in
    the metadata phase. *)
Lemma Evaluate_returns_if_calls_return_witness :
  (∃ s, @run_if string scenario returning_all schedule_allow
          (start context_allow) = Some s
        ∧ (List.length schedule_allow ≤ 5 * (1 + 0 + 2) + 9)%nat)
  ∧ ∃ s, @run_if string scenario (returning_but (MetadataConfig 11))
           schedule_stalled (start context_metadata) = Some s
         ∧ (control s = Running IdentityPhase
            ∨ control s = Running MetadataPhase
            ∨ ∃ e, control s = Returned (ReturnIdentityError e)).
Proof.
  split.
  - assert (∃ s, @run_if string scenario returning_all schedule_allow
                   (start context_allow) = Some s) as [s Hs]
      by (eexists; vm_compute; reflexivity).
    exists s. split; [exact Hs|].
    destruct (Evaluate_returns_if_calls_return (EV:=scenario) false
                scenario_request (API context_allow) returning_all)
      as [Hall _].
    destruct (Hall (λ _ _, eq_refl)) as (_ & Hbound & _).
    exact (Hbound _ _ Hs).
  - assert (∃ s, @run_if string scenario (returning_but (MetadataConfig 11))
                   schedule_stalled (start context_metadata) = Some s)
      as [s Hs] by (eexists; vm_compute; reflexivity).
    exists s. split; [exact Hs|].
    destruct (Evaluate_returns_if_calls_return (EV:=scenario) false
                scenario_request (API context_metadata)
                (returning_but (MetadataConfig 11))) as [_ Hstall].
    apply (Hstall (MetadataConfig 11)).
    + simpl. apply elem_of_cons. right. apply elem_of_cons. by left.
    + done.
    + exact (run_if_rtc _ _ _ _ Hs).
Defined.

(** X3, witness: identity [E_fail; E_fail]. *)
Lemma Evaluate_identity_denied_all_failed_witness :
  ∃ ac' log,
    @Evaluate string scenario context_identity_fails
      (ReturnIdentityError (Errorf "denied")) ac' log
    ∧ (∀ config,
         config ∈ IdentityConfigs (API context_identity_fails) →
         @failed_call string scenario context_identity_fails config)
    ∧ observed_keys IdentityPhase log ≡ₚ [Some 11; Some 12].
Proof.
  scenario_run schedule_identity_fails context_identity_fails
    (ReturnIdentityError (Errorf "denied")) s Hs Hr.
  pose proof (run_Evaluate _ _ _ _ Hs Hr) as Hev.
  exists (authContext s), (authCtxLog s). split; [exact Hev|].
  destruct (Evaluate_identity_denied_all_failed (EV:=scenario) false
              scenario_request (API context_identity_fails) _ _ _ Hev)
    as (_ & _ & Hfail & _ & Hkeys & _).
  split; [exact Hfail|exact Hkeys].
Defined.

(** X4, witness: identity [E_ok], authorization [E_ok; E_ok]. *)
Lemma Evaluate_allowed_all_passed_witness :
  ∃ ac' log,
    @Evaluate string scenario context_allow ReturnNil ac' log
    ∧ (∀ config,
         config ∈ AuthorizationConfigs (API context_allow) →
         @passed_call string scenario context_allow config)
    ∧ observed_keys AuthorizationPhase log ≡ₚ [Some 2; Some 3].
Proof.
  scenario_run schedule_allow context_allow ReturnNil s Hs Hr.
  pose proof (run_Evaluate _ _ _ _ Hs Hr) as Hev.
  exists (authContext s), (authCtxLog s). split; [exact Hev|].
  destruct (Evaluate_allowed_all_passed (EV:=scenario) false
              scenario_request (API context_allow) _ _ Hev)
    as (_ & Hall & _ & Hkeys & _).
  split; [exact Hall|exact Hkeys].
Defined.

(** X5, witness: in [context_denied_late] the identity evaluator
    succeeds and an authorization evaluator fails. *)
Lemma Evaluate_decision_witness :
  ∃ ac' log,
    @Evaluate string scenario context_denied_late
      (ReturnAuthorizationError (Errorf "denied")) ac' log
    ∧ ∃ config,
        config ∈ AuthorizationConfigs (API context_denied_late)
        ∧ @fails string scenario context_denied_late config.
Proof.
  scenario_run schedule_denied_late context_denied_late
    (ReturnAuthorizationError (Errorf "denied")) s Hs Hr.
  pose proof (run_Evaluate _ _ _ _ Hs Hr) as Hev.
  exists (authContext s), (authCtxLog s). split; [exact Hev|].
  destruct (Evaluate_decision (EV:=scenario) false scenario_request
              (API context_denied_late) _ _ _
              (λ config _, scenario_mix context_denied_late config) Hev)
    as (_ & Hdenied & _).
  exact (proj2 (proj1 Hdenied (ex_intro _ _ eq_refl))).
Defined.

(** X6, witness: metadata [E_ok; E_fail], both observed. *)
Lemma Evaluate_metadata_observes_all_witness :
  ∃ s, @run string scenario schedule_metadata (start context_metadata)
       = Some s
       ∧ observed_keys MetadataPhase (authCtxLog s) ≡ₚ [Some 1; Some 11].
Proof.
  scenario_run schedule_metadata context_metadata ReturnNil s Hs Hr.
  exists s. split; [exact Hs|].
  exact (Evaluate_metadata_observes_all (EV:=scenario) false
           scenario_request (API context_metadata) s (run_rtc _ _ _ Hs)
           (or_intror (or_introl Hr))).
Defined.

(** X7, witness: the second identity evaluator of
    [context_second_identity] has succeeded and cancelled the context. *)
Lemma cancel_follows_response_witness :
  ∃ s, @run string scenario (whole 1) (start context_second_identity)
       = Some s
       ∧ ctxDone s = true
       ∧ Exists (λ resp, Success resp = true) (respChannel s).
Proof.
  assert (∃ s, @run string scenario (whole 1)
                 (start context_second_identity) = Some s
               ∧ control s = Running IdentityPhase ∧ ctxDone s = true)
    as (s & Hs & Hc & Hd)
    by (eexists; split_and!; [vm_compute; reflexivity|reflexivity..]).
  exists s. split; [exact Hs|]. split; [exact Hd|].
  exact (cancel_follows_response (EV:=scenario) false scenario_request
           (API context_second_identity) s IdentityPhase
           (run_rtc _ _ _ Hs) Hc Hd).
Defined.

(** X8, witness: the authorization result of [context_allow] under the
    key of the evaluator at address 2. *)
Lemma Evaluate_authorization_context_witness :
  ∃ s config acx,
    @run string scenario schedule_allow (start context_allow) = Some s
    ∧ config ∈ AuthorizationConfigs (API context_allow)
    ∧ @Call string scenario config acx = (Some "obj", None)
    ∧ Identity acx = Identity (authContext s)
    ∧ Metadata acx = Metadata (authContext s).
Proof.
  assert (∃ s, @run string scenario schedule_allow (start context_allow)
               = Some s
               ∧ Authorization (authContext s) !! Some 2
                 = Some (Some "obj"))
    as (s & Hs & Hk)
    by (eexists; split; [vm_compute; reflexivity|reflexivity]).
  destruct (proj1 (Evaluate_authorization_context (EV:=scenario) false
                     scenario_request (API context_allow) s
                     (run_rtc _ _ _ Hs)) _ _ Hk)
    as (config & acx & Hin & _ & Hcall & _ & _ & HI & HM).
  by exists s, config, acx.
Defined.

(** X9, witness: the metadata result of [context_metadata] under the
    key of the evaluator at address 1. *)
Lemma Evaluate_metadata_context_witness :
  ∃ s config acx,
    @run string scenario schedule_metadata (start context_metadata) = Some s
    ∧ config ∈ MetadataConfigs (API context_metadata)
    ∧ @Call string scenario config acx = (Some "obj", None)
    ∧ Identity acx = Identity (authContext s).
Proof.
  assert (∃ s, @run string scenario schedule_metadata
                 (start context_metadata) = Some s
               ∧ Metadata (authContext s) !! Some 1 = Some (Some "obj"))
    as (s & Hs & Hk)
    by (eexists; split; [vm_compute; reflexivity|reflexivity]).
  destruct (Evaluate_metadata_context (EV:=scenario) false
              scenario_request (API context_metadata) s _ _
              (run_rtc _ _ _ Hs) Hk)
    as (config & acx & Hin & _ & Hcall & _ & _ & HI & _).
  by exists s, config, acx.
Defined.

(** X10, witness: of a nil value and ["alice"], the second is
    returned. *)
Lemma GetIdentity_non_nil_value_witness :
  GetIdentity identity_context (Some "alice").
Proof.
  apply (proj2 (proj2 (GetIdentity_non_nil_value identity_context))
           (Some 1)).
  reflexivity.
Defined.

(** X11, witness: the identity resolved by the run of
    [schedule_allow]. *)
Lemma GetIdentity_after_Evaluate_witness :
  ∃ ac' log id,
    @Evaluate string scenario context_allow ReturnNil ac' log
    ∧ GetIdentity ac' id
    ∧ ((IdentityConfigs (API context_allow) = [] ∧ id = None)
       ∨ ∃ config acx,
           config ∈ IdentityConfigs (API context_allow)
           ∧ @Call string scenario config acx = (id, None)
           ∧ Request acx = scenario_request
           ∧ API acx = API context_allow
           ∧ Identity acx = ∅ ∧ Metadata acx = ∅ ∧ Authorization acx = ∅
           ∧ Identity ac' = {[ as_IdentityConfig config := id ]}).
Proof.
  scenario_run schedule_allow context_allow ReturnNil s Hs Hr.
  pose proof (run_Evaluate _ _ _ _ Hs Hr) as Hev.
  assert (GetIdentity (authContext s)
            (GetIdentity_range (map_to_list (Identity (authContext s)))))
    as Hid by (by eexists).
  exists (authContext s), (authCtxLog s),
    (GetIdentity_range (map_to_list (Identity (authContext s)))).
  split; [exact Hev|]. split; [exact Hid|].
  exact (GetIdentity_after_Evaluate (EV:=scenario) false scenario_request
           (API context_allow) _ _ _ _ Hev Hid).
Defined.

(** X12, witness: the view of the metadata results of
    [context_metadata]. *)
Lemma GetMetadata_after_Evaluate_witness :
  ∃ s m config acx,
    @run string scenario schedule_metadata (start context_metadata) = Some s
    ∧ @GetMetadata string scenario (authContext s) m
    ∧ config ∈ MetadataConfigs (API context_metadata)
    ∧ @Call string scenario config acx = (Some "obj", None).
Proof.
  assert (∃ s, @run string scenario schedule_metadata
                 (start context_metadata) = Some s
               ∧ @GetMetadata_range string scenario
                   (map_to_list (Metadata (authContext s))) !! "userinfo"
                 = Some (Some "obj"))
    as (s & Hs & Hk)
    by (eexists; split; [vm_compute; reflexivity|by vm_compute]).
  assert (@GetMetadata string scenario (authContext s)
            (@GetMetadata_range string scenario
               (map_to_list (Metadata (authContext s)))))
    as Hm by (by eexists).
  destruct (GetMetadata_after_Evaluate (EV:=scenario) false
              scenario_request (API context_metadata) s _ _ _
              (run_rtc _ _ _ Hs) Hm Hk)
    as (config & acx & Hin & _ & Hcall & _).
  by exists s, (@GetMetadata_range string scenario
                  (map_to_list (Metadata (authContext s)))), config, acx.
Defined.

(** X13, witness: the request after the run of [schedule_allow]. *)
Lemma Evaluate_keeps_request_witness :
  ∃ s, @run string scenario schedule_allow (start context_allow) = Some s
       ∧ GetRequest (authContext s) = scenario_request
       ∧ AuthorizationToken (authContext s) = Some ("abc", None).
Proof.
  scenario_run schedule_allow context_allow ReturnNil s Hs Hr.
  exists s. split; [exact Hs|].
  destruct (Evaluate_keeps_request (EV:=scenario) false scenario_request
              (API context_allow) s (run_rtc _ _ _ Hs))
    as (Hreq & _ & Htoken & _).
  split; [exact Hreq|]. rewrite Htoken. by vm_compute.
Defined.

(** X14, witness: both identity goroutines of [context_identity_fails]
    have exited and the channel is closed. *)
Lemma channel_closed_after_goroutines_witness :
  ∃ s, @run string scenario schedule_closed (start context_identity_fails)
       = Some s
       ∧ closed s = true
       ∧ @sched_step string scenario (Go 0) s = None
       ∧ @sched_step string scenario Close s = None.
Proof.
  assert (∃ s, @run string scenario schedule_closed
                 (start context_identity_fails) = Some s
               ∧ control s = Running IdentityPhase ∧ closed s = true)
    as (s & Hs & Hc & Hcl)
    by (eexists; split_and!; [vm_compute; reflexivity|reflexivity..]).
  destruct (channel_closed_after_goroutines (EV:=scenario) false
              scenario_request (API context_identity_fails) s IdentityPhase
              (run_rtc _ _ _ Hs) Hc Hcl) as (_ & Hgo & Hclose).
  exists s. by split_and!.
Defined.

(** X15, witness: the two metadata results of [view_context], under
    evaluators with distinct type tags. *)
Lemma GetMetadata_distinct_types_witness :
  ∃ m, @GetMetadata string scenario_typed view_context m
       ∧ m !! "userinfo" = Some (Some "userinfo")
       ∧ m !! "resource" = Some (Some "resource")
       ∧ size m = 2%nat.
Proof.
  assert (@GetMetadata string scenario_typed view_context
            (@GetMetadata_range string scenario_typed
               (map_to_list (Metadata view_context))))
    as Hm by (by eexists).
  assert (∀ conf, is_Some (Metadata view_context !! conf) →
                  conf = Some 1 ∨ conf = Some 2) as Hdom.
  { intros conf [obj Hconf]. unfold view_context in Hconf. simpl in Hconf.
    apply lookup_insert_Some in Hconf as [[<- _]|[_ Hconf]]; [by right|].
    apply lookup_insert_Some in Hconf as [[<- _]|[_ Hconf]]; [by left|].
    by rewrite lookup_empty in Hconf. }
  assert (∀ conf1 conf2,
            is_Some (Metadata view_context !! conf1) →
            is_Some (Metadata view_context !! conf2) →
            @GetType string scenario_typed conf1
            = @GetType string scenario_typed conf2 →
            conf1 = conf2) as Hinj.
  { intros conf1 conf2 [->| ->]%Hdom [->| ->]%Hdom; done. }
  destruct (GetMetadata_distinct_types (EV:=scenario_typed) view_context _
              Hinj Hm) as (Hlookup & Hsize & _).
  eexists. split; [exact Hm|]. split_and!.
  - by apply (Hlookup (Some 1)).
  - by apply (Hlookup (Some 2)).
  - rewrite Hsize. by vm_compute.
Defined.

End Scenarios.
